(** * cachex: a two-tier read-through cache (kakkk/gopkg)

    A shallow embedding of the [cachex] package: the envelope ([entry]) and
    its binary frame, the two-tier [wrapper], the facade ([cachex]) with its
    source strategies, and the builder.  Go code that touches the stores, the
    loaders, the wall clock or the random source is written in a state monad
    over a [World]; a Go panic is an outcome of its own. *)

From Stdlib Require Import ZArith Lia Strings.Byte.
From stdpp Require Import base option list gmap strings.

Open Scope Z_scope.

Set Warnings "-register-all".

(** ** Integers and [encoding/binary] *)

Module Bin.

(** [byte(v)]: the low eight bits. *)
Definition byte_of_Z (z : Z) : byte :=
  default x00 (Byte.of_N (Z.to_N (z mod 256))).

Definition Z_of_byte (b : byte) : Z := Z.of_N (Byte.to_N b).

(** [uint64(x)] for an [int64] x, and [int64(u)] for a [uint64] u. *)
Definition to_uint64 (x : Z) : Z := x mod 2 ^ 64.

Definition to_int64 (u : Z) : Z :=
  let m := u mod 2 ^ 64 in
  if m <? 2 ^ 63 then m else m - 2 ^ 64.

Definition int64_range (x : Z) : Prop := - 2 ^ 63 <= x < 2 ^ 63.

(** [a + b] on [int64]. *)
Definition add64 (a b : Z) : Z := to_int64 (a + b).

(** [binary.LittleEndian.PutUint64]: b[i] = byte(v >> 8i). *)
Definition PutUint64 (v : Z) : list byte :=
  [ byte_of_Z v; byte_of_Z (Z.shiftr v 8); byte_of_Z (Z.shiftr v 16);
    byte_of_Z (Z.shiftr v 24); byte_of_Z (Z.shiftr v 32);
    byte_of_Z (Z.shiftr v 40); byte_of_Z (Z.shiftr v 48);
    byte_of_Z (Z.shiftr v 56) ].

Definition at_ (b : list byte) (i : nat) : Z := Z_of_byte (nth i b x00).

(** [binary.LittleEndian.Uint64]: b[0] | b[1]<<8 | ... | b[7]<<56.  Every
    caller passes a slice of exactly eight bytes. *)
Definition Uint64 (b : list byte) : Z :=
  Z.lor (at_ b 0)
    (Z.lor (Z.shiftl (at_ b 1) 8)
       (Z.lor (Z.shiftl (at_ b 2) 16)
          (Z.lor (Z.shiftl (at_ b 3) 24)
             (Z.lor (Z.shiftl (at_ b 4) 32)
                (Z.lor (Z.shiftl (at_ b 5) 40)
                   (Z.lor (Z.shiftl (at_ b 6) 48)
                      (Z.shiftl (at_ b 7) 56))))))).

End Bin.

(** ** Errors, results, panics *)

Inductive error : Type :=
  | UserErr (msg : string)             (* an error of a codec, loader or store *)
  | ErrMarshal (e : error)             (* "cachex: failed to marshal value: %v" *)
  | ErrLoaderNotSet                    (* "loader not set" *)
  | ErrLoaderFn (e : error)            (* "loader fn err: %w" *)
  | ErrLoaderPanic (p : string)        (* "loader fn err: panic:%v" *)
  | ErrMLoaderFn (e : error)           (* "mloader fn err: %w" *)
  | ErrMLoaderLen                      (* "mloader fn err: len(keys) != len(values)" *)
  | ErrKeysValuesLen                   (* "keys values length not equal" *)
  | ErrInvalidStrategy (ss : Z)        (* "invalid source strategy: %v" *)
  | ErrSet (l1 l2 : option error)      (* "cachex: cacher set error, l1:%w, l2:%w" *)
  | ErrMSet (l1 l2 : option error)     (* "cachex: mSet cacher error, l1:%w, l2:%w" *)
  | ErrDelete (l1 l2 : option error)   (* "cachex: cahcer delete error: l1:%w, l2:%w" *)
  | ErrMDelete (l1 l2 : option error)  (* "cachex: cahcer mDelete error: l1:%w, l2:%w" *)
  | ErrNamespaceNotSet                 (* "namespace not set" *)
  | ErrGenKeyFnNotSet                  (* "gen cacheKey fn not set" *)
  | ErrL1NotSet                        (* "l1 cacher not set" *)
  | ErrCacherAndLoaderNotSet.          (* "cacher and loader not set" *)

(** A Go result pair [(x, err)]. *)
Inductive result (A : Type) : Type :=
  | Ok (a : A)
  | Err (e : error).
Arguments Ok {A} a.
Arguments Err {A} e.

(** What a call does: it returns, or it panics. *)
Inductive outcome (A : Type) : Type :=
  | Ret (a : A)
  | Panic (p : string).
Arguments Ret {A} a.
Arguments Panic {A} p.

Definition nil_deref : string := "invalid memory address or nil pointer dereference".
Definition unmarshal_panic : string := "cachex: failed to unmarshal value".

(** ** Codec *)

(** The [Codec] interface: [Marshal] takes a pointer to a value and gives
    bytes or an error, [Unmarshal] takes bytes and gives a pointer to a value
    or an error; a pointer to a V is an [option V]. *)
Record Codec (V : Type) : Type := mkCodec {
  Marshal : option V -> result (list byte);
  Unmarshal : list byte -> result (option V)
}.
Arguments mkCodec {V} _ _.
Arguments Marshal {V} _ _.
Arguments Unmarshal {V} _ _.

(** [bytesDirect]: the raw-bytes codec, V = []byte. *)
Definition bytesDirect : Codec (list byte) :=
  mkCodec
    (fun v => match v with
              | None => Err (UserErr "value is nil")
              | Some b => Ok b
              end)
    (fun data => Ok (Some data)).

(** ** The envelope *)

Definition bytesCreateAtSize : nat := 8.
Definition bytesTTLSize : nat := 8.
Definition bytesIsNilSize : nat := 1.
Definition bytesHeaderSize : nat :=
  (bytesCreateAtSize + bytesTTLSize + bytesIsNilSize)%nat.

Record entry (V : Type) : Type := mkEntry {
  createAt : Z;          (* int64, milliseconds since the epoch *)
  ttl : Z;               (* time.Duration: int64 nanoseconds *)
  valBytes : list byte;  (* nil and empty are both [] *)
  val : option V;
  isNil : byte
}.
Arguments mkEntry {V} _ _ _ _ _.
Arguments createAt {V} _.
Arguments ttl {V} _.
Arguments valBytes {V} _.
Arguments val {V} _.
Arguments isNil {V} _.

Definition with_valBytes {V} (e : entry V) (b : list byte) : entry V :=
  mkEntry (createAt e) (ttl e) b (val e) (isNil e).

(** [Serialize] caches the marshalled payload in the envelope: the envelope
    after the call is returned with the frame. *)
Definition Serialize {V} (codec : Codec V) (e : entry V)
  : entry V * result (list byte) :=
  let marshalled :=
    if (length (valBytes e) =? 0)%nat && bool_decide (val e ≠ None) then
      match Marshal codec (val e) with
      | Err err => Err (ErrMarshal err)
      | Ok bytes => Ok (with_valBytes e bytes)
      end
    else Ok e in
  match marshalled with
  | Err err => (e, Err err)
  | Ok e' =>
      (e', Ok (Bin.PutUint64 (Bin.to_uint64 (createAt e'))
               ++ Bin.PutUint64 (Bin.to_uint64 (ttl e'))
               ++ [isNil e']
               ++ valBytes e'))
  end.

(** [time.Duration.Milliseconds]: integer division, truncated. *)
Definition Milliseconds (d : Z) : Z := Z.quot d 1000000.

(** The body of [IsExpired] once the clock has been read. *)
Definition expiredAt {V} (now : Z) (e : entry V) : bool :=
  if ttl e <=? 0 then false
  else if Bin.add64 (createAt e) (Milliseconds (ttl e)) <? now then true
  else false.

Definition IsNil {V} (e : entry V) : bool :=
  bool_decide (Bin.Z_of_byte (isNil e) = 1).

(** [Value] on a possibly nil envelope pointer. *)
Definition Value {V} (e : option (entry V)) (codec : Codec V)
  : outcome (option V * option error) :=
  match e with
  | None => Ret (None, None)
  | Some e =>
      if IsNil e then Ret (None, None)
      else match val e with
           | Some v => Ret (Some v, None)
           | None =>
               match Unmarshal codec (valBytes e) with
               | Err _ => Panic unmarshal_panic
               | Ok v => Ret (v, None)
               end
           end
  end.

Definition CreateAt {V} (e : entry V) : Z := createAt e.

(** [newEntry], given the reading of [time.Now().UnixMilli()]. *)
Definition newEntryAt {V} (now : Z) (v : option V) (ttl : Z) : entry V :=
  match v with
  | None => mkEntry now ttl [] None x01
  | Some _ => mkEntry now ttl [] v x00
  end.

Definition deserializeEntry {V} (bytes : list byte) : option (entry V) :=
  if (length bytes <? 17)%nat then None
  else Some (mkEntry
               (Bin.to_int64 (Bin.Uint64 (take bytesCreateAtSize bytes)))
               (Bin.to_int64
                  (Bin.Uint64 (take bytesTTLSize (drop bytesCreateAtSize bytes))))
               (drop bytesHeaderSize bytes)
               None
               (nth (bytesCreateAtSize + bytesTTLSize) bytes x00)).

(** ** The world: stores, clock, random source, loaders, log *)

(** A call on a [Cacher].  The history of the calls made to a store is the
    store's state as far as the cache can see it. *)
Inductive call : Type :=
  | CGet (key : string)
  | CMGet (keys : list string)
  | CSet (key : string) (val : list byte) (ttl : Z)
  | CMSet (kvs : gmap string (list byte)) (ttl : Z)
  | CDelete (key : string)
  | CMDelete (keys : list string).

(** The [Cacher] interface.  A store answers a call from the calls it has
    seen before; a nil byte slice is [None]. *)
Record Cacher : Type := mkCacher {
  cGet : list call -> string -> result (option (list byte));
  cMGet : list call -> list string -> result (gmap string (option (list byte)));
  cSet : list call -> string -> list byte -> Z -> option error;
  cMSet : list call -> gmap string (list byte) -> Z -> option error;
  cDelete : list call -> string -> option error;
  cMDelete : list call -> list string -> option error
}.

Inductive layer : Type := L1 | L2.

(** Lines written through [Logger.Warnf]. *)
Inductive logline : Type :=
  | WarnGet (e : error)    (* "cachex: cacher get error: %v" *)
  | WarnMGet (e : error).  (* "cachex: cacher mget error: %v" *)

(** What the program reads from outside: the n-th reading of the wall clock,
    the n-th draw of [rand.Int63n], and [time.Duration(float64(d) * 1.3)],
    which is floating point and stays abstract. *)
Record Env : Type := mkEnv {
  clock : nat -> Z;
  rand63 : nat -> Z;
  scale1_3 : Z -> Z
}.

Record World : Type := mkWorld {
  env : Env;
  ticks : nat;              (* clock readings so far *)
  draws : nat;              (* random draws so far *)
  calls1 : list call;       (* calls received by the L1 store *)
  calls2 : list call;       (* calls received by the L2 store *)
  loads : nat;              (* invocations of the source loaders so far *)
  logs : list logline
}.

Definition M (A : Type) : Type := World -> World * outcome A.

Definition ret {A} (a : A) : M A := fun w => (w, Ret a).

Definition panic {A} (p : string) : M A := fun w => (w, Panic p).

Definition bind {A B} (m : M A) (k : A -> M B) : M B :=
  fun w => match m w with
           | (w', Ret a) => k a w'
           | (w', Panic p) => (w', Panic p)
           end.

Notation "'let*' x ':=' m 'in' k" := (bind m (fun x => k))
  (at level 10, x pattern, m at level 100, k at level 200).

(** [defer func() { recover() }()] around a call. *)
Definition recover {A} (m : M A) : M (outcome A) :=
  fun w => let (w', o) := m w in (w', Ret o).

Definition hist (lv : layer) (w : World) : list call :=
  match lv with L1 => calls1 w | L2 => calls2 w end.

Definition record_call (lv : layer) (c : call) (w : World) : World :=
  match lv with
  | L1 => mkWorld (env w) (ticks w) (draws w) (calls1 w ++ [c]) (calls2 w) (loads w) (logs w)
  | L2 => mkWorld (env w) (ticks w) (draws w) (calls1 w) (calls2 w ++ [c]) (loads w) (logs w)
  end.

(** A call on the store of a layer: answered from the history, then recorded. *)
Definition on_store {A} (lv : layer) (c : call) (answer : list call -> A) : M A :=
  fun w => (record_call lv c w, Ret (answer (hist lv w))).

(** [time.Now().UnixMilli()]. *)
Definition UnixMilli : M Z :=
  fun w => (mkWorld (env w) (S (ticks w)) (draws w) (calls1 w) (calls2 w) (loads w) (logs w),
            Ret (Bin.to_int64 (clock (env w) (ticks w)))).

(** [rand.Int63n(n)], for n > 0. *)
Definition Int63n (n : Z) : M Z :=
  fun w => (mkWorld (env w) (ticks w) (S (draws w)) (calls1 w) (calls2 w) (loads w) (logs w),
            Ret (rand63 (env w) (draws w) mod n)).

Definition Warnf (l : logline) : M unit :=
  fun w => (mkWorld (env w) (ticks w) (draws w) (calls1 w) (calls2 w) (loads w) (logs w ++ [l]),
            Ret tt).

(** A call of a source loader: answered from the number of earlier calls. *)
Definition on_source {A} (answer : nat -> outcome A) : M A :=
  fun w => (mkWorld (env w) (ticks w) (draws w) (calls1 w) (calls2 w) (S (loads w)) (logs w),
            answer (loads w)).

(** [entry.IsExpired]: the clock is read only when the ttl is positive. *)
Definition IsExpired {V} (e : entry V) : M bool :=
  if ttl e <=? 0 then ret false
  else let* now := UnixMilli in ret (expiredAt now e).

Definition newEntry {V} (v : option V) (ttl : Z) : M (entry V) :=
  let* now := UnixMilli in ret (newEntryAt now v ttl).

(** [e != nil && !e.IsExpired()], with Go's short-circuit. *)
Definition fresh {V} (e : option (entry V)) : M bool :=
  match e with
  | None => ret false
  | Some e => let* x := IsExpired e in ret (negb x)
  end.

(** Indexing a [map[string]*entry]: a missing key reads as nil. *)
Definition at_key {A} (m : gmap string (option A)) (k : string) : option A :=
  default None (m !! k).

(** ** The two-tier wrapper *)

Module Wrapper.

(** The [logger] field is left out: what it writes goes to the world's log. *)
Record wrapper (V : Type) : Type := mkWrapper {
  l1 : option Cacher;
  l2 : option Cacher;
  cacheNil : bool;
  delTTL : Z;
  codec : Codec V
}.
Arguments mkWrapper {V} _ _ _ _ _.
Arguments l1 {V} _.
Arguments l2 {V} _.
Arguments cacheNil {V} _.
Arguments delTTL {V} _.
Arguments codec {V} _.

(** [newWrapper] sets four of the five fields; [cacheNil] keeps its zero value. *)
Definition newWrapper {V} (l1 l2 : option Cacher) (delTTL : Z) (codec : Codec V)
  : wrapper V :=
  mkWrapper l1 l2 false delTTL codec.

Definition cacher {V} (w : wrapper V) (lv : layer) : option Cacher :=
  match lv with L1 => l1 w | L2 => l2 w end.

Definition latest {V} (e1 e2 : option (entry V)) : option (entry V) :=
  match e1, e2 with
  | None, None => None
  | Some a, Some b => if CreateAt a >? CreateAt b then e1 else e2
  | Some _, None => e1
  | None, _ => e2
  end.

(** [time.Duration(float64(d) * 1.3)]. *)
Definition times1_3 (d : Z) : M Z :=
  fun w => (w, Ret (Bin.to_int64 (scale1_3 (env w) d))).

Definition getDelTTL {V} (w : wrapper V) (level : Z) : M Z :=
  if negb (level =? 1) && negb (level =? 2) then panic "cachex: invalid level"
  else
    let* n := Int63n 1000 in
    let r := Bin.to_int64 (n * 1000000) in
    if level =? 1 then ret (Bin.add64 (delTTL w) r)
    else let* d := times1_3 (delTTL w) in ret (Bin.add64 d r).

Definition get {V} (w : wrapper V) (lv : layer) (key : string)
  : M (option (entry V)) :=
  match cacher w lv with
  | None => ret None
  | Some c =>
      let* r := on_store lv (CGet key) (fun h => cGet c h key) in
      match r with
      | Err err => let* _ := Warnf (WarnGet err) in ret None
      | Ok None => ret None
      | Ok (Some val) => ret (deserializeEntry val)
      end
  end.

(** [set] returns the error and, as [Serialize] writes into the envelope it
    is given, the envelope after the call. *)
Definition set {V} (w : wrapper V) (lv : layer) (key : string)
    (val : option (entry V)) (ttl : Z) : M (option (entry V) * option error) :=
  match cacher w lv, val with
  | Some c, Some e =>
      match Serialize (codec w) e with
      | (e', Err err) => ret (Some e', Some err)
      | (e', Ok bytes) =>
          let* err := on_store lv (CSet key bytes ttl) (fun h => cSet c h key bytes ttl) in
          ret (Some e', err)
      end
  | _, _ => ret (val, None)
  end.

Definition Get {V} (w : wrapper V) (key : string) : M (option (entry V)) :=
  let* fromL1 := get w L1 key in
  let* ok1 := fresh fromL1 in
  if ok1 then ret fromL1
  else
    let* fromL2 := get w L2 key in
    let* ok2 := fresh fromL2 in
    if ok2 then
      let* t := getDelTTL w 1 in
      let* _ := set w L1 key fromL2 t in
      ret fromL2
    else ret (latest fromL1 fromL2).

Definition mGet {V} (w : wrapper V) (lv : layer) (keys : list string)
  : M (gmap string (option (entry V))) :=
  match cacher w lv with
  | None => ret ∅
  | Some c =>
      let* r := on_store lv (CMGet keys) (fun h => cMGet c h keys) in
      match r with
      | Err err => let* _ := Warnf (WarnMGet err) in ret ∅
      | Ok kvs =>
          ret (omap (fun v : option (list byte) =>
                       match v with
                       | None => None
                       | Some b => Some (deserializeEntry b)
                       end) kvs)
      end
  end.

(** The loop of [mSet] over the key-value pairs, in the order the map is
    ranged over; it stops at the first envelope that does not serialize. *)
Fixpoint mSet_range {V} (w : wrapper V) (l : list (string * option (entry V)))
    (kvs : gmap string (option (entry V))) (data : gmap string (list byte))
  : gmap string (option (entry V)) * result (gmap string (list byte)) :=
  match l with
  | [] => (kvs, Ok data)
  | (k, None) :: rest => mSet_range w rest kvs data
  | (k, Some v) :: rest =>
      if IsNil v && negb (cacheNil w) then mSet_range w rest kvs data
      else match Serialize (codec w) v with
           | (v', Err err) => (<[k := Some v']> kvs, Err err)
           | (v', Ok bytes) =>
               mSet_range w rest (<[k := Some v']> kvs) (<[k := bytes]> data)
           end
  end.

Definition mSet {V} (w : wrapper V) (lv : layer)
    (kvs : gmap string (option (entry V))) (ttl : Z)
  : M (gmap string (option (entry V)) * option error) :=
  match cacher w lv with
  | None => ret (kvs, None)
  | Some c =>
      if (size kvs =? 0)%nat then ret (kvs, None)
      else match mSet_range w (map_to_list kvs) kvs ∅ with
           | (kvs', Err err) => ret (kvs', Some err)
           | (kvs', Ok data) =>
               let* err := on_store lv (CMSet data ttl) (fun h => cMSet c h data ttl) in
               ret (kvs', err)
           end
  end.

(** First loop of [MGet]: copy the L1 answers and collect the keys to ask L2. *)
Fixpoint MGet_l1 {V} (keys : list string) (fromL1 hit : gmap string (option (entry V)))
    (miss : list string) : M (gmap string (option (entry V)) * list string) :=
  match keys with
  | [] => ret (hit, miss)
  | key :: rest =>
      let val := at_key fromL1 key in
      let* ok := fresh val in
      MGet_l1 rest fromL1 (<[key := val]> hit) (if ok then miss else miss ++ [key])
  end.

(** Second loop of [MGet]: reconcile with L2 and collect the back-fill. *)
Fixpoint MGet_l2 {V} (keys : list string) (fromL2 hit hitL2 : gmap string (option (entry V)))
  : M (gmap string (option (entry V)) * gmap string (option (entry V))) :=
  match keys with
  | [] => ret (hit, hitL2)
  | key :: rest =>
      let val := at_key fromL2 key in
      let hit' := <[key := latest (at_key hit key) val]> hit in
      let* ok := fresh val in
      MGet_l2 rest fromL2 hit' (if ok then <[key := val]> hitL2 else hitL2)
  end.

(** The envelopes back-filled by [MGet] come from [deserializeEntry], which
    [Serialize] leaves as they are: the map returned by [mSet] is dropped. *)
Definition MGet {V} (w : wrapper V) (keys : list string)
  : M (gmap string (option (entry V))) :=
  let* fromL1 := mGet w L1 keys in
  let* (hit, miss) := MGet_l1 keys fromL1 ∅ [] in
  if (length miss =? 0)%nat then ret hit
  else
    let* fromL2 := mGet w L2 miss in
    let* (hit, hitL2) := MGet_l2 keys fromL2 hit ∅ in
    let* t := getDelTTL w 1 in
    let* _ := mSet w L1 hitL2 t in
    ret hit.

Definition Set_ {V} (w : wrapper V) (key : string) (val : option (entry V))
  : M (option (entry V) * option error) :=
  let* t2 := getDelTTL w 2 in
  let* (val, l2Err) := set w L2 key val t2 in
  let* t1 := getDelTTL w 1 in
  let* (val, l1Err) := set w L1 key val t1 in
  if bool_decide (l1Err ≠ None) || bool_decide (l2Err ≠ None)
  then ret (val, Some (ErrSet l1Err l2Err))
  else ret (val, None).

Definition MSet {V} (w : wrapper V) (kvs : gmap string (option (entry V)))
  : M (gmap string (option (entry V)) * option error) :=
  let* t2 := getDelTTL w 2 in
  let* (kvs, l2Err) := mSet w L2 kvs t2 in
  let* t1 := getDelTTL w 1 in
  let* (kvs, l1Err) := mSet w L1 kvs t1 in
  if bool_decide (l1Err ≠ None) || bool_decide (l2Err ≠ None)
  then ret (kvs, Some (ErrMSet l1Err l2Err))
  else ret (kvs, None).

Definition delete {V} (w : wrapper V) (lv : layer) (key : string) : M (option error) :=
  match cacher w lv with
  | None => ret None
  | Some c => on_store lv (CDelete key) (fun h => cDelete c h key)
  end.

Definition Delete {V} (w : wrapper V) (key : string) : M (option error) :=
  let* l2Err := delete w L2 key in
  let* l1Err := delete w L1 key in
  if bool_decide (l1Err ≠ None) || bool_decide (l2Err ≠ None)
  then ret (Some (ErrDelete l1Err l2Err))
  else ret None.

Definition mDelete {V} (w : wrapper V) (lv : layer) (keys : list string)
  : M (option error) :=
  match cacher w lv with
  | None => ret None
  | Some c =>
      if (length keys =? 0)%nat then ret None
      else on_store lv (CMDelete keys) (fun h => cMDelete c h keys)
  end.

Definition MDelete {V} (w : wrapper V) (keys : list string) : M (option error) :=
  let* l2Err := mDelete w L2 keys in
  let* l1Err := mDelete w L1 keys in
  if bool_decide (l1Err ≠ None) || bool_decide (l2Err ≠ None)
  then ret (Some (ErrMDelete l1Err l2Err))
  else ret None.

End Wrapper.

(** ** The facade *)

(** [gslice.Uniq]: drop repeated elements, keep the first of each. *)
Fixpoint Uniq (seen l : list string) : list string :=
  match l with
  | [] => []
  | x :: rest =>
      if bool_decide (x ∈ seen) then Uniq seen rest
      else x :: Uniq (x :: seen) rest
  end.

Module Cachex.

Definition SourceStrategyCacheFirst : Z := 1.
Definition SourceStrategySourceFirst : Z := 2.
Definition SourceStrategyCacheOnly : Z := 3.
Definition SourceStrategySourceOnly : Z := 4.
Definition SourceStrategyExpiredBackup : Z := 5.

(** The user's loaders.  The first argument is the number of source calls
    made before this one; a loader may panic. *)
Definition LoaderFn (K V : Type) : Type := nat -> K -> outcome (result (option V)).
Definition MultiLoaderFn (K V : Type) : Type :=
  nat -> list K -> outcome (result (list (option V))).

(** The [logger] field and the two single-flight groups are left out: one
    caller at a time runs the function it hands to [group.Do].  [genKeyFn]
    is never nil in a facade: the builder refuses to build without it. *)
Record cachex (K V : Type) : Type := mkCachex {
  namespace : string;
  codec : Codec V;
  expireTTL : Z;
  cache : option (Wrapper.wrapper V);
  genKeyFn : K -> string;
  loaderFn : option (LoaderFn K V);
  mLoaderFn : option (MultiLoaderFn K V);
  cacheNil : bool;
  ss : Z
}.
Arguments mkCachex {K V} _ _ _ _ _ _ _ _ _.
Arguments namespace {K V} _.
Arguments codec {K V} _.
Arguments expireTTL {K V} _.
Arguments cache {K V} _.
Arguments genKeyFn {K V} _.
Arguments loaderFn {K V} _.
Arguments mLoaderFn {K V} _.
Arguments cacheNil {K V} _.
Arguments ss {K V} _.

Section Facade.
Context {K V : Type}.
Implicit Types (c : cachex K V).

Definition lift {A} (o : outcome A) : M A := fun w => (w, o).

(** A method of the wrapper called through the [cache] pointer: the
    wrapper's methods read a field of their receiver before anything else. *)
Definition on_cache {A} c (f : Wrapper.wrapper V -> M A) : M A :=
  match cache c with
  | None => panic nil_deref
  | Some w => f w
  end.

Definition key c (k : K) : string :=
  String.append (namespace c) (String.append ":" (genKeyFn c k)).

Definition keys c (ks : list K) : list string := Uniq [] (map (key c) ks).

Definition clone c : cachex K V :=
  mkCachex (namespace c) (codec c) (expireTTL c)
    None                                    (* cache: not copied *)
    (genKeyFn c) (loaderFn c) (mLoaderFn c) (cacheNil c) (ss c).

Definition WithSourceStrategy c (s : Z) : cachex K V :=
  let cc := clone c in
  mkCachex (namespace cc) (codec cc) (expireTTL cc) (cache cc)
    (genKeyFn cc) (loaderFn cc) (mLoaderFn cc) (cacheNil cc) s.

(** The function [load] hands to [group.Do]. *)
Definition load_single c (f : LoaderFn K V) (k : K) : M (result (option (entry V))) :=
  let* r := on_source (fun n => f n k) in
  match r with
  | Err err => ret (Err (ErrLoaderFn err))
  | Ok v => let* e := newEntry v (expireTTL c) in ret (Ok (Some e))
  end.

(** [mLoad] without a batch loader: one task per key, each with its own
    [recover]; every task runs, and [eg.Wait] gives the first error.  The
    tasks are taken in the order of the keys.  With a point loader set,
    [c.load] is [load_single]. *)
Fixpoint mLoad_tasks c (f : LoaderFn K V) (ks : list K)
    (res : gmap string (option (entry V))) (err : option error)
  : M (gmap string (option (entry V)) * option error) :=
  match ks with
  | [] => ret (res, err)
  | k :: rest =>
      let* o := recover (load_single c f k) in
      match o with
      | Panic p => mLoad_tasks c f rest res (Some (default (ErrLoaderPanic p) err))
      | Ret (Err e) => mLoad_tasks c f rest res (Some (default e err))
      | Ret (Ok v) => mLoad_tasks c f rest (<[key c k := v]> res) err
      end
  end.

(** The loop that wraps the values of the batch loader, in input order. *)
Fixpoint mLoad_wrap c (kvs : list (K * option V)) (res : gmap string (option (entry V)))
  : M (gmap string (option (entry V))) :=
  match kvs with
  | [] => ret res
  | (k, v) :: rest =>
      let* e := newEntry v (expireTTL c) in
      mLoad_wrap c rest (<[key c k := Some e]> res)
  end.

Definition mLoad c (ks : list K) : M (result (gmap string (option (entry V)))) :=
  match loaderFn c, mLoaderFn c with
  | None, None => ret (Err ErrLoaderNotSet)
  | Some f, None =>
      let* (res, err) := mLoad_tasks c f ks ∅ None in
      match err with
      | Some e => ret (Err e)
      | None => ret (Ok res)
      end
  | _, Some g =>
      let* r := on_source (fun n => g n ks) in
      match r with
      | Err err => ret (Err (ErrMLoaderFn err))
      | Ok values =>
          if negb (length ks =? length values)%nat then ret (Err ErrMLoaderLen)
          else let* res := mLoad_wrap c (zip ks values) ∅ in ret (Ok res)
      end
  end.

Definition load c (k : K) : M (result (option (entry V))) :=
  match loaderFn c, mLoaderFn c with
  | None, None => ret (Err ErrLoaderNotSet)
  | None, Some _ =>
      let* r := mLoad c [k] in
      match r with
      | Err err => ret (Err err)
      | Ok vals => ret (Ok (at_key vals (key c k)))
      end
  | Some f, _ => load_single c f k
  end.

Definition set c (cacheKey : string) (val : option (entry V))
  : M (option (entry V) * option error) :=
  match val with
  | None => ret (None, None)
  | Some e =>
      if IsNil e && negb (cacheNil c) then ret (val, None)
      else on_cache c (fun w => Wrapper.Set_ w cacheKey val)
  end.

Definition Set_ c (k : K) (value : option V) : M (option error) :=
  let* e := newEntry value (expireTTL c) in
  let* (_, err) := set c (key c k) (Some e) in
  ret err.

(** The map [mSet] builds and then does not use. *)
Definition mSet_keep c (v : option (entry V)) : bool :=
  match v with
  | Some v => negb (IsNil v && negb (cacheNil c))
  | None => true
  end.

Definition mSet_data c (kvs : gmap string (option (entry V)))
  : gmap string (option (entry V)) :=
  filter (fun kv : string * option (entry V) => mSet_keep c kv.2 = true) kvs.

Definition mSet c (kvs : gmap string (option (entry V)))
  : M (gmap string (option (entry V)) * option error) :=
  let data := mSet_data c kvs in
  on_cache c (fun w => Wrapper.MSet w kvs).

Fixpoint MSet_kvs c (kvs : list (K * option V)) (res : gmap string (option (entry V)))
  : M (gmap string (option (entry V))) :=
  match kvs with
  | [] => ret res
  | (k, v) :: rest =>
      let* e := newEntry v (expireTTL c) in
      MSet_kvs c rest (<[key c k := Some e]> res)
  end.

Definition MSet c (ks : list K) (values : list (option V)) : M (option error) :=
  if negb (length ks =? length values)%nat then ret (Some ErrKeysValuesLen)
  else
    let* kvs := MSet_kvs c (zip ks values) ∅ in
    let* (_, err) := mSet c kvs in
    ret err.

Definition Del c (k : K) : M (option error) :=
  on_cache c (fun w => Wrapper.Delete w (key c k)).

Definition MDel c (ks : list K) : M (option error) :=
  on_cache c (fun w => Wrapper.MDelete w (keys c ks)).

(** *** Get *)

Definition ssCacheFirstGet c (k : K) : M (option V * option error) :=
  let cacheKey := key c k in
  let* fromCache := on_cache c (fun w => Wrapper.Get w cacheKey) in
  let* ok := fresh fromCache in
  if ok then lift (Value fromCache (codec c))
  else
    let* r := load c k in
    match r with
    | Err err => ret (None, Some err)
    | Ok fromSource =>
        let* (fromSource, _) := set c cacheKey fromSource in
        lift (Value fromSource (codec c))
    end.

Definition ssSourceFirstGet c (k : K) : M (option V * option error) :=
  let cacheKey := key c k in
  let* r := load c k in
  match r with
  | Err err =>
      let* fromCache := on_cache c (fun w => Wrapper.Get w cacheKey) in
      let* ok := fresh fromCache in
      if ok then lift (Value fromCache (codec c))
      else ret (None, Some err)
  | Ok fromSource =>
      let* (fromSource, _) := set c cacheKey fromSource in
      lift (Value fromSource (codec c))
  end.

Definition ssCacheOnlyGet c (k : K) : M (option V * option error) :=
  let cacheKey := key c k in
  let* fromCache := on_cache c (fun w => Wrapper.Get w cacheKey) in
  let* ok := fresh fromCache in
  if ok then lift (Value fromCache (codec c))
  else ret (None, None).

Definition ssSourceOnlyGet c (k : K) : M (option V * option error) :=
  let* r := load c k in
  match r with
  | Err err => ret (None, Some err)
  | Ok fromSource => lift (Value fromSource (codec c))
  end.

Definition ssExpiredBackupGet c (k : K) : M (option V * option error) :=
  let cacheKey := key c k in
  let* fromCache := on_cache c (fun w => Wrapper.Get w cacheKey) in
  let* ok := fresh fromCache in
  if ok then lift (Value fromCache (codec c))
  else
    let* r := load c k in
    match r with
    | Err err =>
        match fromCache with
        | Some _ => lift (Value fromCache (codec c))
        | None => ret (None, Some err)
        end
    | Ok fromSource =>
        let* (fromSource, _) := set c cacheKey fromSource in
        lift (Value fromSource (codec c))
    end.

Definition Get c (k : K) : M (option V * option error) :=
  if ss c =? SourceStrategyCacheFirst then ssCacheFirstGet c k
  else if ss c =? SourceStrategySourceFirst then ssSourceFirstGet c k
  else if ss c =? SourceStrategyCacheOnly then ssCacheOnlyGet c k
  else if ss c =? SourceStrategySourceOnly then ssSourceOnlyGet c k
  else if ss c =? SourceStrategyExpiredBackup then ssExpiredBackupGet c k
  else ret (None, Some (ErrInvalidStrategy (ss c))).

(** *** MGet *)

Fixpoint groupBatchRes_range c (ks : list K) (vals hit : gmap string (option (entry V)))
    (expire miss : list K)
  : M (gmap string (option (entry V)) * list K * list K) :=
  match ks with
  | [] => ret (hit, expire, miss)
  | k0 :: rest =>
      let k := key c k0 in
      match at_key vals k with
      | None => groupBatchRes_range c rest vals hit expire (miss ++ [k0])
      | Some v =>
          let* x := IsExpired v in
          if x then groupBatchRes_range c rest vals hit (expire ++ [k0]) miss
          else groupBatchRes_range c rest vals (<[k := Some v]> hit) expire miss
      end
  end.

Definition groupBatchRes c (ks : list K) (vals : gmap string (option (entry V)))
  : M (gmap string (option (entry V)) * list K * list K) :=
  groupBatchRes_range c ks vals ∅ [] [].

Fixpoint packBatchRes c (ks : list K) (kvs : gmap string (option (entry V)))
  : M (list (option V)) :=
  match ks with
  | [] => ret []
  | k0 :: rest =>
      let* x :=
        match at_key kvs (key c k0) with
        | None => ret None
        | Some e =>
            let* (v, err) := lift (Value (Some e) (codec c)) in
            match err with
            | Some _ => ret None
            | None => ret v
            end
        end in
      let* xs := packBatchRes c rest kvs in
      ret (x :: xs)
  end.

(** [gmap.Merge]: the union of the maps, a later map winning on a shared key. *)
Definition Merge (m1 m2 : gmap string (option (entry V))) : gmap string (option (entry V)) :=
  m2 ∪ m1.

Definition ssCacheOnlyMGet c (ks : list K) : M (result (list (option V))) :=
  let cacheKeys := keys c ks in
  let* fromCache := on_cache c (fun w => Wrapper.MGet w cacheKeys) in
  let* (hit, _, _) := groupBatchRes c ks fromCache in
  let* res := packBatchRes c ks hit in
  ret (Ok res).

Definition ssSourceOnlyMGet c (ks : list K) : M (result (list (option V))) :=
  let* r := mLoad c ks in
  match r with
  | Err err => ret (Err err)
  | Ok fromSource => let* res := packBatchRes c ks fromSource in ret (Ok res)
  end.

Definition ssCacheFirstMGet c (ks : list K) : M (result (list (option V))) :=
  let* fromCache := on_cache c (fun w => Wrapper.MGet w (keys c ks)) in
  let* (hit, expire, miss) := groupBatchRes c ks fromCache in
  if (length miss =? 0)%nat && (length expire =? 0)%nat then
    let* res := packBatchRes c ks hit in ret (Ok res)
  else
    let* r := mLoad c (expire ++ miss) in
    match r with
    | Err err => ret (Err err)
    | Ok fromSource =>
        let* (fromSource, _) := mSet c fromSource in
        let* res := packBatchRes c ks (Merge hit fromSource) in
        ret (Ok res)
    end.

Definition ssSourceFirstMGet c (ks : list K) : M (result (list (option V))) :=
  let* r := mLoad c ks in
  match r with
  | Err err =>
      let* fromCache := on_cache c (fun w => Wrapper.MGet w (keys c ks)) in
      let* (hit, _, _) := groupBatchRes c ks fromCache in
      let* res := packBatchRes c ks hit in
      ret (Ok res)
  | Ok fromSource =>
      let* (fromSource, _) := mSet c fromSource in
      let* res := packBatchRes c ks fromSource in
      ret (Ok res)
  end.

Definition ssExpiredBackupMGet c (ks : list K) : M (result (list (option V))) :=
  let* fromCache := on_cache c (fun w => Wrapper.MGet w (keys c ks)) in
  let* (hit, expire, miss) := groupBatchRes c ks fromCache in
  if (length miss =? 0)%nat && (length expire =? 0)%nat then
    let* res := packBatchRes c ks hit in ret (Ok res)
  else
    let* r := mLoad c (expire ++ miss) in
    match r with
    | Err err => let* res := packBatchRes c ks fromCache in ret (Ok res)
    | Ok fromSource =>
        let* (fromSource, _) := mSet c fromSource in
        let* res := packBatchRes c ks (Merge hit fromSource) in
        ret (Ok res)
    end.

Definition MGet c (ks : list K) : M (result (list (option V))) :=
  if ss c =? SourceStrategyCacheFirst then ssCacheFirstMGet c ks
  else if ss c =? SourceStrategySourceFirst then ssSourceOnlyMGet c ks
  else if ss c =? SourceStrategyCacheOnly then ssCacheOnlyMGet c ks
  else if ss c =? SourceStrategySourceOnly then ssSourceOnlyMGet c ks
  else if ss c =? SourceStrategyExpiredBackup then ssExpiredBackupMGet c ks
  else ret (Err (ErrInvalidStrategy (ss c))).

End Facade.
End Cachex.

(** ** The builder *)

Module Builder.

Record builder (K V : Type) : Type := mkBuilder {
  namespace : string;
  codec : Codec V;
  expireTTL : Z;
  delTTL : Z;
  l1 : option Cacher;
  l2 : option Cacher;
  genKeyFn : option (K -> string);
  loaderFn : option (Cachex.LoaderFn K V);
  mLoaderFn : option (Cachex.MultiLoaderFn K V);
  cacheNil : bool;
  ss : Z
}.
Arguments mkBuilder {K V} _ _ _ _ _ _ _ _ _ _ _.
Arguments namespace {K V} _.
Arguments codec {K V} _.
Arguments expireTTL {K V} _.
Arguments delTTL {K V} _.
Arguments l1 {K V} _.
Arguments l2 {K V} _.
Arguments genKeyFn {K V} _.
Arguments loaderFn {K V} _.
Arguments mLoaderFn {K V} _.
Arguments cacheNil {K V} _.
Arguments ss {K V} _.

Section Build.
Context {K V : Type}.
Implicit Types (b : builder K V).

(** [newBuilder]; the default codec (JSON) is handed in. *)
Definition newBuilder (json : Codec V) : builder K V :=
  mkBuilder "default" json 0 0 None None None None None false
    Cachex.SourceStrategyCacheFirst.

Definition copy b : builder K V :=
  mkBuilder (namespace b) (codec b) (expireTTL b) (delTTL b) (l1 b) (l2 b)
    (genKeyFn b) (loaderFn b) (mLoaderFn b) (cacheNil b) (ss b).

Definition WithNamespace b (ns : string) : builder K V :=
  let bb := copy b in
  mkBuilder ns (codec bb) (expireTTL bb) (delTTL bb) (l1 bb) (l2 bb)
    (genKeyFn bb) (loaderFn bb) (mLoaderFn bb) (cacheNil bb) (ss bb).

Definition WithExpireTTL b (t : Z) : builder K V :=
  let bb := copy b in
  mkBuilder (namespace bb) (codec bb) t (delTTL bb) (l1 bb) (l2 bb)
    (genKeyFn bb) (loaderFn bb) (mLoaderFn bb) (cacheNil bb) (ss bb).

Definition WithDelTTL b (t : Z) : builder K V :=
  let bb := copy b in
  mkBuilder (namespace bb) (codec bb) (expireTTL bb) t (l1 bb) (l2 bb)
    (genKeyFn bb) (loaderFn bb) (mLoaderFn bb) (cacheNil bb) (ss bb).

Definition WithL1 b (c : option Cacher) : builder K V :=
  let bb := copy b in
  mkBuilder (namespace bb) (codec bb) (expireTTL bb) (delTTL bb) c (l2 bb)
    (genKeyFn bb) (loaderFn bb) (mLoaderFn bb) (cacheNil bb) (ss bb).

Definition WithL2 b (c : option Cacher) : builder K V :=
  let bb := copy b in
  mkBuilder (namespace bb) (codec bb) (expireTTL bb) (delTTL bb) (l1 bb) c
    (genKeyFn bb) (loaderFn bb) (mLoaderFn bb) (cacheNil bb) (ss bb).

Definition WithGenKeyFn b (fn : option (K -> string)) : builder K V :=
  let bb := copy b in
  mkBuilder (namespace bb) (codec bb) (expireTTL bb) (delTTL bb) (l1 bb) (l2 bb)
    fn (loaderFn bb) (mLoaderFn bb) (cacheNil bb) (ss bb).

Definition WithLoader b (fn : option (Cachex.LoaderFn K V)) : builder K V :=
  let bb := copy b in
  mkBuilder (namespace bb) (codec bb) (expireTTL bb) (delTTL bb) (l1 bb) (l2 bb)
    (genKeyFn bb) fn (mLoaderFn bb) (cacheNil bb) (ss bb).

Definition WithMultiLoader b (fn : option (Cachex.MultiLoaderFn K V)) : builder K V :=
  let bb := copy b in
  mkBuilder (namespace bb) (codec bb) (expireTTL bb) (delTTL bb) (l1 bb) (l2 bb)
    (genKeyFn bb) (loaderFn bb) fn (cacheNil bb) (ss bb).

Definition WithSourceStrategy b (s : Z) : builder K V :=
  let bb := copy b in
  mkBuilder (namespace bb) (codec bb) (expireTTL bb) (delTTL bb) (l1 bb) (l2 bb)
    (genKeyFn bb) (loaderFn bb) (mLoaderFn bb) (cacheNil bb) s.

Definition WithCacheNil b (x : bool) : builder K V :=
  let bb := copy b in
  mkBuilder (namespace bb) (codec bb) (expireTTL bb) (delTTL bb) (l1 bb) (l2 bb)
    (genKeyFn bb) (loaderFn bb) (mLoaderFn bb) x (ss bb).

Definition WithCodec b (cd : Codec V) : builder K V :=
  let bb := copy b in
  mkBuilder (namespace bb) cd (expireTTL bb) (delTTL bb) (l1 bb) (l2 bb)
    (genKeyFn bb) (loaderFn bb) (mLoaderFn bb) (cacheNil bb) (ss bb).

Definition Build b : result (Cachex.cachex K V) :=
  let bb := copy b in
  if bool_decide (namespace bb = "") then Err ErrNamespaceNotSet
  else match genKeyFn bb with
  | None => Err ErrGenKeyFnNotSet
  | Some fn =>
      if bool_decide (l2 bb ≠ None) && bool_decide (l1 bb = None) then Err ErrL1NotSet
      else if bool_decide (loaderFn bb = None) && bool_decide (mLoaderFn bb = None)
              && bool_decide (l1 b = None) && bool_decide (l2 b = None)
      then Err ErrCacherAndLoaderNotSet
      else Ok (Cachex.mkCachex (namespace bb) (codec bb) (expireTTL bb)
                 (Some (Wrapper.newWrapper (l1 bb) (l2 bb) (delTTL bb) (codec bb)))
                 fn (loaderFn bb) (mLoaderFn bb) (cacheNil bb) (ss bb))
  end.

End Build.
End Builder.

(** ** Predicates used in the statements *)

(** What [newEntry], [deserializeEntry] and [Serialize] maintain: the cached
    payload of an envelope that carries a value is empty or is that value
    marshalled; the integer fields are [int64]. *)
Definition entry_ok {V} (c : Codec V) (e : entry V) : Prop :=
  Bin.int64_range (createAt e) /\ Bin.int64_range (ttl e) /\
  (val e = None \/ valBytes e = [] \/ Marshal c (val e) = Ok (valBytes e)).

(** The codec reads back what it wrote for the value [v]. *)
Definition reads_back {V} (c : Codec V) (v : option V) : Prop :=
  forall b, Marshal c v = Ok b -> Unmarshal c b = Ok v.

(** The reading of the clock that the next [time.Now().UnixMilli()] gives. *)
Definition now_of (w : World) : Z := Bin.to_int64 (clock (env w) (ticks w)).

(** [r] is nil or an expired envelope: what makes [fresh] answer false,
    with the world after the check. *)
Definition stale {V} (r : option (entry V)) (s s' : World) : Prop :=
  (r = None /\ s' = s) \/ (exists e, r = Some e /\ IsExpired e s = (s', Ret true)).

(** The frame of an envelope that carries its payload already. *)
Definition frame_of {V} (e : entry V) : list byte :=
  Bin.PutUint64 (Bin.to_uint64 (createAt e)) ++ Bin.PutUint64 (Bin.to_uint64 (ttl e))
    ++ [isNil e] ++ valBytes e.

(** A facade with another strategy and everything else as it is. *)
Definition with_ss {K V} (c : Cachex.cachex K V) (s : Z) : Cachex.cachex K V :=
  Cachex.mkCachex (Cachex.namespace c) (Cachex.codec c) (Cachex.expireTTL c)
    (Cachex.cache c) (Cachex.genKeyFn c) (Cachex.loaderFn c) (Cachex.mLoaderFn c)
    (Cachex.cacheNil c) s.

(** A computation that leaves one view [f] of the world as it was. *)
Definition keeps {X A} (f : World -> X) (m : M A) : Prop :=
  forall s s' o, m s = (s', o) -> f s' = f s.

(** The envelopes the package makes: by [newEntry] (from an [int64] clock
    reading and an [int64] duration), by [deserializeEntry], and what
    [Serialize] with the codec [c] leaves behind. *)
Inductive built {V} (c : Codec V) : entry V -> Prop :=
  | built_new (now : Z) (v : option V) (t : Z) :
      Bin.int64_range now -> Bin.int64_range t -> built c (newEntryAt now v t)
  | built_read (bytes : list byte) (d : entry V) :
      deserializeEntry bytes = Some d -> built c d
  | built_serialized (e e' : entry V) (frame : list byte) :
      built c e -> Serialize c e = (e', Ok frame) -> built c e'.

(** ** Concrete instances *)

(** A codec for a pair that writes only its first component, as
    [encoding/json] does for a struct with an unexported second field. *)
Definition firstFieldOnly : Codec (Z * Z) :=
  mkCodec
    (fun v => match v with
              | None => Err (UserErr "value is nil")
              | Some (x, _) => Ok (Bin.PutUint64 (Bin.to_uint64 x))
              end)
    (fun data =>
       if (length data =? 8)%nat then Ok (Some (Bin.to_int64 (Bin.Uint64 data), 0))
       else Err (UserErr "unexpected end of input")).

(** An envelope made at 1 700 000 000 000 ms with a five-second ttl. *)
Definition hello : list byte := [x68; x65; x6c; x6c; x6f].

Definition helloEntry : entry (list byte) :=
  newEntryAt 1700000000000 (Some hello) 5000000000.

Definition helloFrame : list byte :=
  [x00; x68; xe5; xcf; x8b; x01; x00; x00;
   x00; xf2; x05; x2a; x01; x00; x00; x00;
   x00;
   x68; x65; x6c; x6c; x6f].

(** A pair whose second component the codec above drops. *)
Definition pairEntry : entry (Z * Z) := newEntryAt 1700000000000 (Some (7, 9)) 0.

(** An in-memory store: it answers a read from the writes and deletes it
    has received, never fails and never evicts. *)
Fixpoint replay (h : list call) (m : gmap string (list byte)) : gmap string (list byte) :=
  match h with
  | [] => m
  | CSet k v _ :: rest => replay rest (<[k := v]> m)
  | CMSet kvs _ :: rest => replay rest (kvs ∪ m)
  | CDelete k :: rest => replay rest (delete k m)
  | CMDelete ks :: rest => replay rest (foldr delete m ks)
  | _ :: rest => replay rest m
  end.

Definition memStore : Cacher :=
  mkCacher
    (fun h k => Ok (replay h ∅ !! k))
    (fun h ks => Ok (list_to_map (map (fun k => (k, replay h ∅ !! k)) ks)))
    (fun _ _ _ _ => None)
    (fun _ _ _ => None)
    (fun _ _ => None)
    (fun _ _ => None).

(** A clock that stands at 1 700 000 001 000 ms, a random source that
    always draws 123, and 1.3 d computed on integers. *)
Definition env0 : Env :=
  mkEnv (fun _ => 1700000001000) (fun _ => 123) (fun d => d * 13 / 10).

(** Both stores empty. *)
Definition world0 : World := mkWorld env0 0 0 [] [] 0 [].

(** L2 holds the hello envelope under "k"; L1 is empty. *)
Definition worldL2 : World :=
  mkWorld env0 0 0 [] [CSet "k" helloFrame 78000000000] 0 [].

Definition wrapper0 : Wrapper.wrapper (list byte) :=
  Wrapper.newWrapper (Some memStore) (Some memStore) 60000000000 bytesDirect.

(** The hello envelope as it comes back from a store. *)
Definition helloStored : entry (list byte) :=
  mkEntry 1700000000000 5000000000 hello None x00.

(** A source that is down, and one that answers "hello". *)
Definition sourceDown : Cachex.LoaderFn string (list byte) :=
  fun _ _ => Ret (Err (UserErr "source down")).

Definition sourceHello : Cachex.LoaderFn string (list byte) :=
  fun _ _ => Ret (Ok (Some hello)).

(** A builder with an in-memory L1, the raw-bytes codec, the identity as
    key function and a five-second logical ttl. *)
Definition builder0 : Builder.builder string (list byte) :=
  Builder.WithDelTTL
    (Builder.WithExpireTTL
       (Builder.WithL1
          (Builder.WithGenKeyFn (Builder.newBuilder bytesDirect) (Some (fun k => k)))
          (Some memStore))
       5000000000)
    60000000000.

(** L1 holds the hello envelope under "default:k"; the clock stands ten
    seconds after its creation, so the envelope is expired. *)
Definition env10 : Env :=
  mkEnv (fun _ => 1700000010000) (fun _ => 123) (fun d => d * 13 / 10).

Definition worldStale : World :=
  mkWorld env10 0 0 [CSet "default:k" helloFrame 60000000000] [] 0 [].

(** The facade that [builder0] builds, once a loader, a strategy and the
    negative-caching switch are chosen. *)
Definition builderOf (loader : option (Cachex.LoaderFn string (list byte)))
    (strategy : Z) (cn : bool) : Builder.builder string (list byte) :=
  Builder.WithCacheNil
    (Builder.WithSourceStrategy (Builder.WithLoader builder0 loader) strategy) cn.

Definition wrapperL1 : Wrapper.wrapper (list byte) :=
  Wrapper.newWrapper (Some memStore) None 60000000000 bytesDirect.

Definition facadeOf (loader : option (Cachex.LoaderFn string (list byte)))
    (strategy : Z) (cn : bool) : Cachex.cachex string (list byte) :=
  Cachex.mkCachex "default" bytesDirect 5000000000 (Some wrapperL1)
    (fun k => k) loader None cn strategy.

(** L1 holds, under "default:k", a frame whose payload is a single byte;
    the envelope never expires (ttl 0). *)
Definition oneByteFrame : list byte :=
  [x00; x68; xe5; xcf; x8b; x01; x00; x00;
   x00; x00; x00; x00; x00; x00; x00; x00;
   x00;
   x2a].

Definition worldCorrupt : World :=
  mkWorld env0 0 0 [CSet "default:k" oneByteFrame 60000000000] [] 0 [].

(** A builder for pairs under the codec that wants eight bytes of payload. *)
Definition builderPairs : Builder.builder string (Z * Z) :=
  Builder.WithL1
    (Builder.WithGenKeyFn (Builder.newBuilder firstFieldOnly) (Some (fun k => k)))
    (Some memStore).

Definition facadePairs : Cachex.cachex string (Z * Z) :=
  Cachex.mkCachex "default" firstFieldOnly 0
    (Some (Wrapper.newWrapper (Some memStore) None 0 firstFieldOnly))
    (fun k => k) None None false Cachex.SourceStrategyCacheFirst.

(** L1 holds the hello envelope under "default:k", not yet expired. *)
Definition worldL1fresh : World :=
  mkWorld env0 0 0 [CSet "default:k" helloFrame 60000000000] [] 0 [].

(** ** More of the package *)

(** [rawString]: the raw-string codec, V = string.  A Go string is a
    sequence of bytes; [[]byte(s)] and [string(b)] are the two conversions. *)
Definition rawString : Codec string :=
  mkCodec
    (fun v => match v with
              | None => Err (UserErr "value is nil")
              | Some s => Ok (String.list_byte_of_string s)
              end)
    (fun data => Ok (Some (String.string_of_list_byte data))).

(** A codec that refuses everything. *)
Definition brokenCodec : Codec (list byte) :=
  mkCodec (fun _ => Err (UserErr "marshal refused"))
          (fun _ => Err (UserErr "unmarshal refused")).

(** A string value and its envelope under the raw-string codec. *)
Definition greeting : string := "hello".

Definition greetingEntry : entry string :=
  newEntryAt 1700000000000 (Some greeting) 5000000000.

(** A computation that always returns (it never panics), with a relation
    between the world before, the result and the world after. *)
Definition runs {A} (m : M A) (Q : World -> A -> World -> Prop) : Prop :=
  forall s, exists s' a, m s = (s', Ret a) /\ Q s a s'.

(** The error a two-layer operation reports: none when both layers
    succeeded, else both layers' errors under the wrapping [mk]. *)
Definition both_errors (mk : option error -> option error -> error)
    (l1Err l2Err : option error) : option error :=
  match l1Err, l2Err with
  | None, None => None
  | _, _ => Some (mk l1Err l2Err)
  end.

(** A store that refuses every write and delete, and fails every read. *)
Definition failingStore : Cacher :=
  mkCacher
    (fun _ _ => Err (UserErr "store down"))
    (fun _ _ => Err (UserErr "store down"))
    (fun _ _ _ _ => Some (UserErr "store down"))
    (fun _ _ _ => Some (UserErr "store down"))
    (fun _ _ => Some (UserErr "store down"))
    (fun _ _ => Some (UserErr "store down")).

(** A wrapper over a failing L2 and an in-memory L1, and one whose codec
    refuses everything. *)
Definition wrapperL2down : Wrapper.wrapper (list byte) :=
  Wrapper.newWrapper (Some memStore) (Some failingStore) 60000000000 bytesDirect.

Definition wrapperBroken : Wrapper.wrapper (list byte) :=
  Wrapper.newWrapper (Some memStore) (Some memStore) 60000000000 brokenCodec.

(** The world after one draw from the random source. *)
Definition drawn (s : World) : World :=
  mkWorld (env s) (ticks s) (S (draws s)) (calls1 s) (calls2 s) (loads s) (logs s).

(** The jitter of the next draw, in nanoseconds, and the two delete-TTLs
    made from it. *)
Definition jitter (s : World) : Z := rand63 (env s) (draws s) mod 1000 * 1000000.

Definition ttl_L1 {V} (w : Wrapper.wrapper V) (s : World) : Z :=
  Bin.add64 (Wrapper.delTTL w) (jitter s).

Definition ttl_L2 {V} (w : Wrapper.wrapper V) (s : World) : Z :=
  Bin.add64 (Bin.to_int64 (scale1_3 (env s) (Wrapper.delTTL w))) (jitter s).

(** What a layer's [set] reports when serializing failed with [err]. *)
Definition layer_error (c : option Cacher) (err : error) : option error :=
  match c with
  | Some _ => Some err
  | None => None
  end.

(** A batch of two envelopes, one a value and one a nil marker. *)
Definition mixedBatch : gmap string (option (entry (list byte))) :=
  <["a" := Some helloEntry]>
    (<["b" := Some (newEntryAt 1700000000000 None 5000000000)]> ∅).

(** The envelope a batch answer of a store holds for a key: nil when the
    store failed, has no value for the key, or holds less than a frame. *)
Definition stored_envelope {V} (r : result (gmap string (option (list byte))))
    (k : string) : option (entry V) :=
  match r with
  | Ok kvs =>
      match kvs !! k with
      | Some (Some b) => deserializeEntry b
      | _ => None
      end
  | Err _ => None
  end.

(** L1 holds the hello envelope under "k" and three bytes under "x". *)
Definition worldL1mixed : World :=
  mkWorld env0 0 0
    [CSet "k" helloFrame 60000000000; CSet "x" [x01; x02; x03] 60000000000] [] 0 [].




(** The envelope [e] stored under the cache key [x] was made by [newEntry]
    from the value the batch loader returned at the position of one of the
    keys. *)
Definition batch_loaded {K V} (c : Cachex.cachex K V) (ks : list K)
    (values : list (option V)) (e : entry V) (x : string) : Prop :=
  exists i k v now,
    ks !! i = Some k /\ values !! i = Some v /\ x = Cachex.key c k /\
    e = newEntryAt now v (Cachex.expireTTL c).

(** A batch loader that answers "hello" for every key, and a facade with
    this loader only. *)
Definition batchHello : Cachex.MultiLoaderFn string (list byte) :=
  fun _ ks => Ret (Ok (map (fun _ => Some hello) ks)).

Definition facadeBatch (strategy : Z) : Cachex.cachex string (list byte) :=
  Cachex.mkCachex "default" bytesDirect 5000000000 (Some wrapperL1)
    (fun k => k) None (Some batchHello) false strategy.

(** The value [v] is what the loaders of the facade gave for the key [k] at
    the source call number [n]: the point loader when there is one, else
    the batch loader asked for the one key. *)
Definition source_gave {K V} (c : Cachex.cachex K V) (n : nat) (k : K)
    (v : option V) : Prop :=
  match Cachex.loaderFn c, Cachex.mLoaderFn c with
  | Some f, _ => f n k = Ret (Ok v)
  | None, Some g => g n [k] = Ret (Ok [v])
  | None, None => False
  end.


(** A store that accepts every write and answers a read of the key written
    last with what was written. *)
Definition keeps_writes (c1 : Cacher) : Prop :=
  forall h k b t,
    cSet c1 h k b t = None /\ cGet c1 (h ++ [CSet k b t]) k = Ok (Some b).

(* ================================================================== *)
(** * Properties *)

(** ** Bytes and 64-bit integers *)

Module BinFacts.
Import Bin.

Lemma Z_of_byte_range (b : byte) : 0 <= Z_of_byte b < 256.
Proof.
  unfold Z_of_byte. pose proof (Byte.to_N_bounded b). lia.
Qed.

Lemma Z_of_byte_of_Z (z : Z) : Z_of_byte (byte_of_Z z) = z mod 256.
Proof.
  unfold Z_of_byte, byte_of_Z.
  assert (Hr : 0 <= z mod 256 < 256) by (apply Z.mod_pos_bound; lia).
  destruct (Byte.of_N (Z.to_N (z mod 256))) as [b|] eqn:E.
  - apply Byte.to_of_N in E. simpl. rewrite E. lia.
  - apply Byte.of_N_None_iff in E. lia.
Qed.

Lemma byte_of_Z_of_byte (b : byte) : byte_of_Z (Z_of_byte b) = b.
Proof.
  unfold byte_of_Z. pose proof (Z_of_byte_range b) as Hr.
  rewrite Z.mod_small by lia. unfold Z_of_byte.
  rewrite N2Z.id, Byte.of_to_N. reflexivity.
Qed.

Lemma to_int64_range (u : Z) : int64_range (to_int64 u).
Proof.
  unfold int64_range, to_int64.
  assert (0 <= u mod 2 ^ 64 < 2 ^ 64) by (apply Z.mod_pos_bound; lia).
  destruct (u mod 2 ^ 64 <? 2 ^ 63) eqn:E; [apply Z.ltb_lt in E | apply Z.ltb_ge in E]; lia.
Qed.

Lemma to_int64_small (x : Z) : int64_range x -> to_int64 x = x.
Proof.
  unfold int64_range, to_int64. intros Hx.
  destruct (Z_lt_dec x 0) as [Hneg|Hpos].
  - assert (E : x mod 2 ^ 64 = x + 2 ^ 64).
    { symmetry. apply Z.mod_unique with (q := -1); lia. }
    rewrite E. destruct (x + 2 ^ 64 <? 2 ^ 63) eqn:L;
      [apply Z.ltb_lt in L | apply Z.ltb_ge in L]; lia.
  - rewrite Z.mod_small by lia.
    destruct (x <? 2 ^ 63) eqn:L; [apply Z.ltb_lt in L | apply Z.ltb_ge in L]; lia.
Qed.

Lemma to_int64_to_uint64 (x : Z) : int64_range x -> to_int64 (to_uint64 x) = x.
Proof.
  intros Hx. unfold to_uint64.
  rewrite <- (to_int64_small x Hx) at 2.
  unfold to_int64. rewrite Z.mod_mod by lia. reflexivity.
Qed.

Lemma add64_exact (a b : Z) : int64_range (a + b) -> add64 a b = a + b.
Proof. apply to_int64_small. Qed.

Lemma at_PutUint64 (v : Z) (i : nat) :
  (i < 8)%nat -> at_ (PutUint64 v) i = Z.shiftr v (8 * Z.of_nat i) mod 256.
Proof.
  intros Hi. unfold at_.
  do 8 (destruct i as [|i]; [simpl nth; rewrite Z_of_byte_of_Z; reflexivity|]).
  lia.
Qed.

(** Settle every comparison of the goal that [lia] can decide. *)
Ltac decide_cmp :=
  repeat match goal with
         | |- context [?a <=? ?b] =>
             first [ rewrite (proj2 (Z.leb_le a b)) by lia
                   | rewrite (proj2 (Z.leb_gt a b)) by lia ]
         | |- context [?a <? ?b] =>
             first [ rewrite (proj2 (Z.ltb_lt a b)) by lia
                   | rewrite (proj2 (Z.ltb_ge a b)) by lia ]
         end.

(** One little-endian digit, put back in its place, is the original
    masked to its eight bits. *)
Lemma digit_bits (v k n : Z) :
  0 <= k -> 0 <= n ->
  Z.testbit (Z.shiftl (Z.shiftr v k mod 2 ^ 8) k) n
  = (k <=? n) && (n <? k + 8) && Z.testbit v n.
Proof.
  intros Hk Hn. rewrite Z.shiftl_spec by lia.
  destruct (k <=? n) eqn:E1; [apply Z.leb_le in E1 | apply Z.leb_gt in E1].
  - rewrite Z.testbit_mod_pow2 by lia. rewrite Z.shiftr_spec by lia.
    replace (n - k + k) with n by lia.
    destruct (n - k <? 8) eqn:E2, (n <? k + 8) eqn:E3; try reflexivity;
      [apply Z.ltb_lt in E2; apply Z.ltb_ge in E3 | apply Z.ltb_ge in E2; apply Z.ltb_lt in E3]; lia.
  - rewrite Z.testbit_neg_r by lia. reflexivity.
Qed.

Lemma Uint64_PutUint64 (v : Z) : Uint64 (PutUint64 v) = v mod 2 ^ 64.
Proof.
  unfold Uint64.
  rewrite !at_PutUint64 by lia.
  change 256 with (2 ^ 8).
  change (8 * Z.of_nat 0) with 0. change (8 * Z.of_nat 1) with 8.
  change (8 * Z.of_nat 2) with 16. change (8 * Z.of_nat 3) with 24.
  change (8 * Z.of_nat 4) with 32. change (8 * Z.of_nat 5) with 40.
  change (8 * Z.of_nat 6) with 48. change (8 * Z.of_nat 7) with 56.
  rewrite <- (Z.shiftl_0_r (Z.shiftr v 0 mod 2 ^ 8)).
  apply Z.bits_inj'. intros n Hn.
  rewrite !Z.lor_spec, !digit_bits by lia.
  rewrite Z.testbit_mod_pow2 by lia.
  destruct (Z.testbit v n); rewrite ?andb_false_r; [|reflexivity].
  rewrite !andb_true_r.
  assert (Hcase : n < 8 \/ 8 <= n < 16 \/ 16 <= n < 24 \/ 24 <= n < 32 \/
                  32 <= n < 40 \/ 40 <= n < 48 \/ 48 <= n < 56 \/
                  56 <= n < 64 \/ 64 <= n) by lia.
  repeat (destruct Hcase as [Hcase|Hcase]); decide_cmp; reflexivity.
Qed.

Lemma length_PutUint64 (v : Z) : length (PutUint64 v) = 8%nat.
Proof. reflexivity. Qed.

End BinFacts.

(** ** The envelope *)

Section EntryFacts.
Context {V : Type}.
Implicit Types (c : Codec V) (e : entry V).
Import Bin BinFacts.

Lemma Serialize_fields c e e' frame :
  Serialize c e = (e', Ok frame) ->
  createAt e' = createAt e /\ ttl e' = ttl e /\ isNil e' = isNil e /\ val e' = val e /\
  frame = PutUint64 (to_uint64 (createAt e)) ++ PutUint64 (to_uint64 (ttl e))
            ++ [isNil e] ++ valBytes e'.
Proof.
  unfold Serialize.
  destruct ((length (valBytes e) =? 0)%nat && bool_decide (val e ≠ None)).
  - destruct (Marshal c (val e)) as [bytes|err]; intros H; inversion H; subst.
    simpl. repeat split; reflexivity.
  - intros H; inversion H; subst. repeat split; reflexivity.
Qed.

(** The payload that goes into the frame: marshalled now, or cached before. *)
Lemma Serialize_payload c e e' frame :
  Serialize c e = (e', Ok frame) ->
  match valBytes e, val e with
  | [], Some v => Marshal c (Some v) = Ok (valBytes e')
  | _, _ => valBytes e' = valBytes e
  end.
Proof.
  unfold Serialize.
  destruct (valBytes e) as [|b0 bs] eqn:Eb; destruct (val e) as [v|] eqn:Ev; simpl.
  - destruct (Marshal c (Some v)) as [bytes|err]; intros H; inversion H; subst.
    reflexivity.
  - intros H; inversion H; subst. assumption.
  - intros H; inversion H; subst. assumption.
  - intros H; inversion H; subst. assumption.
Qed.

Lemma Serialize_val_None c e :
  val e = None ->
  Serialize c e = (e, Ok (PutUint64 (to_uint64 (createAt e))
                          ++ PutUint64 (to_uint64 (ttl e)) ++ [isNil e] ++ valBytes e)).
Proof.
  intros Hv. unfold Serialize. rewrite Hv.
  rewrite bool_decide_eq_false_2 by (intros H; apply H; reflexivity).
  rewrite andb_false_r. reflexivity.
Qed.

Lemma deserializeEntry_frame (a b : Z) (n : byte) (payload : list byte) :
  @deserializeEntry V (PutUint64 a ++ PutUint64 b ++ [n] ++ payload)
  = Some (mkEntry (to_int64 (a mod 2 ^ 64)) (to_int64 (b mod 2 ^ 64)) payload None n).
Proof.
  unfold deserializeEntry.
  assert (Hlen : (length (PutUint64 a ++ PutUint64 b ++ [n] ++ payload) <? 17)%nat = false).
  { apply Nat.ltb_ge. rewrite !length_app, !length_PutUint64. simpl. lia. }
  rewrite Hlen. f_equal.
  change (take bytesCreateAtSize (PutUint64 a ++ PutUint64 b ++ [n] ++ payload))
    with (PutUint64 a).
  change (take bytesTTLSize
            (drop bytesCreateAtSize (PutUint64 a ++ PutUint64 b ++ [n] ++ payload)))
    with (PutUint64 b).
  rewrite !Uint64_PutUint64. reflexivity.
Qed.

Lemma deserializeEntry_short (bytes : list byte) :
  (length bytes < 17)%nat -> @deserializeEntry V bytes = None.
Proof.
  intros H. unfold deserializeEntry.
  apply Nat.ltb_lt in H. rewrite H. reflexivity.
Qed.

Lemma deserializeEntry_val (bytes : list byte) (d : entry V) :
  deserializeEntry bytes = Some d -> val d = None.
Proof.
  unfold deserializeEntry. destruct (length bytes <? 17)%nat; [discriminate|].
  intros H; inversion H; reflexivity.
Qed.

(** [Value] never returns an error: it returns a nil error or it panics. *)
Lemma Value_no_error (o : option (entry V)) c v err :
  Value o c = Ret (v, err) -> err = None.
Proof.
  unfold Value. destruct o as [e|]; [|intros H; inversion H; reflexivity].
  destruct (IsNil e); [intros H; inversion H; reflexivity|].
  destruct (val e); [intros H; inversion H; reflexivity|].
  destruct (Unmarshal c (valBytes e)); intros H; inversion H; reflexivity.
Qed.

End EntryFacts.

Section EntryLaws.
Import Bin BinFacts.

Lemma to_int64_mod (u : Z) : to_int64 (u mod 2 ^ 64) = to_int64 u.
Proof. unfold to_int64. rewrite Z.mod_mod by lia. reflexivity. Qed.

(** Every envelope the package makes satisfies [entry_ok]. *)
Lemma built_entry_ok {V} (c : Codec V) (e : entry V) : built c e -> entry_ok c e.
Proof.
  induction 1 as [now v t Hn Ht | bytes d Hd | e e' frame Hb IH HS].
  - unfold entry_ok.
    destruct v; simpl; (split; [exact Hn|]; split; [exact Ht|]; right; left; reflexivity).
  - unfold deserializeEntry in Hd. destruct (length bytes <? 17)%nat; [discriminate|].
    inversion Hd; subst. unfold entry_ok. simpl.
    split; [apply to_int64_range|]. split; [apply to_int64_range|]. left; reflexivity.
  - destruct IH as (Hc & Ht & Hp).
    pose proof (Serialize_payload c e e' frame HS) as Hpay.
    destruct (Serialize_fields c e e' frame HS) as (E1 & E2 & _ & E4 & _).
    unfold entry_ok. rewrite E1, E2, E4. split; [exact Hc|]. split; [exact Ht|].
    destruct (val e) as [v|] eqn:Ev; [|left; reflexivity].
    right; right. destruct (valBytes e) as [|b0 bs] eqn:Eb; [exact Hpay|].
    rewrite Hpay. destruct Hp as [Hp|[Hp|Hp]]; [discriminate | discriminate | exact Hp].
Qed.

(** C4 (as amended): for every envelope [e] the package makes and every
    codec [c] that reads back what it writes for the value of [e], if
    [Serialize] succeeds then [deserializeEntry] of the frame yields an
    envelope with the same createAt, ttl and isNil byte, and with the same
    [Value] under [c]. *)
Theorem envelope_round_trip {V} (c : Codec V) (e e' : entry V) (frame : list byte) :
  built c e ->
  reads_back c (val e) ->
  Serialize c e = (e', Ok frame) ->
  exists d : entry V,
    deserializeEntry frame = Some d /\
    createAt d = createAt e /\ ttl d = ttl e /\ isNil d = isNil e /\
    Value (Some d) c = Value (Some e) c.
Proof.
  intros Hb Hrb HS.
  destruct (built_entry_ok c e Hb) as (Hc & Ht & Hp).
  pose proof (Serialize_payload c e e' frame HS) as Hpay.
  destruct (Serialize_fields c e e' frame HS) as (_ & _ & _ & _ & ->).
  rewrite deserializeEntry_frame. eexists. split; [reflexivity|]. simpl.
  rewrite !to_int64_mod, !to_int64_to_uint64 by assumption.
  repeat split.
  unfold Value, IsNil. simpl.
  destruct (bool_decide (Z_of_byte (isNil e) = 1)); [reflexivity|].
  destruct (val e) as [v|] eqn:Ev.
  - assert (Hm : Marshal c (Some v) = Ok (valBytes e')).
    { destruct (valBytes e) as [|b0 bs] eqn:Eb; [exact Hpay|].
      rewrite Hpay. destruct Hp as [Hp|[Hp|Hp]]; [discriminate | discriminate | exact Hp]. }
    rewrite (Hrb _ Hm). reflexivity.
  - assert (Hb' : valBytes e' = valBytes e) by (destruct (valBytes e); exact Hpay).
    rewrite Hb'. reflexivity.
Qed.

Lemma envelope_round_trip_witness :
  exists d : entry (list byte),
    deserializeEntry helloFrame = Some d /\
    createAt d = 1700000000000 /\ ttl d = 5000000000 /\ isNil d = x00 /\
    Value (Some d) bytesDirect = Value (Some helloEntry) bytesDirect.
Proof.
  apply (envelope_round_trip bytesDirect helloEntry (with_valBytes helloEntry hello) helloFrame).
  - apply built_new; unfold int64_range; lia.
  - intros b Hb. simpl in Hb. inversion Hb. reflexivity.
  - vm_compute. reflexivity.
Defined.

(** C4 (as stated) fails: a codec that drops a field serializes without
    error, and the envelope read back has another [Value]. *)
Lemma envelope_round_trip_needs_codec_law :
  exists (e' d : entry (Z * Z)) (frame : list byte),
    Serialize firstFieldOnly pairEntry = (e', Ok frame) /\
    deserializeEntry frame = Some d /\
    Value (Some pairEntry) firstFieldOnly = Ret (Some (7, 9), None) /\
    Value (Some d) firstFieldOnly = Ret (Some (7, 0), None) /\
    Value (Some d) firstFieldOnly <> Value (Some pairEntry) firstFieldOnly.
Proof.
  eexists _, _, _.
  split; [vm_compute; reflexivity|].
  split; [vm_compute; reflexivity|].
  split; [vm_compute; reflexivity|].
  split; [vm_compute; reflexivity|].
  vm_compute. discriminate.
Qed.

(** C5: the frame of a serialized envelope is createAt in eight
    little-endian bytes, ttl in eight little-endian bytes, the isNil byte,
    then the payload, 17 + len(valBytes) bytes in all; and an input shorter
    than 17 bytes deserializes to the nil envelope. *)
Theorem wire_format {V} :
  (forall (c : Codec V) (e e' : entry V) (frame : list byte),
      Serialize c e = (e', Ok frame) ->
      frame = PutUint64 (to_uint64 (createAt e)) ++ PutUint64 (to_uint64 (ttl e))
                ++ [isNil e] ++ valBytes e' /\
      (forall i, (i < 8)%nat ->
         at_ frame i = (to_uint64 (createAt e) / 2 ^ (8 * Z.of_nat i)) mod 256) /\
      (forall i, (i < 8)%nat ->
         at_ frame (8 + i) = (to_uint64 (ttl e) / 2 ^ (8 * Z.of_nat i)) mod 256) /\
      nth 16 frame x00 = isNil e /\
      drop 17 frame = valBytes e' /\
      length frame = (17 + length (valBytes e'))%nat /\
      match valBytes e, val e with
      | [], Some v => Marshal c (Some v) = Ok (valBytes e')
      | _, _ => valBytes e' = valBytes e
      end) /\
  (forall bytes : list byte,
      (length bytes < 17)%nat -> @deserializeEntry V bytes = None).
Proof.
  split; [|apply deserializeEntry_short].
  intros c e e' frame HS.
  pose proof (Serialize_payload c e e' frame HS) as Hpay.
  destruct (Serialize_fields c e e' frame HS) as (_ & _ & _ & _ & ->).
  split; [reflexivity|].
  split.
  { intros i Hi. unfold at_. rewrite app_nth1 by (rewrite length_PutUint64; lia).
    fold (at_ (PutUint64 (to_uint64 (createAt e))) i).
    rewrite at_PutUint64 by lia. rewrite Z.shiftr_div_pow2 by lia. reflexivity. }
  split.
  { intros i Hi. unfold at_.
    rewrite app_nth2 by (rewrite length_PutUint64; lia).
    rewrite length_PutUint64. replace (8 + i - 8)%nat with i by lia.
    rewrite app_nth1 by (rewrite length_PutUint64; lia).
    fold (at_ (PutUint64 (to_uint64 (ttl e))) i).
    rewrite at_PutUint64 by lia. rewrite Z.shiftr_div_pow2 by lia. reflexivity. }
  split; [reflexivity|].
  split; [reflexivity|].
  split; [|exact Hpay].
  rewrite !length_app, !length_PutUint64. simpl. lia.
Qed.

Lemma wire_format_witness :
  helloFrame = PutUint64 (to_uint64 1700000000000) ++ PutUint64 (to_uint64 5000000000)
                 ++ [x00] ++ hello /\
  length helloFrame = 22%nat /\
  @deserializeEntry (list byte) (take 16 helloFrame) = None.
Proof.
  destruct (@wire_format (list byte)) as [Hframe Hshort].
  destruct (Hframe bytesDirect helloEntry (with_valBytes helloEntry hello) helloFrame)
    as (H1 & _ & _ & _ & _ & H2 & _).
  { vm_compute. reflexivity. }
  split; [exact H1|]. split; [exact H2|].
  apply Hshort. simpl. lia.
Defined.

(** The expiry instant is the plain sum whenever that sum is an [int64]. *)
Lemma expiry_instant_exact {V} (e : entry V) :
  0 < ttl e ->
  int64_range (createAt e + ttl e / 1000000) ->
  add64 (createAt e) (Milliseconds (ttl e)) = createAt e + ttl e / 1000000.
Proof.
  intros Hpos Hr. unfold Milliseconds.
  rewrite Z.quot_div_nonneg by lia. apply add64_exact. exact Hr.
Qed.

(** C6: [IsExpired] returns true exactly when ttl > 0 and createAt plus the
    ttl in milliseconds (an [int64] sum) is strictly before the clock
    reading; an envelope with ttl <= 0 is never expired. *)
Theorem IsExpired_iff {V} (e : entry V) (w : World) :
  exists (b : bool) (w' : World),
    IsExpired e w = (w', Ret b) /\
    (b = true <->
       0 < ttl e /\ add64 (createAt e) (Milliseconds (ttl e)) < now_of w) /\
    (ttl e <= 0 -> b = false).
Proof.
  unfold IsExpired, expiredAt.
  destruct (Z.leb_spec (ttl e) 0) as [Hle|Hgt].
  - exists false, w. split; [reflexivity|]. split; [|reflexivity].
    split; [discriminate | lia].
  - unfold bind, UnixMilli, ret. fold (now_of w).
    destruct (Z.leb_spec (ttl e) 0) as [Hle|_]; [lia|].
    destruct (Z.ltb_spec (add64 (createAt e) (Milliseconds (ttl e))) (now_of w)).
    + eexists true, _. split; [reflexivity|]. split; [|lia]. split; [lia|reflexivity].
    + eexists false, _. split; [reflexivity|]. split; [|reflexivity].
      split; [discriminate | lia].
Qed.

End EntryLaws.

(** ** Running the monad *)

Lemma bind_Ret {A B} (m : M A) (k : A -> M B) (s s' : World) (a : A) :
  m s = (s', Ret a) -> bind m k s = k a s'.
Proof. intros H. unfold bind. rewrite H. reflexivity. Qed.

Lemma bind_Panic {A B} (m : M A) (k : A -> M B) (s s' : World) (p : string) :
  m s = (s', Panic p) -> bind m k s = (s', Panic p).
Proof. intros H. unfold bind. rewrite H. reflexivity. Qed.

Lemma keeps_ret {X A} (f : World -> X) (a : A) : keeps f (ret a).
Proof. intros s s' o H. inversion H. reflexivity. Qed.

Lemma keeps_panic {X A} (f : World -> X) (p : string) : keeps f (@panic A p).
Proof. intros s s' o H. inversion H. reflexivity. Qed.

Lemma keeps_lift {X A} (f : World -> X) (o : outcome A) : keeps f (Cachex.lift o).
Proof. intros s s' o' H. inversion H. reflexivity. Qed.

Lemma keeps_bind {X A B} (f : World -> X) (m : M A) (k : A -> M B) :
  keeps f m -> (forall a, keeps f (k a)) -> keeps f (bind m k).
Proof.
  intros Hm Hk s s' o. unfold bind.
  destruct (m s) as [s1 [a|p]] eqn:E; intros H.
  - rewrite (Hk a _ _ _ H). apply (Hm _ _ _ E).
  - inversion H; subst. apply (Hm _ _ _ E).
Qed.

Lemma keeps_recover {X A} (f : World -> X) (m : M A) : keeps f m -> keeps f (recover m).
Proof.
  intros Hm s s' o. unfold recover. destruct (m s) as [s1 o1] eqn:E.
  intros H; inversion H; subst. apply (Hm _ _ _ E).
Qed.

Lemma keeps_UnixMilli {X} (f : World -> X) :
  (forall e t d c1 c2 l g, f (mkWorld e (S t) d c1 c2 l g) = f (mkWorld e t d c1 c2 l g)) ->
  keeps f UnixMilli.
Proof.
  intros Hf s s' o H. inversion H; subst. destruct s; apply Hf.
Qed.

Lemma keeps_IsExpired {X V} (f : World -> X) (e : entry V) :
  keeps f UnixMilli -> keeps f (IsExpired e).
Proof.
  intros Hu. unfold IsExpired. destruct (ttl e <=? 0); [apply keeps_ret|].
  apply keeps_bind; [exact Hu | intros; apply keeps_ret].
Qed.

Lemma keeps_fresh {X V} (f : World -> X) (r : option (entry V)) :
  keeps f UnixMilli -> keeps f (fresh r).
Proof.
  intros Hu. destruct r as [e|]; simpl; [|apply keeps_ret].
  apply keeps_bind; [apply keeps_IsExpired; exact Hu | intros; apply keeps_ret].
Qed.

Lemma keeps_newEntry {X V} (f : World -> X) (v : option V) (t : Z) :
  keeps f UnixMilli -> keeps f (newEntry v t).
Proof.
  intros Hu. apply keeps_bind; [exact Hu | intros; apply keeps_ret].
Qed.

(** The clock does not touch the stores or the loaders. *)
Lemma clock_keeps_calls1 : keeps calls1 UnixMilli.
Proof. apply keeps_UnixMilli. reflexivity. Qed.
Lemma clock_keeps_calls2 : keeps calls2 UnixMilli.
Proof. apply keeps_UnixMilli. reflexivity. Qed.
Lemma clock_keeps_loads : keeps loads UnixMilli.
Proof. apply keeps_UnixMilli. reflexivity. Qed.

(** What [fresh] computes. *)
Lemma fresh_true {V} (r : option (entry V)) (s s' : World) :
  fresh r s = (s', Ret true) <-> exists e, r = Some e /\ IsExpired e s = (s', Ret false).
Proof.
  destruct r as [e|]; simpl.
  - unfold bind. destruct (IsExpired e s) as [s1 [x|p]] eqn:E; split.
    + intros H. inversion H; subst. destruct x; [discriminate|]. eauto.
    + intros (e0 & He & H). inversion He; subst. rewrite E in H.
      inversion H; subst. reflexivity.
    + discriminate.
    + intros (e0 & He & H). inversion He; subst. rewrite E in H. discriminate.
  - split; [discriminate|]. intros (e & He & _). discriminate.
Qed.

Lemma fresh_false {V} (r : option (entry V)) (s s' : World) :
  fresh r s = (s', Ret false) <-> stale r s s'.
Proof.
  unfold stale. destruct r as [e|]; simpl.
  - unfold bind. destruct (IsExpired e s) as [s1 [x|p]] eqn:E; split.
    + intros H. inversion H; subst. destruct x; [|discriminate]. right. eauto.
    + intros [[He _]|(e0 & He & H)]; [discriminate|].
      inversion He; subst. rewrite E in H. inversion H; subst. reflexivity.
    + discriminate.
    + intros [[He _]|(e0 & He & H)]; [discriminate|].
      inversion He; subst. rewrite E in H. discriminate.
  - unfold ret. split.
    + intros H; inversion H; subst. left; split; reflexivity.
    + intros [[_ ->]|(e & He & _)]; [reflexivity | discriminate].
Qed.

(** ** The wrapper *)

Section WrapperFacts.
Context {V : Type}.
Implicit Types (w : Wrapper.wrapper V).
Import Bin BinFacts.

Lemma get_total w lv key s :
  exists s' r, Wrapper.get w lv key s = (s', Ret r).
Proof.
  unfold Wrapper.get. destruct (Wrapper.cacher w lv) as [c|]; [|eexists _, _; reflexivity].
  unfold bind, on_store.
  destruct (cGet c (hist lv s) key) as [[val|]|err]; eexists _, _; reflexivity.
Qed.

Lemma get_val_None w lv key s s' e :
  Wrapper.get w lv key s = (s', Ret (Some e)) -> val e = None.
Proof.
  unfold Wrapper.get. destruct (Wrapper.cacher w lv) as [c|]; [|discriminate].
  unfold bind, on_store.
  destruct (cGet c (hist lv s) key) as [[val|]|err]; simpl;
    intros H; inversion H as [[Hs Hd]].
  eapply deserializeEntry_val. exact Hd.
Qed.

Lemma on_store_keeps_loads {A} lv cl (f : list call -> A) : keeps loads (on_store lv cl f).
Proof. intros s s' o H. inversion H. destruct lv; reflexivity. Qed.

Lemma on_store_L1_keeps_calls2 {A} cl (f : list call -> A) : keeps calls2 (on_store L1 cl f).
Proof. intros s s' o H. inversion H. reflexivity. Qed.

Lemma on_store_L2_keeps_calls1 {A} cl (f : list call -> A) : keeps calls1 (on_store L2 cl f).
Proof. intros s s' o H. inversion H. reflexivity. Qed.

Lemma Warnf_keeps {X} (f : World -> X) l :
  (forall e t d c1 c2 n g, f (mkWorld e t d c1 c2 n (g ++ [l])) = f (mkWorld e t d c1 c2 n g)) ->
  keeps f (Warnf l).
Proof. intros Hf s s' o H. inversion H. destruct s; apply Hf. Qed.

Lemma get_keeps {X} (f : World -> X) w lv key :
  (forall cl A (g : list call -> A), keeps f (on_store lv cl g)) ->
  (forall l, keeps f (Warnf l)) ->
  keeps f (Wrapper.get w lv key).
Proof.
  intros Hs Hw. unfold Wrapper.get.
  destruct (Wrapper.cacher w lv) as [c|]; [|apply keeps_ret].
  apply keeps_bind; [apply Hs|].
  intros [[val|]|err]; try apply keeps_ret.
  apply keeps_bind; [apply Hw | intros; apply keeps_ret].
Qed.

Lemma get_L1_keeps_calls2 w key : keeps calls2 (Wrapper.get w L1 key).
Proof.
  apply get_keeps; [intros; apply on_store_L1_keeps_calls2|].
  intros l. apply Warnf_keeps. reflexivity.
Qed.

(** The delete-TTL of L1: the configured one plus a jitter below one second. *)
Lemma getDelTTL_1 w s :
  exists j, 0 <= j < 1000 /\
    j = rand63 (env s) (draws s) mod 1000 /\
    Wrapper.getDelTTL w 1 s
    = (mkWorld (env s) (ticks s) (S (draws s)) (calls1 s) (calls2 s) (loads s) (logs s),
       Ret (add64 (Wrapper.delTTL w) (j * 1000000))).
Proof.
  exists (rand63 (env s) (draws s) mod 1000).
  assert (Hj : 0 <= rand63 (env s) (draws s) mod 1000 < 1000)
    by (apply Z.mod_pos_bound; lia).
  split; [exact Hj|]. split; [reflexivity|].
  unfold Wrapper.getDelTTL. simpl. unfold bind, Int63n, ret.
  rewrite to_int64_small by (unfold int64_range; lia). reflexivity.
Qed.

(** Writing an envelope that came out of a store: its frame goes in as it is. *)
Lemma set_stored w lv key e t c s :
  Wrapper.cacher w lv = Some c -> val e = None ->
  Wrapper.set w lv key (Some e) t s
  = (record_call lv (CSet key (frame_of e) t) s,
     Ret (Some e, cSet c (hist lv s) key (frame_of e) t)).
Proof.
  intros Hc Hv. unfold Wrapper.set. rewrite Hc.
  rewrite (Serialize_val_None _ _ Hv). reflexivity.
Qed.

Lemma set_no_cacher w lv key (r : option (entry V)) t s :
  Wrapper.cacher w lv = None ->
  Wrapper.set w lv key r t s = (s, Ret (r, None)).
Proof. intros Hc. unfold Wrapper.set. rewrite Hc. reflexivity. Qed.

Lemma latest_None (r1 r2 : option (entry V)) :
  Wrapper.latest r1 r2 = None <-> r1 = None /\ r2 = None.
Proof.
  destruct r1 as [a|], r2 as [b|]; simpl; try (split; [discriminate | intros [? ?]; discriminate]).
  - destruct (CreateAt a >? CreateAt b);
      split; try discriminate; intros [? ?]; discriminate.
  - split; [intros; split; reflexivity | reflexivity].
Qed.

Lemma latest_Some (r1 r2 : option (entry V)) (e : entry V) :
  Wrapper.latest r1 r2 = Some e ->
  (r1 = Some e \/ r2 = Some e) /\
  (forall e', r1 = Some e' \/ r2 = Some e' -> createAt e' <= createAt e).
Proof.
  destruct r1 as [a|], r2 as [b|]; simpl; unfold CreateAt.
  - destruct (Z.gtb_spec (createAt a) (createAt b)) as [Hgt|Hle];
      intros H; inversion H; subst.
    + split; [left; reflexivity|]. intros e' [He|He]; inversion He; subst; lia.
    + split; [right; reflexivity|]. intros e' [He|He]; inversion He; subst; lia.
  - intros H; inversion H; subst. split; [left; reflexivity|].
    intros e' [He|He]; inversion He; subst; lia.
  - intros H; inversion H; subst. split; [right; reflexivity|].
    intros e' [He|He]; inversion He; subst; lia.
  - discriminate.
Qed.

End WrapperFacts.

(** C7: [Wrapper.Get] returns the L1 envelope when it exists and is not
    expired, without asking L2; otherwise, when the L2 envelope exists and is
    not expired, it writes that envelope's frame to L1 with L1's delete-TTL
    (delTTL plus a jitter below one second) and returns it; otherwise it
    returns the envelope with the greater createAt of the two, expired or
    not, and nil only when both are nil. *)
Theorem Get_reconciles {V} (w : Wrapper.wrapper V) (key : string) :
  (forall s s1 s1' e1,
      Wrapper.get w L1 key s = (s1, Ret (Some e1)) ->
      IsExpired e1 s1 = (s1', Ret false) ->
      Wrapper.Get w key s = (s1', Ret (Some e1)) /\ calls2 s1' = calls2 s) /\
  (forall s s1 s1' r1 s2 s2' e2,
      Wrapper.get w L1 key s = (s1, Ret r1) ->
      stale r1 s1 s1' ->
      Wrapper.get w L2 key s1' = (s2, Ret (Some e2)) ->
      IsExpired e2 s2 = (s2', Ret false) ->
      exists s3 j,
        0 <= j < 1000 /\
        Wrapper.Get w key s = (s3, Ret (Some e2)) /\
        (forall c1, Wrapper.l1 w = Some c1 ->
           calls1 s3 = calls1 s2' ++
             [CSet key (frame_of e2) (Bin.add64 (Wrapper.delTTL w) (j * 1000000))]) /\
        (Wrapper.l1 w = None -> calls1 s3 = calls1 s2') /\
        calls2 s3 = calls2 s2') /\
  (forall s s1 s1' r1 s2 s2' r2,
      Wrapper.get w L1 key s = (s1, Ret r1) ->
      stale r1 s1 s1' ->
      Wrapper.get w L2 key s1' = (s2, Ret r2) ->
      stale r2 s2 s2' ->
      Wrapper.Get w key s = (s2', Ret (Wrapper.latest r1 r2)) /\
      (Wrapper.latest r1 r2 = None <-> r1 = None /\ r2 = None) /\
      (forall e, Wrapper.latest r1 r2 = Some e ->
         (r1 = Some e \/ r2 = Some e) /\
         (forall e', r1 = Some e' \/ r2 = Some e' -> createAt e' <= createAt e))) /\
  (forall s lv, exists s' r, Wrapper.get w lv key s = (s', Ret r)).
Proof.
  split; [|split; [|split]].
  - intros s s1 s1' e1 Hg Hx.
    assert (Hf : fresh (Some e1) s1 = (s1', Ret true)) by (apply fresh_true; eauto).
    split.
    + unfold Wrapper.Get. rewrite (bind_Ret _ _ _ _ _ Hg), (bind_Ret _ _ _ _ _ Hf).
      reflexivity.
    + rewrite (keeps_IsExpired calls2 e1 clock_keeps_calls2 _ _ _ Hx).
      apply (get_L1_keeps_calls2 w key _ _ _ Hg).
  - intros s s1 s1' r1 s2 s2' e2 Hg1 Hst Hg2 Hx.
    apply fresh_false in Hst.
    assert (Hf : fresh (Some e2) s2 = (s2', Ret true)) by (apply fresh_true; eauto).
    destruct (getDelTTL_1 w s2') as (j & Hj & _ & Ht).
    pose proof (get_val_None w L2 key _ _ _ Hg2) as Hv.
    destruct (Wrapper.l1 w) as [c1|] eqn:Hl1.
    + eexists _, j. split; [exact Hj|]. split.
      * unfold Wrapper.Get.
        rewrite (bind_Ret _ _ _ _ _ Hg1), (bind_Ret _ _ _ _ _ Hst),
          (bind_Ret _ _ _ _ _ Hg2), (bind_Ret _ _ _ _ _ Hf), (bind_Ret _ _ _ _ _ Ht).
        erewrite bind_Ret; [reflexivity|].
        apply set_stored; [exact Hl1 | exact Hv].
      * split; [|split]; [|discriminate|reflexivity].
        intros c0 Hc0. reflexivity.
    + eexists _, j. split; [exact Hj|]. split.
      * unfold Wrapper.Get.
        rewrite (bind_Ret _ _ _ _ _ Hg1), (bind_Ret _ _ _ _ _ Hst),
          (bind_Ret _ _ _ _ _ Hg2), (bind_Ret _ _ _ _ _ Hf), (bind_Ret _ _ _ _ _ Ht).
        erewrite bind_Ret; [reflexivity|].
        apply set_no_cacher. exact Hl1.
      * split; [|split]; [discriminate|reflexivity|reflexivity].
  - intros s s1 s1' r1 s2 s2' r2 Hg1 Hst1 Hg2 Hst2.
    apply fresh_false in Hst1. apply fresh_false in Hst2.
    split; [|split]; [|apply latest_None|apply latest_Some].
    unfold Wrapper.Get.
    rewrite (bind_Ret _ _ _ _ _ Hg1), (bind_Ret _ _ _ _ _ Hst1),
      (bind_Ret _ _ _ _ _ Hg2), (bind_Ret _ _ _ _ _ Hst2).
    reflexivity.
  - intros s lv. apply get_total.
Qed.

Lemma Get_reconciles_witness :
  exists s3 j,
    0 <= j < 1000 /\
    Wrapper.Get wrapper0 "k" worldL2 = (s3, Ret (Some helloStored)) /\
    calls1 s3 = [CGet "k"; CSet "k" helloFrame (Bin.add64 60000000000 (j * 1000000))].
Proof.
  destruct (Get_reconciles wrapper0 "k") as (_ & H2 & _).
  destruct (H2 worldL2
              (record_call L1 (CGet "k") worldL2)
              (record_call L1 (CGet "k") worldL2)
              None
              (record_call L2 (CGet "k") (record_call L1 (CGet "k") worldL2))
              (mkWorld env0 1 0 [CGet "k"]
                 [CSet "k" helloFrame 78000000000; CGet "k"] 0 [])
              helloStored)
    as (s3 & j & Hj & HG & Hc1 & _ & _).
  - vm_compute. reflexivity.
  - left. split; reflexivity.
  - vm_compute. reflexivity.
  - vm_compute. reflexivity.
  - exists s3, j. split; [exact Hj|]. split; [exact HG|].
    exact (Hc1 memStore eq_refl).
Defined.

(** ** The facade *)

Create HintDb keeps discriminated.

Lemma Int63n_keeps_loads n : keeps loads (Int63n n).
Proof. intros s s' o H. inversion H. reflexivity. Qed.

Lemma times1_3_keeps {X} (f : World -> X) d : keeps f (Wrapper.times1_3 d).
Proof. intros s s' o H. inversion H. reflexivity. Qed.

Lemma Warnf_keeps_loads l : keeps loads (Warnf l).
Proof. apply Warnf_keeps. reflexivity. Qed.

Lemma on_source_keeps_calls1 {A} (f : nat -> outcome A) : keeps calls1 (on_source f).
Proof. intros s s' o H. inversion H. reflexivity. Qed.

Lemma on_source_keeps_calls2 {A} (f : nat -> outcome A) : keeps calls2 (on_source f).
Proof. intros s s' o H. inversion H. reflexivity. Qed.

#[local] Hint Resolve keeps_ret keeps_panic keeps_lift keeps_recover
  clock_keeps_calls1 clock_keeps_calls2 clock_keeps_loads
  on_store_keeps_loads Int63n_keeps_loads times1_3_keeps Warnf_keeps_loads
  on_source_keeps_calls1 on_source_keeps_calls2 : keeps.

(** Walk through a computation, one bind or one case at a time. *)
Ltac keeps_step :=
  match goal with
  | |- keeps _ (bind _ _) => apply keeps_bind; [|intros]
  | |- keeps _ (fresh _) => apply keeps_fresh
  | |- keeps _ (IsExpired _) => apply keeps_IsExpired
  | |- keeps _ (newEntry _ _) => apply keeps_newEntry
  | |- keeps _ (match ?x with _ => _ end) => destruct x
  | |- keeps _ _ => solve [auto with keeps]
  end.

Ltac keeps_tac := repeat keeps_step.

Section FacadeFacts.
Context {K V : Type}.
Implicit Types (c : Cachex.cachex K V) (w : Wrapper.wrapper V).

Lemma getDelTTL_keeps_loads w level : keeps loads (Wrapper.getDelTTL w level).
Proof. unfold Wrapper.getDelTTL. keeps_tac. Qed.

Lemma set_keeps_loads w lv key r t : keeps loads (Wrapper.set w lv key r t).
Proof. unfold Wrapper.set. keeps_tac. Qed.

Lemma get_keeps_loads w lv key : keeps loads (Wrapper.get w lv key).
Proof. unfold Wrapper.get. keeps_tac. Qed.

Lemma Wrapper_Get_keeps_loads w key : keeps loads (Wrapper.Get w key).
Proof.
  unfold Wrapper.Get.
  pose proof (getDelTTL_keeps_loads w) as H1.
  pose proof (set_keeps_loads w) as H2.
  pose proof (get_keeps_loads w) as H3.
  keeps_tac; auto.
Qed.

End FacadeFacts.

(** C8: [MSet] with keys and values of different lengths returns the
    length-mismatch error and leaves the world, both stores included, as it
    was. *)
Theorem MSet_length_mismatch {K V} (c : Cachex.cachex K V) (ks : list K)
    (values : list (option V)) (s : World) :
  length ks <> length values ->
  Cachex.MSet c ks values s = (s, Ret (Some ErrKeysValuesLen)).
Proof.
  intros Hlen. unfold Cachex.MSet.
  apply Nat.eqb_neq in Hlen. rewrite Hlen. reflexivity.
Qed.

Lemma MSet_length_mismatch_witness :
  Cachex.MSet (facadeOf None 1 false) ["a"; "b"] [Some hello] world0
  = (world0, Ret (Some ErrKeysValuesLen)).
Proof.
  apply (MSet_length_mismatch (facadeOf None 1 false) ["a"; "b"] [Some hello] world0).
  simpl. discriminate.
Defined.

Lemma Build_builderOf loader strategy cn :
  Builder.Build (builderOf loader strategy cn) = Ok (facadeOf loader strategy cn).
Proof. destruct loader; reflexivity. Qed.

(** C3: under ExpiredBackup, [Get] returns the value of a non-expired cached
    envelope without calling the source; otherwise, when the load fails, it
    returns the value of whatever envelope the cache gave, expired or not,
    and the load error only when the cache gave none.  The value of an
    envelope never comes with an error. *)
Theorem ExpiredBackup_Get {K V} (c : Cachex.cachex K V) (wr : Wrapper.wrapper V) (k : K) :
  Cachex.ss c = Cachex.SourceStrategyExpiredBackup ->
  Cachex.cache c = Some wr ->
  (forall s s1 s1' e,
      Wrapper.Get wr (Cachex.key c k) s = (s1, Ret (Some e)) ->
      IsExpired e s1 = (s1', Ret false) ->
      Cachex.Get c k s = (s1', Value (Some e) (Cachex.codec c)) /\
      loads s1' = loads s) /\
  (forall s s1 s1' r s2 err,
      Wrapper.Get wr (Cachex.key c k) s = (s1, Ret r) ->
      stale r s1 s1' ->
      Cachex.load c k s1' = (s2, Ret (Err err)) ->
      match r with
      | Some e => Cachex.Get c k s = (s2, Value (Some e) (Cachex.codec c))
      | None => Cachex.Get c k s = (s2, Ret (None, Some err))
      end) /\
  (forall e v err, Value (Some e) (Cachex.codec c) = Ret (v, err) -> err = None).
Proof.
  intros Hss Hcache.
  assert (HGet : forall s, Cachex.Get c k s = Cachex.ssExpiredBackupGet c k s).
  { intros s. unfold Cachex.Get. rewrite Hss. reflexivity. }
  split; [|split].
  - intros s s1 s1' e HG Hx.
    assert (Hf : fresh (Some e) s1 = (s1', Ret true)) by (apply fresh_true; eauto).
    split.
    + rewrite HGet. unfold Cachex.ssExpiredBackupGet, Cachex.on_cache. rewrite Hcache.
      rewrite (bind_Ret _ _ _ _ _ HG), (bind_Ret _ _ _ _ _ Hf). reflexivity.
    + rewrite (keeps_IsExpired loads e clock_keeps_loads _ _ _ Hx).
      apply (Wrapper_Get_keeps_loads wr _ _ _ _ HG).
  - intros s s1 s1' r s2 err HG Hst HL.
    apply fresh_false in Hst.
    assert (Hrun : Cachex.Get c k s
                   = match r with
                     | Some _ => Cachex.lift (Value r (Cachex.codec c)) s2
                     | None => ret (None, Some err) s2
                     end).
    { rewrite HGet. unfold Cachex.ssExpiredBackupGet, Cachex.on_cache. rewrite Hcache.
      rewrite (bind_Ret _ _ _ _ _ HG), (bind_Ret _ _ _ _ _ Hst), (bind_Ret _ _ _ _ _ HL).
      destruct r; reflexivity. }
    rewrite Hrun. destruct r; reflexivity.
  - intros e v err. apply Value_no_error.
Qed.

Lemma ExpiredBackup_Get_witness :
  exists s2,
    Cachex.Get (facadeOf (Some sourceDown) 5 false) "k" worldStale
    = (s2, Ret (Some hello, None)) /\
    loads s2 = 1%nat.
Proof.
  destruct (ExpiredBackup_Get (facadeOf (Some sourceDown) 5 false) wrapperL1 "k"
              eq_refl eq_refl) as (_ & H2 & _).
  pose proof (H2 worldStale
                (mkWorld env10 1 0
                   [CSet "default:k" helloFrame 60000000000; CGet "default:k"] [] 0 [])
                (mkWorld env10 2 0
                   [CSet "default:k" helloFrame 60000000000; CGet "default:k"] [] 0 [])
                (Some helloStored)
                (mkWorld env10 2 0
                   [CSet "default:k" helloFrame 60000000000; CGet "default:k"] [] 1 [])
                (ErrLoaderFn (UserErr "source down"))) as H.
  simpl in H.
  eexists. split; [apply H|reflexivity].
  - vm_compute. reflexivity.
  - right. exists helloStored. split; [reflexivity|]. vm_compute. reflexivity.
  - vm_compute. reflexivity.
Defined.

(** ** The source-only batch path *)

Section SourceOnly.
Context {K V : Type}.
Implicit Types (c : Cachex.cachex K V).

Lemma load_single_keeps {X} (f : World -> X) c fn k :
  keeps f UnixMilli ->
  (forall A (g : nat -> outcome A), keeps f (on_source g)) ->
  keeps f (Cachex.load_single c fn k).
Proof. intros Hu Hs. unfold Cachex.load_single. keeps_tac; auto. Qed.

Lemma mLoad_tasks_keeps {X} (f : World -> X) c fn ks res err :
  keeps f UnixMilli ->
  (forall A (g : nat -> outcome A), keeps f (on_source g)) ->
  keeps f (Cachex.mLoad_tasks c fn ks res err).
Proof.
  intros Hu Hs. revert res err.
  induction ks as [|k rest IH]; intros res err; simpl; [apply keeps_ret|].
  apply keeps_bind.
  - apply keeps_recover, load_single_keeps; assumption.
  - intros [[v|e]|p]; apply IH.
Qed.

Lemma mLoad_wrap_keeps {X} (f : World -> X) c kvs res :
  keeps f UnixMilli -> keeps f (Cachex.mLoad_wrap c kvs res).
Proof.
  intros Hu. revert res.
  induction kvs as [|[k v] rest IH]; intros res; simpl; [apply keeps_ret|].
  apply keeps_bind; [apply keeps_newEntry; exact Hu | intros; apply IH].
Qed.

Lemma mLoad_keeps {X} (f : World -> X) c ks :
  keeps f UnixMilli ->
  (forall A (g : nat -> outcome A), keeps f (on_source g)) ->
  keeps f (Cachex.mLoad c ks).
Proof.
  intros Hu Hs. unfold Cachex.mLoad.
  destruct (Cachex.loaderFn c) as [fn|], (Cachex.mLoaderFn c) as [g|].
  - apply keeps_bind; [apply Hs|]. intros [values|e]; [|apply keeps_ret].
    destruct (negb _); [apply keeps_ret|].
    apply keeps_bind; [apply mLoad_wrap_keeps; exact Hu | intros; apply keeps_ret].
  - apply keeps_bind; [apply mLoad_tasks_keeps; assumption|].
    intros [res [e|]]; apply keeps_ret.
  - apply keeps_bind; [apply Hs|]. intros [values|e]; [|apply keeps_ret].
    destruct (negb _); [apply keeps_ret|].
    apply keeps_bind; [apply mLoad_wrap_keeps; exact Hu | intros; apply keeps_ret].
  - apply keeps_ret.
Qed.

Lemma packBatchRes_keeps {X} (f : World -> X) c ks kvs :
  keeps f (Cachex.packBatchRes c ks kvs).
Proof.
  induction ks as [|k rest IH]; simpl; [apply keeps_ret|].
  apply keeps_bind.
  - destruct (at_key kvs (Cachex.key c k)); [|apply keeps_ret].
    apply keeps_bind; [apply keeps_lift|]. intros [v [err|]]; apply keeps_ret.
  - intros x. apply keeps_bind; [exact IH | intros; apply keeps_ret].
Qed.

Lemma ssSourceOnlyMGet_keeps {X} (f : World -> X) c ks :
  keeps f UnixMilli ->
  (forall A (g : nat -> outcome A), keeps f (on_source g)) ->
  keeps f (Cachex.ssSourceOnlyMGet c ks).
Proof.
  intros Hu Hs. unfold Cachex.ssSourceOnlyMGet.
  apply keeps_bind; [apply mLoad_keeps; assumption|].
  intros [m|e]; [|apply keeps_ret].
  apply keeps_bind; [apply packBatchRes_keeps | intros; apply keeps_ret].
Qed.

(** With a point loader configured, [c.load] is the single-flight call. *)
Lemma load_with_loader c fn k :
  Cachex.loaderFn c = Some fn -> Cachex.load c k = Cachex.load_single c fn k.
Proof.
  intros H. unfold Cachex.load. rewrite H.
  destruct (Cachex.mLoaderFn c); reflexivity.
Qed.

Lemma bind_ext {A B} (m m' : M A) (k k' : A -> M B) :
  (forall s, m s = m' s) -> (forall a s, k a s = k' a s) ->
  forall s, bind m k s = bind m' k' s.
Proof.
  intros Hm Hk s. unfold bind. rewrite Hm.
  destruct (m' s) as [s1 [a|p]]; [apply Hk | reflexivity].
Qed.

(** The source-only path does not look at the strategy. *)
Lemma mLoad_tasks_with_ss c x fn ks res err s :
  Cachex.mLoad_tasks (with_ss c x) fn ks res err s = Cachex.mLoad_tasks c fn ks res err s.
Proof.
  revert res err s. induction ks as [|k rest IH]; intros res err s; [reflexivity|].
  simpl. apply bind_ext; [reflexivity|].
  intros [[v|e]|p] s1; apply IH.
Qed.

Lemma mLoad_wrap_with_ss c x kvs res s :
  Cachex.mLoad_wrap (with_ss c x) kvs res s = Cachex.mLoad_wrap c kvs res s.
Proof.
  revert res s. induction kvs as [|[k v] rest IH]; intros res s; [reflexivity|].
  simpl. apply bind_ext; [reflexivity|]. intros e s1. apply IH.
Qed.

Lemma mLoad_with_ss c x ks s :
  Cachex.mLoad (with_ss c x) ks s = Cachex.mLoad c ks s.
Proof.
  unfold Cachex.mLoad. simpl.
  destruct (Cachex.loaderFn c) as [fn|], (Cachex.mLoaderFn c) as [g|]; try reflexivity.
  - apply bind_ext; [reflexivity|]. intros [values|e] s1; [|reflexivity].
    destruct (negb _); [reflexivity|].
    apply bind_ext; [apply mLoad_wrap_with_ss | reflexivity].
  - apply bind_ext; [apply mLoad_tasks_with_ss | reflexivity].
  - apply bind_ext; [reflexivity|]. intros [values|e] s1; [|reflexivity].
    destruct (negb _); [reflexivity|].
    apply bind_ext; [apply mLoad_wrap_with_ss | reflexivity].
Qed.

Lemma packBatchRes_with_ss c x ks kvs s :
  Cachex.packBatchRes (with_ss c x) ks kvs s = Cachex.packBatchRes c ks kvs s.
Proof.
  revert s. induction ks as [|k rest IH]; intros s; [reflexivity|].
  simpl. apply bind_ext; [reflexivity|].
  intros v s1. apply bind_ext; [exact IH | reflexivity].
Qed.

Lemma ssSourceOnlyMGet_with_ss c x ks s :
  Cachex.ssSourceOnlyMGet (with_ss c x) ks s = Cachex.ssSourceOnlyMGet c ks s.
Proof.
  unfold Cachex.ssSourceOnlyMGet.
  apply bind_ext; [apply mLoad_with_ss|].
  intros [m|e] s1; [|reflexivity].
  apply bind_ext; [apply packBatchRes_with_ss | reflexivity].
Qed.

End SourceOnly.

(** C9: two facades built from the same configuration, one with SourceFirst
    and one with SourceOnly, answer every [MGet] alike: both run the
    source-only batch path, which makes no call to either store. *)
Theorem MGet_SourceFirst_is_SourceOnly {K V} (b : Builder.builder K V)
    (cx1 cx2 : Cachex.cachex K V) :
  Builder.Build (Builder.WithSourceStrategy b Cachex.SourceStrategySourceFirst) = Ok cx1 ->
  Builder.Build (Builder.WithSourceStrategy b Cachex.SourceStrategySourceOnly) = Ok cx2 ->
  forall (ks : list K) (s : World),
    Cachex.MGet cx1 ks s = Cachex.MGet cx2 ks s /\
    Cachex.MGet cx1 ks s = Cachex.ssSourceOnlyMGet cx1 ks s /\
    Cachex.MGet cx2 ks s = Cachex.ssSourceOnlyMGet cx2 ks s /\
    (forall s' o, Cachex.MGet cx1 ks s = (s', o) ->
                  calls1 s' = calls1 s /\ calls2 s' = calls2 s).
Proof.
  unfold Builder.Build. simpl.
  destruct (bool_decide (Builder.namespace b = "")); [discriminate|].
  destruct (Builder.genKeyFn b) as [fn|]; [|discriminate].
  destruct (bool_decide (Builder.l2 b ≠ None) && bool_decide (Builder.l1 b = None));
    [discriminate|].
  destruct (bool_decide (Builder.loaderFn b = None) && bool_decide (Builder.mLoaderFn b = None)
            && bool_decide (Builder.l1 b = None) && bool_decide (Builder.l2 b = None));
    [discriminate|].
  intros H1 H2 ks s. inversion H1 as [E1]. inversion H2 as [E2]. clear H1 H2.
  set (cx := Cachex.mkCachex (Builder.namespace b) (Builder.codec b) (Builder.expireTTL b)
               (Some (Wrapper.newWrapper (Builder.l1 b) (Builder.l2 b) (Builder.delTTL b)
                        (Builder.codec b)))
               fn (Builder.loaderFn b) (Builder.mLoaderFn b) (Builder.cacheNil b)
               (Builder.ss b)).
  assert (M1 : Cachex.MGet (with_ss cx Cachex.SourceStrategySourceFirst) ks s
               = Cachex.ssSourceOnlyMGet (with_ss cx Cachex.SourceStrategySourceFirst) ks s)
    by reflexivity.
  assert (M2 : Cachex.MGet (with_ss cx Cachex.SourceStrategySourceOnly) ks s
               = Cachex.ssSourceOnlyMGet (with_ss cx Cachex.SourceStrategySourceOnly) ks s)
    by reflexivity.
  change (Cachex.mkCachex _ _ _ _ _ _ _ _ Cachex.SourceStrategySourceFirst)
    with (with_ss cx Cachex.SourceStrategySourceFirst).
  change (Cachex.mkCachex _ _ _ _ _ _ _ _ Cachex.SourceStrategySourceOnly)
    with (with_ss cx Cachex.SourceStrategySourceOnly).
  split; [|split; [exact M1|split; [exact M2|]]].
  - rewrite M1, M2, !ssSourceOnlyMGet_with_ss. reflexivity.
  - intros s' o H. rewrite M1 in H.
    split.
    + eapply (ssSourceOnlyMGet_keeps calls1); [apply clock_keeps_calls1 | | exact H].
      intros; apply on_source_keeps_calls1.
    + eapply (ssSourceOnlyMGet_keeps calls2); [apply clock_keeps_calls2 | | exact H].
      intros; apply on_source_keeps_calls2.
Qed.

Lemma MGet_SourceFirst_is_SourceOnly_witness :
  Cachex.MGet (facadeOf (Some sourceHello) 2 false) ["a"; "b"] world0
  = Cachex.MGet (facadeOf (Some sourceHello) 4 false) ["a"; "b"] world0.
Proof.
  exact (proj1 (MGet_SourceFirst_is_SourceOnly (builderOf (Some sourceHello) 1 false)
                  (facadeOf (Some sourceHello) 2 false)
                  (facadeOf (Some sourceHello) 4 false)
                  eq_refl eq_refl ["a"; "b"] world0)).
Defined.

(** ** The clone *)

(** C2 fails on the code: [WithSourceStrategy] keeps the loaders, the codec,
    the key function and the other settings, but the clone's [cache] pointer
    is nil, so every operation of the clone that reaches the wrapper panics
    instead of working on the original's stores. *)
Theorem WithSourceStrategy_loses_cache {K V} (c : Cachex.cachex K V) (x : Z) :
  let cc := Cachex.WithSourceStrategy c x in
  Cachex.cache cc = None /\
  Cachex.ss cc = x /\
  Cachex.loaderFn cc = Cachex.loaderFn c /\
  Cachex.mLoaderFn cc = Cachex.mLoaderFn c /\
  Cachex.namespace cc = Cachex.namespace c /\
  Cachex.cacheNil cc = Cachex.cacheNil c /\
  (forall k s,
      x = Cachex.SourceStrategyCacheFirst \/ x = Cachex.SourceStrategyCacheOnly \/
      x = Cachex.SourceStrategyExpiredBackup ->
      Cachex.Get cc k s = (s, Panic nil_deref)) /\
  (forall ks s,
      x = Cachex.SourceStrategyCacheFirst \/ x = Cachex.SourceStrategyCacheOnly \/
      x = Cachex.SourceStrategyExpiredBackup ->
      Cachex.MGet cc ks s = (s, Panic nil_deref)) /\
  (forall k s, Cachex.Del cc k s = (s, Panic nil_deref)) /\
  (forall ks s, Cachex.MDel cc ks s = (s, Panic nil_deref)) /\
  (forall k v s, exists s', Cachex.Set_ cc k (Some v) s = (s', Panic nil_deref)).
Proof.
  simpl. repeat split.
  - intros k s [-> | [-> | ->]]; reflexivity.
  - intros ks s [-> | [-> | ->]]; reflexivity.
  - intros k v s. eexists. reflexivity.
Qed.

(** The clone of a working facade, at work: the original answers from its
    L1 store, the clone panics on the same call. *)
Lemma WithSourceStrategy_loses_cache_example :
  (exists s', Cachex.Get (facadeOf None 3 false) "k" worldL1fresh
              = (s', Ret (Some hello, None))) /\
  Cachex.Get (Cachex.WithSourceStrategy (facadeOf None 1 false) 3) "k" worldL1fresh
  = (worldL1fresh, Panic nil_deref).
Proof.
  split; [eexists; vm_compute; reflexivity|].
  apply (WithSourceStrategy_loses_cache (facadeOf None 1 false) 3).
  right; left; reflexivity.
Defined.

(** ** Payloads that do not decode *)

Section BadPayload.
Context {K V : Type}.
Import Bin.

(** An envelope that is expired at no reading of the clock is fresh. *)
Lemma fresh_at (e : entry V) (s : World) :
  (forall n, expiredAt (to_int64 (clock (env s) n)) e = false) ->
  exists s', fresh (Some e) s = (s', Ret true) /\
             env s' = env s /\ calls1 s' = calls1 s.
Proof.
  intros H. simpl. unfold IsExpired.
  destruct (ttl e <=? 0).
  - exists s. repeat split; reflexivity.
  - unfold bind, UnixMilli, ret. rewrite H. eexists. repeat split; reflexivity.
Qed.

Lemma Wrapper_Get_L1_hit (wr : Wrapper.wrapper V) c1 key bytes (e : entry V) s :
  Wrapper.l1 wr = Some c1 ->
  cGet c1 (calls1 s) key = Ok (Some bytes) ->
  deserializeEntry bytes = Some e ->
  (forall n, expiredAt (to_int64 (clock (env s) n)) e = false) ->
  exists s', Wrapper.Get wr key s = (s', Ret (Some e)) /\
             env s' = env s /\ calls1 s' = calls1 s ++ [CGet key].
Proof.
  intros Hl1 Hget Hde Hfresh.
  assert (Hg : Wrapper.get wr L1 key s = (record_call L1 (CGet key) s, Ret (Some e))).
  { unfold Wrapper.get. simpl. rewrite Hl1. unfold bind, on_store. simpl.
    rewrite Hget. unfold ret. rewrite Hde. reflexivity. }
  destruct (fresh_at e (record_call L1 (CGet key) s) Hfresh) as (s' & Hf & He & Hc).
  exists s'. split; [|split; [exact He | exact Hc]].
  unfold Wrapper.Get. rewrite (bind_Ret _ _ _ _ _ Hg), (bind_Ret _ _ _ _ _ Hf).
  reflexivity.
Qed.

Lemma Value_bad_payload (c : Codec V) (e : entry V) err :
  IsNil e = false -> val e = None -> Unmarshal c (valBytes e) = Err err ->
  Value (Some e) c = Panic unmarshal_panic.
Proof. intros Hn Hv Hu. unfold Value. rewrite Hn, Hv, Hu. reflexivity. Qed.

Lemma Get_bad_payload (b : Builder.builder K V) cx c1 (k : K) s bytes (e : entry V) err :
  Builder.Build b = Ok cx ->
  Builder.ss b = Cachex.SourceStrategyCacheFirst \/
  Builder.ss b = Cachex.SourceStrategyCacheOnly \/
  Builder.ss b = Cachex.SourceStrategyExpiredBackup ->
  Builder.l1 b = Some c1 ->
  cGet c1 (calls1 s) (Cachex.key cx k) = Ok (Some bytes) ->
  deserializeEntry bytes = Some e ->
  (forall n, expiredAt (to_int64 (clock (env s) n)) e = false) ->
  IsNil e = false ->
  Unmarshal (Builder.codec b) (valBytes e) = Err err ->
  exists s', Cachex.Get cx k s = (s', Panic unmarshal_panic).
Proof.
  unfold Builder.Build. simpl.
  destruct (bool_decide (Builder.namespace b = "")); [discriminate|].
  destruct (Builder.genKeyFn b) as [fn|]; [|discriminate].
  destruct (bool_decide (Builder.l2 b ≠ None) && bool_decide (Builder.l1 b = None));
    [discriminate|].
  destruct (bool_decide (Builder.loaderFn b = None) && bool_decide (Builder.mLoaderFn b = None)
            && bool_decide (Builder.l1 b = None) && bool_decide (Builder.l2 b = None));
    [discriminate|].
  intros HB Hss Hl1 Hget Hde Hfresh Hnil Hun. inversion HB as [Ecx]. clear HB.
  subst cx.
  set (wr := Wrapper.newWrapper (Builder.l1 b) (Builder.l2 b) (Builder.delTTL b)
               (Builder.codec b)) in *.
  destruct (Wrapper_Get_L1_hit wr c1 _ bytes e s Hl1 Hget Hde Hfresh) as (s1 & HG & He1 & _).
  assert (Hfresh1 : forall n, expiredAt (to_int64 (clock (env s1) n)) e = false)
    by (rewrite He1; exact Hfresh).
  destruct (fresh_at e s1 Hfresh1) as (s2 & Hf & _ & _).
  pose proof (deserializeEntry_val _ _ Hde) as Hv.
  exists s2. unfold Cachex.Get. simpl Cachex.ss.
  destruct Hss as [-> | [-> | ->]]; simpl;
    unfold Cachex.ssCacheFirstGet, Cachex.ssCacheOnlyGet, Cachex.ssExpiredBackupGet,
      Cachex.on_cache; simpl Cachex.cache;
    rewrite (bind_Ret _ _ _ _ _ HG), (bind_Ret _ _ _ _ _ Hf);
    unfold Cachex.lift; simpl Cachex.codec;
    rewrite (Value_bad_payload _ _ _ Hnil Hv Hun); reflexivity.
Qed.

End BadPayload.

(** C10: for a non-nil envelope that is not a nil marker and has no value
    pointer, [Value] panics when the codec fails on the payload; whenever
    [Value] returns, its error is nil; and a stored frame whose payload the
    codec rejects makes [Get] panic under every strategy that reads the
    cache first. *)
Theorem Value_panics_on_bad_payload :
  (forall V (c : Codec V) (e : entry V) err,
      IsNil e = false -> val e = None -> Unmarshal c (valBytes e) = Err err ->
      Value (Some e) c = Panic unmarshal_panic) /\
  (forall V (o : option (entry V)) (c : Codec V) v err,
      Value o c = Ret (v, err) -> err = None) /\
  (forall K V (b : Builder.builder K V) cx c1 (k : K) s bytes (e : entry V) err,
      Builder.Build b = Ok cx ->
      Builder.ss b = Cachex.SourceStrategyCacheFirst \/
      Builder.ss b = Cachex.SourceStrategyCacheOnly \/
      Builder.ss b = Cachex.SourceStrategyExpiredBackup ->
      Builder.l1 b = Some c1 ->
      cGet c1 (calls1 s) (Cachex.key cx k) = Ok (Some bytes) ->
      deserializeEntry bytes = Some e ->
      (forall n, expiredAt (Bin.to_int64 (clock (env s) n)) e = false) ->
      IsNil e = false ->
      Unmarshal (Builder.codec b) (valBytes e) = Err err ->
      exists s', Cachex.Get cx k s = (s', Panic unmarshal_panic)).
Proof.
  split; [|split].
  - intros V. apply Value_bad_payload.
  - intros V. apply Value_no_error.
  - intros K V. apply Get_bad_payload.
Qed.

Lemma Value_panics_on_bad_payload_witness :
  exists s', Cachex.Get facadePairs "k" worldCorrupt = (s', Panic unmarshal_panic).
Proof.
  destruct Value_panics_on_bad_payload as (_ & _ & H).
  apply (H string (Z * Z)%type builderPairs facadePairs memStore "k" worldCorrupt
           oneByteFrame
           (mkEntry 1700000000000 0 [x2a] None x00)
           (UserErr "unexpected end of input")).
  - reflexivity.
  - left. reflexivity.
  - reflexivity.
  - vm_compute. reflexivity.
  - vm_compute. reflexivity.
  - intros n. reflexivity.
  - reflexivity.
  - reflexivity.
Defined.

(** ** Writing nil envelopes *)

Section NilWrites.
Context {K V : Type}.
Implicit Types (w : Wrapper.wrapper V).

Lemma newEntry_run (v : option V) (t : Z) (s : World) :
  newEntry v t s
  = (mkWorld (env s) (S (ticks s)) (draws s) (calls1 s) (calls2 s) (loads s) (logs s),
     Ret (newEntryAt (now_of s) v t)).
Proof. reflexivity. Qed.

Lemma getDelTTL_run w (level : Z) (s : World) :
  level = 1 \/ level = 2 ->
  exists t, Wrapper.getDelTTL w level s
            = (mkWorld (env s) (ticks s) (S (draws s)) (calls1 s) (calls2 s) (loads s) (logs s),
               Ret t).
Proof.
  intros [-> | ->]; unfold Wrapper.getDelTTL; simpl; eexists; reflexivity.
Qed.

(** A batch of one nil envelope, through a wrapper whose [cacheNil] is
    false: the store receives an empty batch. *)
Lemma mSet_one_nil w lv c (k : string) (e : entry V) (t : Z) (s : World) :
  Wrapper.cacher w lv = Some c ->
  Wrapper.cacheNil w = false ->
  IsNil e = true ->
  Wrapper.mSet w lv {[k := Some e]} t s
  = (record_call lv (CMSet ∅ t) s,
     Ret ({[k := Some e]}, cMSet c (hist lv s) ∅ t)).
Proof.
  intros Hc Hcn Hnil. unfold Wrapper.mSet. rewrite Hc.
  rewrite map_size_singleton. simpl Nat.eqb. cbv iota.
  rewrite map_to_list_singleton. simpl. rewrite Hnil, Hcn. reflexivity.
Qed.

Lemma mSet_no_cacher w lv (kvs : gmap string (option (entry V))) (t : Z) (s : World) :
  Wrapper.cacher w lv = None ->
  Wrapper.mSet w lv kvs t s = (s, Ret (kvs, None)).
Proof. intros Hc. unfold Wrapper.mSet. rewrite Hc. reflexivity. Qed.

Lemma Wrapper_MSet_one_nil w c1 (k : string) (e : entry V) (s : World) :
  Wrapper.l1 w = Some c1 -> Wrapper.l2 w = None ->
  Wrapper.cacheNil w = false ->
  IsNil e = true ->
  exists s' r t,
    Wrapper.MSet w {[k := Some e]} s = (s', Ret r) /\
    calls1 s' = calls1 s ++ [CMSet ∅ t] /\ calls2 s' = calls2 s.
Proof.
  intros Hl1 Hl2 Hcn Hnil. unfold Wrapper.MSet.
  destruct (getDelTTL_run w 2 s (or_intror eq_refl)) as (t2 & Ht2).
  rewrite (bind_Ret _ _ _ _ _ Ht2).
  erewrite bind_Ret by (apply mSet_no_cacher; exact Hl2).
  cbv beta iota.
  match goal with
  | |- context [bind (Wrapper.getDelTTL w 1) _ ?s1] =>
      destruct (getDelTTL_run w 1 s1 (or_introl eq_refl)) as (t1 & Ht1)
  end.
  rewrite (bind_Ret _ _ _ _ _ Ht1).
  erewrite bind_Ret by (apply (mSet_one_nil w L1 c1); assumption).
  cbv beta iota. simpl hist.
  match goal with |- context [if ?x then _ else _] => destruct x end;
    eexists _, _, t1; (split; [reflexivity|split; reflexivity]).
Qed.

(** One envelope without a value pointer, through [Wrapper.Set_]: its frame
    goes to L1. *)
Lemma Wrapper_Set_one w c1 (key : string) (e : entry V) (s : World) :
  Wrapper.l1 w = Some c1 -> Wrapper.l2 w = None ->
  val e = None ->
  exists s' r t,
    Wrapper.Set_ w key (Some e) s = (s', Ret r) /\
    calls1 s' = calls1 s ++ [CSet key (frame_of e) t] /\ calls2 s' = calls2 s.
Proof.
  intros Hl1 Hl2 Hv. unfold Wrapper.Set_.
  destruct (getDelTTL_run w 2 s (or_intror eq_refl)) as (t2 & Ht2).
  rewrite (bind_Ret _ _ _ _ _ Ht2).
  erewrite bind_Ret by (apply set_no_cacher; exact Hl2).
  cbv beta iota.
  match goal with
  | |- context [bind (Wrapper.getDelTTL w 1) _ ?s1] =>
      destruct (getDelTTL_run w 1 s1 (or_introl eq_refl)) as (t1 & Ht1)
  end.
  rewrite (bind_Ret _ _ _ _ _ Ht1).
  erewrite bind_Ret by (apply (set_stored w L1 key e t1 c1); assumption).
  cbv beta iota. simpl hist.
  match goal with |- context [if ?x then _ else _] => destruct x end;
    eexists _, _, t1; (split; [reflexivity|split; reflexivity]).
Qed.

(** A batch of one value envelope: its frame is what the store receives. *)
Lemma mSet_one_value w lv c (k : string) (e e' : entry V) (frame : list byte)
    (t : Z) (s : World) :
  Wrapper.cacher w lv = Some c ->
  IsNil e = false ->
  Serialize (Wrapper.codec w) e = (e', Ok frame) ->
  exists kvs',
    Wrapper.mSet w lv {[k := Some e]} t s
    = (record_call lv (CMSet {[k := frame]} t) s,
       Ret (kvs', cMSet c (hist lv s) {[k := frame]} t)).
Proof.
  intros Hc Hnil HS. unfold Wrapper.mSet. rewrite Hc.
  rewrite map_size_singleton. simpl Nat.eqb. cbv iota.
  rewrite map_to_list_singleton. simpl. rewrite Hnil, HS. simpl.
  eexists. reflexivity.
Qed.

Lemma Wrapper_MSet_one_value w c1 (k : string) (e e' : entry V) (frame : list byte)
    (s : World) :
  Wrapper.l1 w = Some c1 -> Wrapper.l2 w = None ->
  IsNil e = false ->
  Serialize (Wrapper.codec w) e = (e', Ok frame) ->
  exists s' r t,
    Wrapper.MSet w {[k := Some e]} s = (s', Ret r) /\
    calls1 s' = calls1 s ++ [CMSet {[k := frame]} t] /\ calls2 s' = calls2 s.
Proof.
  intros Hl1 Hl2 Hnil HS. unfold Wrapper.MSet.
  destruct (getDelTTL_run w 2 s (or_intror eq_refl)) as (t2 & Ht2).
  rewrite (bind_Ret _ _ _ _ _ Ht2).
  erewrite bind_Ret by (apply mSet_no_cacher; exact Hl2).
  cbv beta iota.
  match goal with
  | |- context [bind (Wrapper.getDelTTL w 1) _ ?s1] =>
      destruct (getDelTTL_run w 1 s1 (or_introl eq_refl)) as (t1 & Ht1);
      destruct (mSet_one_value w L1 c1 k e e' frame t1
                  (mkWorld (env s1) (ticks s1) (S (draws s1)) (calls1 s1) (calls2 s1)
                     (loads s1) (logs s1)) Hl1 Hnil HS) as (kvs' & HM)
  end.
  rewrite (bind_Ret _ _ _ _ _ Ht1), (bind_Ret _ _ _ _ _ HM).
  cbv beta iota. simpl hist.
  match goal with |- context [if ?x then _ else _] => destruct x end;
    eexists _, _, t1; (split; [reflexivity|split; reflexivity]).
Qed.

Implicit Types (c : Cachex.cachex K V).

Lemma Set_nil_written c w (c1 : Cacher) (k : K) (s : World) :
  Cachex.cache c = Some w -> Cachex.cacheNil c = true ->
  Wrapper.l1 w = Some c1 -> Wrapper.l2 w = None ->
  exists s1 r1 t1,
    Cachex.Set_ c k None s = (s1, Ret r1) /\
    calls1 s1 = calls1 s ++
      [CSet (Cachex.key c k)
         (frame_of (@newEntryAt V (now_of s) None (Cachex.expireTTL c))) t1].
Proof.
  intros Hc Hcn Hl1 Hl2. unfold Cachex.Set_.
  rewrite (bind_Ret _ _ _ _ _ (newEntry_run None _ s)).
  unfold Cachex.set. rewrite Hcn, andb_false_r.
  unfold Cachex.on_cache. rewrite Hc.
  match goal with
  | |- context [bind (Wrapper.Set_ w ?key (Some ?e)) _ ?s0] =>
      destruct (Wrapper_Set_one w c1 key e s0 Hl1 Hl2 eq_refl)
        as (s1 & [r err] & t1 & HS & Hc1 & _)
  end.
  exists s1, err, t1. split; [|exact Hc1].
  rewrite (bind_Ret _ _ _ _ _ HS). reflexivity.
Qed.

Lemma MSet_kvs_one_nil c (k : K) (s : World) :
  Cachex.MSet_kvs c [(k, None)] ∅ s
  = (mkWorld (env s) (S (ticks s)) (draws s) (calls1 s) (calls2 s) (loads s) (logs s),
     Ret {[Cachex.key c k := Some (newEntryAt (now_of s) None (Cachex.expireTTL c))]}).
Proof. reflexivity. Qed.

Lemma MSet_nil_dropped c w (c1 : Cacher) (k : K) (s : World) :
  Cachex.cache c = Some w -> Wrapper.cacheNil w = false ->
  Wrapper.l1 w = Some c1 -> Wrapper.l2 w = None ->
  exists s2 r2 t2,
    Cachex.MSet c [k] [None] s = (s2, Ret r2) /\
    calls1 s2 = calls1 s ++ [CMSet ∅ t2].
Proof.
  intros Hc Hcn Hl1 Hl2. unfold Cachex.MSet.
  change (negb (length [k] =? length [@None V])%nat) with false. cbv iota.
  change (zip [k] [@None V]) with [(k, @None V)].
  rewrite (bind_Ret _ _ _ _ _ (MSet_kvs_one_nil c k s)).
  unfold Cachex.mSet, Cachex.on_cache. rewrite Hc.
  match goal with
  | |- context [bind (Wrapper.MSet w {[?key := Some ?e]}) _ ?s0] =>
      destruct (Wrapper_MSet_one_nil w c1 key e s0 Hl1 Hl2 Hcn eq_refl)
        as (s2 & [r err] & t2 & HS & Hc2 & _)
  end.
  exists s2, err, t2. split; [|exact Hc2].
  rewrite (bind_Ret _ _ _ _ _ HS). reflexivity.
Qed.

Lemma MSet_value_written c w (c1 : Cacher) (k : K) (v : V) (bytes : list byte) (s : World) :
  Cachex.cache c = Some w ->
  Wrapper.l1 w = Some c1 -> Wrapper.l2 w = None ->
  Marshal (Wrapper.codec w) (Some v) = Ok bytes ->
  exists s3 r3 t3,
    Cachex.MSet c [k] [Some v] s = (s3, Ret r3) /\
    calls1 s3 = calls1 s ++
      [CMSet {[Cachex.key c k :=
                 frame_of (with_valBytes (newEntryAt (now_of s) (Some v) (Cachex.expireTTL c))
                             bytes)]} t3].
Proof.
  intros Hc Hl1 Hl2 Hm. unfold Cachex.MSet.
  change (negb (length [k] =? length [Some v])%nat) with false. cbv iota.
  change (zip [k] [Some v]) with [(k, Some v)].
  assert (Hkvs : Cachex.MSet_kvs c [(k, Some v)] ∅ s
                 = (mkWorld (env s) (S (ticks s)) (draws s) (calls1 s) (calls2 s)
                      (loads s) (logs s),
                    Ret {[Cachex.key c k :=
                            Some (newEntryAt (now_of s) (Some v) (Cachex.expireTTL c))]}))
    by reflexivity.
  rewrite (bind_Ret _ _ _ _ _ Hkvs).
  unfold Cachex.mSet, Cachex.on_cache. rewrite Hc.
  set (e := newEntryAt (now_of s) (Some v) (Cachex.expireTTL c)).
  assert (HS : Serialize (Wrapper.codec w) e
               = (with_valBytes e bytes, Ok (frame_of (with_valBytes e bytes)))).
  { unfold Serialize. simpl. rewrite Hm. reflexivity. }
  match goal with
  | |- context [bind (Wrapper.MSet w {[?key := Some e]}) _ ?s0] =>
      destruct (Wrapper_MSet_one_value w c1 key e _ _ s0 Hl1 Hl2 eq_refl HS)
        as (s3 & [r err] & t3 & HM & Hc3 & _)
  end.
  exists s3, err, t3. split; [|exact Hc3].
  rewrite (bind_Ret _ _ _ _ _ HM). reflexivity.
Qed.

End NilWrites.

(** C1 fails on the code for batch writes.  In a facade built with
    [cacheNil = true] over one store, [Set] of an absent value writes the
    nil envelope's frame to the store, and [MSet] of a value writes the
    value envelope's frame; [MSet] of an absent value hands the store an
    empty batch: [newWrapper] never sets the wrapper's own [cacheNil], so its
    batch write drops every nil envelope. *)
Theorem MSet_drops_nil_envelope {K V} (b : Builder.builder K V) cx c1 (k : K) (s : World) :
  Builder.Build b = Ok cx ->
  Builder.cacheNil b = true ->
  Builder.l1 b = Some c1 ->
  Builder.l2 b = None ->
  (exists s1 r1 t1,
      Cachex.Set_ cx k None s = (s1, Ret r1) /\
      calls1 s1 = calls1 s ++
        [CSet (Cachex.key cx k)
           (frame_of (@newEntryAt V (now_of s) None (Builder.expireTTL b))) t1]) /\
  (exists s2 r2 t2,
      Cachex.MSet cx [k] [None] s = (s2, Ret r2) /\
      calls1 s2 = calls1 s ++ [CMSet ∅ t2]) /\
  (forall v bytes,
      Marshal (Builder.codec b) (Some v) = Ok bytes ->
      exists s3 r3 t3,
        Cachex.MSet cx [k] [Some v] s = (s3, Ret r3) /\
        calls1 s3 = calls1 s ++
          [CMSet {[Cachex.key cx k :=
                     frame_of (with_valBytes
                                 (newEntryAt (now_of s) (Some v) (Builder.expireTTL b))
                                 bytes)]} t3]).
Proof.
  unfold Builder.Build. simpl.
  destruct (bool_decide (Builder.namespace b = "")); [discriminate|].
  destruct (Builder.genKeyFn b) as [fn|]; [|discriminate].
  destruct (bool_decide (Builder.l2 b ≠ None) && bool_decide (Builder.l1 b = None));
    [discriminate|].
  destruct (bool_decide (Builder.loaderFn b = None) && bool_decide (Builder.mLoaderFn b = None)
            && bool_decide (Builder.l1 b = None) && bool_decide (Builder.l2 b = None));
    [discriminate|].
  intros HB Hcn Hl1 Hl2. inversion HB as [Ecx]. clear HB. subst cx.
  split; [|split].
  - eapply Set_nil_written; [reflexivity | exact Hcn | exact Hl1 | exact Hl2].
  - eapply MSet_nil_dropped; [reflexivity | reflexivity | exact Hl1 | exact Hl2].
  - intros v bytes Hm.
    eapply MSet_value_written; [reflexivity | exact Hl1 | exact Hl2 | exact Hm].
Qed.

Lemma MSet_drops_nil_envelope_witness :
  (exists s1 r1 t1,
      Cachex.Set_ (facadeOf None 1 true) "a" None world0 = (s1, Ret r1) /\
      calls1 s1 =
        [CSet "default:a"
           [xe8; x6b; xe5; xcf; x8b; x01; x00; x00;
            x00; xf2; x05; x2a; x01; x00; x00; x00;
            x01] t1]) /\
  (exists s2 r2 t2,
      Cachex.MSet (facadeOf None 1 true) ["a"] [None] world0 = (s2, Ret r2) /\
      calls1 s2 = [CMSet ∅ t2]).
Proof.
  destruct (MSet_drops_nil_envelope (builderOf None 1 true) (facadeOf None 1 true)
              memStore "a" world0) as (H1 & H2 & _); try reflexivity.
  split; [exact H1 | exact H2].
Defined.

(** With negative caching off, [Set] of an absent value reads the clock
    and writes nothing. *)
Lemma Set_nil_skipped {K V} (c : Cachex.cachex K V) (k : K) (s : World) :
  Cachex.cacheNil c = false ->
  exists s', Cachex.Set_ c k None s = (s', Ret None) /\
             calls1 s' = calls1 s /\ calls2 s' = calls2 s.
Proof.
  intros Hcn. unfold Cachex.Set_.
  rewrite (bind_Ret _ _ _ _ _ (newEntry_run None _ s)).
  unfold Cachex.set. rewrite Hcn. eexists. repeat split; reflexivity.
Qed.

(* ================================================================== *)
(** * Further properties of the package *)

(** ** Frames read from a store *)

Module FrameFacts.
Import Bin BinFacts.

Lemma byte_bits_high (b : byte) (m : Z) : 8 <= m -> Z.testbit (Z_of_byte b) m = false.
Proof.
  intros Hm. pose proof (Z_of_byte_range b) as Hr.
  rewrite <- (Z.mod_small (Z_of_byte b) (2 ^ 8)) by lia.
  rewrite Z.testbit_mod_pow2 by lia.
  rewrite (proj2 (Z.ltb_ge m 8)) by lia. reflexivity.
Qed.

Lemma shifted_byte_bits (b : byte) (k n : Z) :
  0 <= k -> 0 <= n ->
  Z.testbit (Z.shiftl (Z_of_byte b) k) n
  = (k <=? n) && (n <? k + 8) && Z.testbit (Z_of_byte b) (n - k).
Proof.
  intros Hk Hn. rewrite Z.shiftl_spec by lia.
  destruct (Z.leb_spec k n) as [Hle|Hlt].
  - destruct (Z.ltb_spec n (k + 8)) as [Hin|Hout]; [reflexivity|].
    rewrite byte_bits_high by lia. reflexivity.
  - rewrite Z.testbit_neg_r by lia. reflexivity.
Qed.

(** The i-th little-endian digit of a decoded word is the i-th byte. *)
Lemma digit_of_Uint64 (b0 b1 b2 b3 b4 b5 b6 b7 : byte) (i : nat) :
  (i < 8)%nat ->
  Z.shiftr (Uint64 [b0; b1; b2; b3; b4; b5; b6; b7]) (8 * Z.of_nat i) mod 2 ^ 8
  = at_ [b0; b1; b2; b3; b4; b5; b6; b7] i.
Proof.
  intros Hi. unfold Uint64.
  rewrite <- (Z.shiftl_0_r (at_ [b0; b1; b2; b3; b4; b5; b6; b7] 0)).
  pose proof (Z_of_byte_range (nth i [b0; b1; b2; b3; b4; b5; b6; b7] x00)) as Hr.
  apply Z.bits_inj'. intros n Hn.
  rewrite Z.testbit_mod_pow2 by lia.
  destruct (Z.ltb_spec n 8) as [Hlt|Hge].
  - rewrite Z.shiftr_spec by lia. rewrite !Z.lor_spec.
    unfold at_. rewrite !shifted_byte_bits by lia.
    do 8 (destruct i as [|i];
          [simpl nth; simpl Z.of_nat; decide_cmp; simpl;
           rewrite ?orb_false_r; f_equal; lia|]).
    lia.
  - unfold at_. rewrite byte_bits_high by lia. reflexivity.
Qed.

Lemma byte_of_Z_mod (z : Z) : byte_of_Z (z mod 2 ^ 8) = byte_of_Z z.
Proof.
  unfold byte_of_Z. change (2 ^ 8) with 256. rewrite Z.mod_mod by lia. reflexivity.
Qed.

Lemma PutUint64_Uint64 (b0 b1 b2 b3 b4 b5 b6 b7 : byte) :
  PutUint64 (Uint64 [b0; b1; b2; b3; b4; b5; b6; b7]) = [b0; b1; b2; b3; b4; b5; b6; b7].
Proof.
  set (l := [b0; b1; b2; b3; b4; b5; b6; b7]).
  assert (H : forall i, (i < 8)%nat ->
              byte_of_Z (Z.shiftr (Uint64 l) (8 * Z.of_nat i)) = nth i l x00).
  { intros i Hi. rewrite <- byte_of_Z_mod. unfold l. rewrite digit_of_Uint64 by exact Hi.
    apply byte_of_Z_of_byte. }
  pose proof (H 0%nat ltac:(lia)) as H0. pose proof (H 1%nat ltac:(lia)) as H1.
  pose proof (H 2%nat ltac:(lia)) as H2. pose proof (H 3%nat ltac:(lia)) as H3.
  pose proof (H 4%nat ltac:(lia)) as H4. pose proof (H 5%nat ltac:(lia)) as H5.
  pose proof (H 6%nat ltac:(lia)) as H6. pose proof (H 7%nat ltac:(lia)) as H7.
  change (8 * Z.of_nat 0) with 0 in H0. rewrite Z.shiftr_0_r in H0.
  change (8 * Z.of_nat 1) with 8 in H1. change (8 * Z.of_nat 2) with 16 in H2.
  change (8 * Z.of_nat 3) with 24 in H3. change (8 * Z.of_nat 4) with 32 in H4.
  change (8 * Z.of_nat 5) with 40 in H5. change (8 * Z.of_nat 6) with 48 in H6.
  change (8 * Z.of_nat 7) with 56 in H7.
  unfold PutUint64. rewrite H0, H1, H2, H3, H4, H5, H6, H7. reflexivity.
Qed.

Lemma PutUint64_mod (v : Z) : PutUint64 (v mod 2 ^ 64) = PutUint64 v.
Proof.
  assert (H : forall k, 0 <= k -> k + 8 <= 64 ->
              byte_of_Z (Z.shiftr (v mod 2 ^ 64) k) = byte_of_Z (Z.shiftr v k)).
  { intros k Hk Hk8. rewrite <- byte_of_Z_mod, <- (byte_of_Z_mod (Z.shiftr v k)).
    f_equal. apply Z.bits_inj'. intros n Hn.
    rewrite !Z.testbit_mod_pow2 by lia. rewrite !Z.shiftr_spec by lia.
    rewrite Z.testbit_mod_pow2 by lia.
    destruct (Z.ltb_spec n 8); [|reflexivity].
    rewrite (proj2 (Z.ltb_lt (n + k) 64)) by lia. reflexivity. }
  pose proof (H 0 ltac:(lia) ltac:(lia)) as H0. rewrite !Z.shiftr_0_r in H0.
  unfold PutUint64.
  rewrite H0, (H 8), (H 16), (H 24), (H 32), (H 40), (H 48), (H 56) by lia.
  reflexivity.
Qed.

Lemma to_uint64_to_int64 (u : Z) : to_uint64 (to_int64 u) = u mod 2 ^ 64.
Proof.
  unfold to_uint64, to_int64.
  assert (Hr : 0 <= u mod 2 ^ 64 < 2 ^ 64) by (apply Z.mod_pos_bound; lia).
  destruct (u mod 2 ^ 64 <? 2 ^ 63).
  - apply Z.mod_mod. lia.
  - replace (u mod 2 ^ 64 - 2 ^ 64) with (u mod 2 ^ 64 + (-1) * 2 ^ 64) by lia.
    rewrite Z.mod_add by lia. apply Z.mod_mod. lia.
Qed.

Lemma PutUint64_back (b0 b1 b2 b3 b4 b5 b6 b7 : byte) :
  PutUint64 (to_uint64 (to_int64 (Uint64 [b0; b1; b2; b3; b4; b5; b6; b7])))
  = [b0; b1; b2; b3; b4; b5; b6; b7].
Proof. rewrite to_uint64_to_int64, PutUint64_mod. apply PutUint64_Uint64. Qed.

End FrameFacts.

Section StoredFrames.
Import Bin BinFacts FrameFacts.

(** X1: a frame of at least 17 bytes read from a store deserializes to an
    envelope without a value pointer whose payload is the rest of the frame,
    and serializing that envelope, with any codec, gives the frame back and
    leaves the envelope as it is. *)
Theorem stored_frame_round_trip {V} (bytes : list byte) :
  (17 <= length bytes)%nat ->
  exists d : entry V,
    deserializeEntry bytes = Some d /\
    val d = None /\
    valBytes d = drop 17 bytes /\
    forall c : Codec V, Serialize c d = (d, Ok bytes).
Proof.
  intros Hlen.
  do 17 (destruct bytes as [|? bytes]; [simpl in Hlen; lia|]).
  eexists. split; [reflexivity|]. split; [reflexivity|]. split; [reflexivity|].
  intros c. rewrite Serialize_val_None by reflexivity.
  f_equal. f_equal. cbn - [PutUint64 Uint64 to_uint64 to_int64 app].
  rewrite !PutUint64_back. reflexivity.
Qed.

Lemma stored_frame_round_trip_witness :
  exists d : entry (list byte),
    deserializeEntry helloFrame = Some d /\
    val d = None /\
    valBytes d = hello /\
    forall c : Codec (list byte), Serialize c d = (d, Ok helloFrame).
Proof.
  apply (@stored_frame_round_trip (list byte) helloFrame). simpl. lia.
Defined.

(** X2: once an envelope has been serialized with a non-empty payload, the
    payload is kept in the envelope: serializing it again, with whatever
    codec, gives the same frame without consulting the codec and without
    changing the envelope. *)
Theorem Serialize_uses_cached_payload {V} (c c2 : Codec V) (e e' : entry V)
    (frame : list byte) :
  Serialize c e = (e', Ok frame) ->
  valBytes e' <> [] ->
  Serialize c2 e' = (e', Ok frame).
Proof.
  intros HS Hne.
  destruct (Serialize_fields c e e' frame HS) as (E1 & E2 & E3 & _ & ->).
  unfold Serialize.
  assert (Hlen : (length (valBytes e') =? 0)%nat = false).
  { destruct (valBytes e'); [congruence | reflexivity]. }
  rewrite Hlen. cbv beta iota. rewrite andb_false_l, E1, E2, E3. reflexivity.
Qed.

Lemma Serialize_uses_cached_payload_witness :
  Serialize brokenCodec (with_valBytes helloEntry hello)
  = (with_valBytes helloEntry hello, Ok helloFrame).
Proof.
  apply (Serialize_uses_cached_payload bytesDirect brokenCodec helloEntry
           (with_valBytes helloEntry hello) helloFrame).
  - vm_compute. reflexivity.
  - discriminate.
Defined.

(** X3: the envelope [newEntry] makes for an absent value is a nil marker
    under every codec, even one that refuses everything: [Value] is nil with
    no error, [Serialize] succeeds with a frame of exactly 17 bytes, and the
    frame reads back as a nil marker with the same createAt and ttl. *)
Theorem nil_envelope_needs_no_codec {V} (c : Codec V) (now t : Z) :
  int64_range now -> int64_range t ->
  let e := @newEntryAt V now None t in
  IsNil e = true /\
  Value (Some e) c = Ret (None, None) /\
  Serialize c e = (e, Ok (frame_of e)) /\
  length (frame_of e) = 17%nat /\
  exists d : entry V,
    deserializeEntry (frame_of e) = Some d /\
    createAt d = now /\ ttl d = t /\ IsNil d = true /\
    Value (Some d) c = Ret (None, None).
Proof.
  intros Hn Ht e.
  split; [reflexivity|]. split; [reflexivity|].
  split; [apply Serialize_val_None; reflexivity|].
  split; [reflexivity|].
  unfold frame_of. rewrite deserializeEntry_frame. eexists. split; [reflexivity|].
  simpl createAt. simpl ttl.
  rewrite !to_int64_mod, !to_int64_to_uint64 by assumption.
  repeat split.
Qed.

Lemma nil_envelope_needs_no_codec_witness :
  Value (Some (@newEntryAt (list byte) 1700000000000 None 5000000000)) brokenCodec
  = Ret (None, None) /\
  length (frame_of (@newEntryAt (list byte) 1700000000000 None 5000000000)) = 17%nat.
Proof.
  destruct (@nil_envelope_needs_no_codec (list byte) brokenCodec 1700000000000 5000000000)
    as (_ & H1 & _ & H2 & _).
  - unfold int64_range. lia.
  - unfold int64_range. lia.
  - split; [exact H1 | exact H2].
Defined.

(** X4: expiry never reverts: an envelope that [IsExpired] reports expired
    at one clock reading is reported expired at every later reading. *)
Theorem expiry_never_reverts {V} (e : entry V) (s s1 s2 : World) :
  IsExpired e s = (s1, Ret true) ->
  now_of s <= now_of s2 ->
  exists s3, IsExpired e s2 = (s3, Ret true).
Proof.
  unfold IsExpired, expiredAt.
  destruct (ttl e <=? 0); [discriminate|].
  unfold bind, UnixMilli, ret. fold (now_of s). fold (now_of s2).
  destruct (Z.ltb_spec (add64 (createAt e) (Milliseconds (ttl e))) (now_of s));
    [|discriminate].
  intros _ Hle.
  rewrite (proj2 (Z.ltb_lt (add64 (createAt e) (Milliseconds (ttl e))) (now_of s2)))
    by lia.
  eexists. reflexivity.
Qed.

Lemma expiry_never_reverts_witness :
  exists s3, IsExpired helloStored worldStale = (s3, Ret true).
Proof.
  apply (expiry_never_reverts helloStored
           (mkWorld (mkEnv (fun _ => 1700000005001) (fun _ => 0) (fun d => d)) 0 0 [] [] 0 [])
           (mkWorld (mkEnv (fun _ => 1700000005001) (fun _ => 0) (fun d => d)) 1 0 [] [] 0 [])
           worldStale).
  - vm_compute. reflexivity.
  - vm_compute. discriminate.
Defined.

(** What a codec that reads back a value gives for the envelope of that
    value: the frame carries the marshalled value and decodes to it. *)
Lemma value_envelope_reads_back {V} (c : Codec V) (now t : Z) (v : V) (b : list byte) :
  int64_range now -> int64_range t ->
  Marshal c (Some v) = Ok b ->
  Unmarshal c b = Ok (Some v) ->
  let e := newEntryAt now (Some v) t in
  Serialize c e = (with_valBytes e b, Ok (frame_of (with_valBytes e b))) /\
  exists d : entry V,
    deserializeEntry (frame_of (with_valBytes e b)) = Some d /\
    createAt d = now /\ ttl d = t /\ IsNil d = false /\ valBytes d = b /\
    Value (Some d) c = Ret (Some v, None).
Proof.
  intros Hn Ht Hm Hu e. split.
  - unfold Serialize. simpl. rewrite Hm. reflexivity.
  - unfold frame_of. rewrite deserializeEntry_frame. eexists. split; [reflexivity|].
    simpl createAt. simpl ttl.
    rewrite !to_int64_mod, !to_int64_to_uint64 by assumption.
    repeat split. unfold Value. simpl. rewrite Hu. reflexivity.
Qed.

Lemma length_list_byte_of_string (v : string) :
  length (String.list_byte_of_string v) = String.length v.
Proof.
  unfold String.list_byte_of_string. rewrite length_map.
  induction v as [|a v IH]; simpl; [reflexivity | rewrite IH; reflexivity].
Qed.

(** X5: the two raw codecs of the package refuse a nil value, decode every
    input, and read back what they write; so every value envelope made by
    [newEntry] serializes under them without error, and its frame decodes to
    the same value with the same createAt and ttl. *)
Theorem raw_codecs_round_trip (now t : Z) :
  int64_range now -> int64_range t ->
  (exists err, Marshal bytesDirect None = Err err) /\
  (exists err, Marshal rawString None = Err err) /\
  (forall v : list byte,
      exists (e' d : entry (list byte)) (frame : list byte),
        Serialize bytesDirect (newEntryAt now (Some v) t) = (e', Ok frame) /\
        length frame = (17 + length v)%nat /\
        deserializeEntry frame = Some d /\
        createAt d = now /\ ttl d = t /\
        Value (Some d) bytesDirect = Ret (Some v, None)) /\
  (forall v : string,
      exists (e' d : entry string) (frame : list byte),
        Serialize rawString (newEntryAt now (Some v) t) = (e', Ok frame) /\
        length frame = (17 + String.length v)%nat /\
        deserializeEntry frame = Some d /\
        createAt d = now /\ ttl d = t /\
        Value (Some d) rawString = Ret (Some v, None)).
Proof.
  intros Hn Ht.
  split; [eexists; reflexivity|]. split; [eexists; reflexivity|]. split.
  - intros v.
    destruct (value_envelope_reads_back bytesDirect now t v v Hn Ht eq_refl eq_refl)
      as (HS & d & Hd & Hc & Htt & _ & _ & Hv).
    eexists _, d, _. split; [exact HS|]. split; [|repeat split; assumption].
    unfold frame_of. rewrite !length_app, !length_PutUint64. simpl. lia.
  - intros v.
    assert (Hu : Unmarshal rawString (String.list_byte_of_string v) = Ok (Some v)).
    { simpl. rewrite String.string_of_list_byte_of_string. reflexivity. }
    destruct (value_envelope_reads_back rawString now t v _ Hn Ht eq_refl Hu)
      as (HS & d & Hd & Hc & Htt & _ & _ & Hv).
    eexists _, d, _. split; [exact HS|]. split; [|repeat split; assumption].
    unfold frame_of. rewrite !length_app, !length_PutUint64. simpl.
    rewrite length_list_byte_of_string. lia.
Qed.

Lemma raw_codecs_round_trip_witness :
  exists (e' d : entry string) (frame : list byte),
    Serialize rawString greetingEntry = (e', Ok frame) /\
    length frame = 22%nat /\
    deserializeEntry frame = Some d /\
    createAt d = 1700000000000 /\ ttl d = 5000000000 /\
    Value (Some d) rawString = Ret (Some greeting, None).
Proof.
  destruct (raw_codecs_round_trip 1700000000000 5000000000) as (_ & _ & _ & H).
  - unfold int64_range. lia.
  - unfold int64_range. lia.
  - exact (H greeting).
Defined.

End StoredFrames.

(** ** The wrapper's writes and deletes *)

Section WrapperWrites.
Import Bin BinFacts.

Lemma runs_ret {A} (a : A) (Q : World -> A -> World -> Prop) :
  (forall s, Q s a s) -> runs (ret a) Q.
Proof. intros H s. exists s, a. split; [reflexivity | apply H]. Qed.

Lemma runs_bind {A B} (m : M A) (k : A -> M B)
    (Q1 : World -> A -> World -> Prop) (Q2 : World -> B -> World -> Prop) :
  runs m Q1 ->
  (forall s a s1, Q1 s a s1 -> exists s' b, k a s1 = (s', Ret b) /\ Q2 s b s') ->
  runs (bind m k) Q2.
Proof.
  intros Hm Hk s. destruct (Hm s) as (s1 & a & Em & HQ).
  destruct (Hk s a s1 HQ) as (s' & b & Ek & HQ2).
  exists s', b. split; [|exact HQ2]. rewrite (bind_Ret _ _ _ _ _ Em). exact Ek.
Qed.


(** Serializing a second time with the same codec changes nothing. *)
Lemma Serialize_again {V} (c : Codec V) (e e' : entry V) (frame : list byte) :
  Serialize c e = (e', Ok frame) -> Serialize c e' = (e', Ok frame).
Proof.
  intros HS.
  pose proof (Serialize_payload c e e' frame HS) as Hpay.
  destruct (Serialize_fields c e e' frame HS) as (E1 & E2 & E3 & E4 & ->).
  unfold Serialize. rewrite E4.
  destruct (valBytes e') as [|b0 bs] eqn:Eb'.
  - destruct (val e) as [v|] eqn:Ev.
    + assert (Hm : Marshal c (Some v) = Ok []).
      { destruct (valBytes e) as [|x xs]; [exact Hpay | discriminate]. }
      simpl. rewrite Hm.
      replace (with_valBytes e' []) with e'
        by (destruct e'; simpl in *; subst; reflexivity).
      rewrite Eb', E1, E2, E3. reflexivity.
    + simpl. rewrite Eb', E1, E2, E3. reflexivity.
  - simpl. rewrite Eb', E1, E2, E3. reflexivity.
Qed.

Lemma jitter_range (s : World) : 0 <= jitter s < 1000000000.
Proof.
  unfold jitter.
  assert (0 <= rand63 (env s) (draws s) mod 1000 < 1000) by (apply Z.mod_pos_bound; lia).
  lia.
Qed.

Lemma getDelTTL_1_run {V} (w : Wrapper.wrapper V) (s : World) :
  Wrapper.getDelTTL w 1 s = (drawn s, Ret (ttl_L1 w s)).
Proof.
  unfold Wrapper.getDelTTL, ttl_L1, jitter. simpl. unfold bind, Int63n, ret.
  assert (0 <= rand63 (env s) (draws s) mod 1000 < 1000) by (apply Z.mod_pos_bound; lia).
  rewrite to_int64_small by (unfold int64_range; lia). reflexivity.
Qed.

Lemma getDelTTL_2_run {V} (w : Wrapper.wrapper V) (s : World) :
  Wrapper.getDelTTL w 2 s = (drawn s, Ret (ttl_L2 w s)).
Proof.
  unfold Wrapper.getDelTTL, ttl_L2, jitter. simpl.
  unfold bind, Int63n, ret, Wrapper.times1_3. simpl.
  assert (0 <= rand63 (env s) (draws s) mod 1000 < 1000) by (apply Z.mod_pos_bound; lia).
  rewrite (to_int64_small (rand63 (env s) (draws s) mod 1000 * 1000000))
    by (unfold int64_range; lia).
  reflexivity.
Qed.

Lemma set_serialized {V} (w : Wrapper.wrapper V) lv c key (e e' : entry V) frame t s :
  Wrapper.cacher w lv = Some c ->
  Serialize (Wrapper.codec w) e = (e', Ok frame) ->
  Wrapper.set w lv key (Some e) t s
  = (record_call lv (CSet key frame t) s,
     Ret (Some e', cSet c (hist lv s) key frame t)).
Proof.
  intros Hc HS. unfold Wrapper.set. rewrite Hc, HS. reflexivity.
Qed.

Lemma set_unserializable {V} (w : Wrapper.wrapper V) lv key (e e' : entry V) err t s :
  Serialize (Wrapper.codec w) e = (e', Err err) ->
  Wrapper.set w lv key (Some e) t s
  = (s, Ret (Some e, layer_error (Wrapper.cacher w lv) err)).
Proof.
  intros HS. unfold Wrapper.set, layer_error.
  destruct (Wrapper.cacher w lv); [|reflexivity].
  rewrite HS.
  assert (e' = e).
  { unfold Serialize in HS.
    destruct ((length (valBytes e) =? 0)%nat && bool_decide (val e ≠ None));
      [destruct (Marshal (Wrapper.codec w) (val e))|]; inversion HS; reflexivity. }
  subst e'. reflexivity.
Qed.

Lemma both_errors_ret {A} (mk : option error -> option error -> error)
    (a b : option error) (x : A) (s : World) :
  (if bool_decide (a ≠ None) || bool_decide (b ≠ None)
   then ret (x, Some (mk a b)) else ret (x, None)) s
  = (s, Ret (x, both_errors mk a b)).
Proof. destruct a, b; reflexivity. Qed.

Lemma both_errors_ret' (mk : option error -> option error -> error)
    (a b : option error) (s : World) :
  (if bool_decide (a ≠ None) || bool_decide (b ≠ None)
   then ret (Some (mk a b)) else ret None) s
  = (s, Ret (both_errors mk a b)).
Proof. destruct a, b; reflexivity. Qed.

(** X6: the delete-TTL of a write is the configured one (for L2, scaled by
    1.3) plus a jitter drawn afresh and below one second: for L1 it lies in
    [delTTL, delTTL + 1s) whenever that range fits an int64; a level other
    than 1 or 2 panics before any draw. *)
Theorem getDelTTL_bounds {V} (w : Wrapper.wrapper V) (s : World) :
  (forall level, level <> 1 -> level <> 2 ->
     Wrapper.getDelTTL w level s = (s, Panic "cachex: invalid level")) /\
  (int64_range (Wrapper.delTTL w) ->
   int64_range (Wrapper.delTTL w + 1000000000) ->
   exists t, Wrapper.getDelTTL w 1 s = (drawn s, Ret t) /\
             Wrapper.delTTL w <= t < Wrapper.delTTL w + 1000000000) /\
  (let d := to_int64 (scale1_3 (env s) (Wrapper.delTTL w)) in
   int64_range (d + 1000000000) ->
   exists t, Wrapper.getDelTTL w 2 s = (drawn s, Ret t) /\
             d <= t < d + 1000000000).
Proof.
  pose proof (jitter_range s) as Hj.
  split; [|split].
  - intros level H1 H2. unfold Wrapper.getDelTTL.
    rewrite (proj2 (Z.eqb_neq level 1)), (proj2 (Z.eqb_neq level 2)) by assumption.
    reflexivity.
  - intros Hd Hd1. exists (ttl_L1 w s). split; [apply getDelTTL_1_run|].
    unfold ttl_L1. rewrite add64_exact by (unfold int64_range in *; lia). lia.
  - intros d Hd1. exists (ttl_L2 w s). split; [apply getDelTTL_2_run|].
    unfold ttl_L2. fold d.
    pose proof (to_int64_range (scale1_3 (env s) (Wrapper.delTTL w))) as Hr. fold d in Hr.
    rewrite add64_exact by (unfold int64_range in *; lia). lia.
Qed.

Lemma getDelTTL_bounds_witness :
  exists t, Wrapper.getDelTTL wrapper0 1 world0 = (drawn world0, Ret t) /\
            60000000000 <= t < 61000000000.
Proof.
  destruct (getDelTTL_bounds wrapper0 world0) as (_ & H & _).
  apply H; unfold int64_range; simpl; lia.
Defined.

(** X7: [Set] on a wrapper with both stores writes the same frame under
    the same key to L2 and to L1, each with its own delete-TTL (L2's jitter
    is drawn first); the write to L1 is made whatever L2 answered, and the
    call fails exactly when one of the stores refused, with both answers in
    the error. *)
Theorem Set_writes_both_layers {V} (w : Wrapper.wrapper V) (c1 c2 : Cacher)
    (key : string) (e e' : entry V) (frame : list byte) (s : World) :
  Wrapper.l1 w = Some c1 ->
  Wrapper.l2 w = Some c2 ->
  Serialize (Wrapper.codec w) e = (e', Ok frame) ->
  exists s',
    Wrapper.Set_ w key (Some e) s
    = (s', Ret (Some e',
                both_errors ErrSet
                  (cSet c1 (calls1 s) key frame (ttl_L1 w (drawn s)))
                  (cSet c2 (calls2 s) key frame (ttl_L2 w s)))) /\
    calls2 s' = calls2 s ++ [CSet key frame (ttl_L2 w s)] /\
    calls1 s' = calls1 s ++ [CSet key frame (ttl_L1 w (drawn s))] /\
    draws s' = S (S (draws s)).
Proof.
  intros Hl1 Hl2 HS. unfold Wrapper.Set_.
  rewrite (bind_Ret _ _ _ _ _ (getDelTTL_2_run w s)).
  rewrite (bind_Ret _ _ _ _ _ (set_serialized w L2 c2 key e e' frame _ _ Hl2 HS)).
  cbv beta iota.
  rewrite (bind_Ret _ _ _ _ _ (getDelTTL_1_run w _)).
  rewrite (bind_Ret _ _ _ _ _
             (set_serialized w L1 c1 key e' e' frame _ _ Hl1 (Serialize_again _ _ _ _ HS))).
  cbv beta iota. rewrite both_errors_ret.
  eexists. split; [reflexivity|]. repeat split.
Qed.

Lemma Set_writes_both_layers_witness :
  exists s',
    Wrapper.Set_ wrapperL2down "k" (Some helloEntry) world0
    = (s', Ret (Some (with_valBytes helloEntry hello),
                Some (ErrSet None (Some (UserErr "store down"))))) /\
    calls2 s' = [CSet "k" helloFrame (ttl_L2 wrapperL2down world0)] /\
    calls1 s' = [CSet "k" helloFrame (ttl_L1 wrapperL2down (drawn world0))] /\
    draws s' = 2%nat.
Proof.
  apply (Set_writes_both_layers wrapperL2down memStore failingStore "k" helloEntry
           (with_valBytes helloEntry hello) helloFrame world0);
    [reflexivity | reflexivity | vm_compute; reflexivity].
Defined.

(** X8: when the envelope does not serialize, [Set] calls no store: each
    configured layer reports the marshal error, no key is written, and with
    no store at all the call succeeds without ever consulting the codec. *)
Theorem Set_unserializable_writes_nothing {V} (w : Wrapper.wrapper V)
    (key : string) (e e' : entry V) (err : error) (s : World) :
  Serialize (Wrapper.codec w) e = (e', Err err) ->
  exists s',
    Wrapper.Set_ w key (Some e) s
    = (s', Ret (Some e,
                both_errors ErrSet (layer_error (Wrapper.l1 w) err)
                                   (layer_error (Wrapper.l2 w) err))) /\
    calls1 s' = calls1 s /\ calls2 s' = calls2 s.
Proof.
  intros HS. unfold Wrapper.Set_.
  rewrite (bind_Ret _ _ _ _ _ (getDelTTL_2_run w s)).
  rewrite (bind_Ret _ _ _ _ _ (set_unserializable w L2 key e e' err _ _ HS)).
  cbv beta iota.
  rewrite (bind_Ret _ _ _ _ _ (getDelTTL_1_run w _)).
  rewrite (bind_Ret _ _ _ _ _ (set_unserializable w L1 key e e' err _ _ HS)).
  cbv beta iota. rewrite both_errors_ret.
  eexists. split; [reflexivity|]. split; reflexivity.
Qed.

Lemma Set_unserializable_writes_nothing_witness :
  exists s',
    Wrapper.Set_ wrapperBroken "k" (Some helloEntry) world0
    = (s', Ret (Some helloEntry,
                Some (ErrSet (Some (ErrMarshal (UserErr "marshal refused")))
                             (Some (ErrMarshal (UserErr "marshal refused")))))) /\
    calls1 s' = [] /\ calls2 s' = [].
Proof.
  apply (Set_unserializable_writes_nothing wrapperBroken "k" helloEntry helloEntry
           (ErrMarshal (UserErr "marshal refused")) world0).
  reflexivity.
Defined.

End WrapperWrites.

(** ** Deletes and reads of the wrapper *)

Section WrapperReads.
Import Bin BinFacts.

(** X9: [Delete] and [MDelete] pass the delete on to L2 and to L1, to L1
    whatever L2 answered, and fail exactly when one of the stores refused;
    [MDelete] of no key calls no store and succeeds. *)
Theorem Delete_reaches_both_layers {V} (w : Wrapper.wrapper V) (c1 c2 : Cacher)
    (s : World) :
  Wrapper.l1 w = Some c1 ->
  Wrapper.l2 w = Some c2 ->
  (forall key,
      Wrapper.Delete w key s
      = (record_call L1 (CDelete key) (record_call L2 (CDelete key) s),
         Ret (both_errors ErrDelete (cDelete c1 (calls1 s) key)
                                    (cDelete c2 (calls2 s) key)))) /\
  (forall keys, keys <> [] ->
      Wrapper.MDelete w keys s
      = (record_call L1 (CMDelete keys) (record_call L2 (CMDelete keys) s),
         Ret (both_errors ErrMDelete (cMDelete c1 (calls1 s) keys)
                                     (cMDelete c2 (calls2 s) keys)))) /\
  Wrapper.MDelete w [] s = (s, Ret None).
Proof.
  intros Hl1 Hl2. split; [|split].
  - intros key. unfold Wrapper.Delete, Wrapper.delete. simpl. rewrite Hl1, Hl2.
    unfold bind, on_store. simpl. apply both_errors_ret'.
  - intros keys Hne. unfold Wrapper.MDelete, Wrapper.mDelete. simpl. rewrite Hl1, Hl2.
    destruct keys as [|k0 rest]; [congruence|].
    unfold bind, on_store. simpl. apply both_errors_ret'.
  - unfold Wrapper.MDelete, Wrapper.mDelete. simpl. rewrite Hl1, Hl2. reflexivity.
Qed.

Lemma Delete_reaches_both_layers_witness :
  Wrapper.Delete wrapperL2down "k" world0
  = (mkWorld env0 0 0 [CDelete "k"] [CDelete "k"] 0 [],
     Ret (Some (ErrDelete None (Some (UserErr "store down"))))).
Proof.
  exact (proj1 (Delete_reaches_both_layers wrapperL2down memStore failingStore world0
                  eq_refl eq_refl) "k").
Defined.

(** X10: the wrapper reads a layer as a miss, never as a failure: with no
    store configured nothing is called; a store error is logged as a warning
    and read as a miss; a nil value and a value shorter than a frame header
    are misses too. *)
Theorem get_reads_failures_as_misses {V} (w : Wrapper.wrapper V) (lv : layer)
    (key : string) (s : World) :
  (Wrapper.cacher w lv = None -> Wrapper.get w lv key s = (s, Ret None)) /\
  (forall c err,
      Wrapper.cacher w lv = Some c -> cGet c (hist lv s) key = Err err ->
      exists s', Wrapper.get w lv key s = (s', Ret None) /\
                 logs s' = logs s ++ [WarnGet err] /\
                 hist lv s' = hist lv s ++ [CGet key]) /\
  (forall c,
      Wrapper.cacher w lv = Some c -> cGet c (hist lv s) key = Ok None ->
      Wrapper.get w lv key s = (record_call lv (CGet key) s, Ret None)) /\
  (forall c bytes,
      Wrapper.cacher w lv = Some c -> cGet c (hist lv s) key = Ok (Some bytes) ->
      (length bytes < 17)%nat ->
      Wrapper.get w lv key s = (record_call lv (CGet key) s, Ret None)).
Proof.
  split; [|split; [|split]].
  - intros Hc. unfold Wrapper.get. rewrite Hc. reflexivity.
  - intros c err Hc Hg. unfold Wrapper.get. rewrite Hc.
    unfold bind, on_store. rewrite Hg. simpl.
    eexists. split; [reflexivity|]. destruct lv; split; reflexivity.
  - intros c Hc Hg. unfold Wrapper.get. rewrite Hc.
    unfold bind, on_store. rewrite Hg. reflexivity.
  - intros c bytes Hc Hg Hlen. unfold Wrapper.get. rewrite Hc.
    unfold bind, on_store. rewrite Hg. unfold ret.
    rewrite deserializeEntry_short by exact Hlen. reflexivity.
Qed.

Lemma get_reads_failures_as_misses_witness :
  exists s', @Wrapper.get (list byte) wrapperL2down L2 "k" world0 = (s', Ret None) /\
             logs s' = [WarnGet (UserErr "store down")] /\
             calls2 s' = [CGet "k"].
Proof.
  destruct (get_reads_failures_as_misses wrapperL2down L2 "k" world0) as (_ & H & _).
  exact (H failingStore (UserErr "store down") eq_refl eq_refl).
Defined.

End WrapperReads.

(** ** Batch writes of the wrapper *)

Section WrapperBatch.
Context {V : Type}.
Implicit Types (w : Wrapper.wrapper V).

(** What the loop of [mSet] puts in the batch: frames of envelopes of the
    list that are not skipped. *)
Lemma mSet_range_data w (l : list (string * option (entry V))) :
  forall kvs data kvs' data',
    Wrapper.mSet_range w l kvs data = (kvs', Ok data') ->
    forall k b, data' !! k = Some b ->
      data !! k = Some b \/
      exists e e', (k, Some e) ∈ l /\
                   (IsNil e && negb (Wrapper.cacheNil w)) = false /\
                   Serialize (Wrapper.codec w) e = (e', Ok b).
Proof.
  induction l as [|[k0 [v|]] rest IH]; intros kvs data kvs' data' H k b Hb.
  - inversion H; subst. left. exact Hb.
  - simpl in H.
    destruct (IsNil v && negb (Wrapper.cacheNil w)) eqn:Eskip.
    + destruct (IH _ _ _ _ H k b Hb) as [Hd|(e & e' & Hin & Hs & HS)]; [left; exact Hd|].
      right. exists e, e'. split; [right; exact Hin | split; assumption].
    + destruct (Serialize (Wrapper.codec w) v) as [v' [bytes|err]] eqn:ES; [|discriminate].
      destruct (IH _ _ _ _ H k b Hb) as [Hd|(e & e' & Hin & Hs & HS)].
      * destruct (decide (k0 = k)) as [->|Hne].
        -- rewrite lookup_insert_eq in Hd. inversion Hd; subst.
           right. exists v, v'. split; [left | split; assumption].
        -- rewrite lookup_insert_ne in Hd by exact Hne. left. exact Hd.
      * right. exists e, e'. split; [right; exact Hin | split; assumption].
  - simpl in H.
    destruct (IH _ _ _ _ H k b Hb) as [Hd|(e & e' & Hin & Hs & HS)]; [left; exact Hd|].
    right. exists e, e'. split; [right; exact Hin | split; assumption].
Qed.

(** An envelope of the list that is to be written and does not serialize
    stops the loop with an error. *)
Lemma mSet_range_fails w (l : list (string * option (entry V))) k e e' err :
  (k, Some e) ∈ l ->
  (IsNil e && negb (Wrapper.cacheNil w)) = false ->
  Serialize (Wrapper.codec w) e = (e', Err err) ->
  forall kvs data, exists kvs' err',
    Wrapper.mSet_range w l kvs data = (kvs', Err err').
Proof.
  intros Hin Hskip HS.
  induction l as [|[k0 [v|]] rest IH]; intros kvs data.
  - inversion Hin.
  - simpl. apply elem_of_cons in Hin. destruct Hin as [Heq|Hin].
    + inversion Heq; subst. rewrite Hskip, HS. eexists _, _. reflexivity.
    + destruct (IsNil v && negb (Wrapper.cacheNil w)); [apply IH; exact Hin|].
      destruct (Serialize (Wrapper.codec w) v) as [v' [bytes|err0]].
      * apply IH. exact Hin.
      * eexists _, _. reflexivity.
  - simpl. apply elem_of_cons in Hin. destruct Hin as [Heq|Hin]; [discriminate|].
    apply IH. exact Hin.
Qed.

End WrapperBatch.

(** X11: a wrapper made by [newWrapper] never puts a nil marker in a batch
    write: [mSet] makes at most one call to the store, and every frame of
    that call is the frame of a non-nil-marker envelope of the batch, stored
    under that envelope's key. *)
Theorem mSet_writes_only_value_envelopes {V} (l1 l2 : option Cacher) (d : Z)
    (cd : Codec V) (lv : layer) (kvs kvs' : gmap string (option (entry V)))
    (t : Z) (err : option error) (s s' : World) :
  Wrapper.mSet (Wrapper.newWrapper l1 l2 d cd) lv kvs t s = (s', Ret (kvs', err)) ->
  hist lv s' = hist lv s \/
  exists data,
    hist lv s' = hist lv s ++ [CMSet data t] /\
    forall k b, data !! k = Some b ->
      exists e e', kvs !! k = Some (Some e) /\ IsNil e = false /\
                   Serialize cd e = (e', Ok b).
Proof.
  set (w := Wrapper.newWrapper l1 l2 d cd).
  unfold Wrapper.mSet.
  destruct (Wrapper.cacher w lv) as [c|]; [|intros H; inversion H; left; reflexivity].
  destruct (size kvs =? 0)%nat; [intros H; inversion H; left; reflexivity|].
  destruct (Wrapper.mSet_range w (map_to_list kvs) kvs ∅) as [kvs1 [data|e0]] eqn:ER;
    [|intros H; inversion H; left; reflexivity].
  unfold bind, on_store. intros H. inversion H; subst. right.
  exists data. split; [destruct lv; reflexivity|].
  intros k b Hb.
  destruct (mSet_range_data w _ _ _ _ _ ER k b Hb) as [Hd|(e & e' & Hin & Hs & HS)].
  - rewrite lookup_empty in Hd. discriminate.
  - exists e, e'. apply elem_of_map_to_list in Hin.
    split; [exact Hin|]. split; [|exact HS].
    simpl in Hs. rewrite andb_true_r in Hs. exact Hs.
Qed.

Lemma mSet_writes_only_value_envelopes_witness :
  hist L1 (record_call L1 (CMSet {["a" := helloFrame]} 7) world0) = hist L1 world0 \/
  exists data,
    hist L1 (record_call L1 (CMSet {["a" := helloFrame]} 7) world0)
    = hist L1 world0 ++ [CMSet data 7] /\
    forall k b, data !! k = Some b ->
      exists e e', mixedBatch !! k = Some (Some e) /\ IsNil e = false /\
                   Serialize bytesDirect e = (e', Ok b).
Proof.
  apply (mSet_writes_only_value_envelopes (Some memStore) None 60000000000 bytesDirect
           L1 mixedBatch
           (<["a" := Some (with_valBytes helloEntry hello)]> mixedBatch) 7 None world0).
  vm_compute. reflexivity.
Defined.

(** X12: a batch write is all or nothing at the codec: when one envelope
    that is to be written does not serialize, [mSet] returns an error and
    makes no call to the store, so none of the other envelopes is written. *)
Theorem mSet_unserializable_writes_nothing {V} (w : Wrapper.wrapper V) (lv : layer)
    (c : Cacher) (kvs : gmap string (option (entry V))) (k : string)
    (e e' : entry V) (err : error) (t : Z) (s : World) :
  Wrapper.cacher w lv = Some c ->
  kvs !! k = Some (Some e) ->
  (IsNil e && negb (Wrapper.cacheNil w)) = false ->
  Serialize (Wrapper.codec w) e = (e', Err err) ->
  exists kvs' err', Wrapper.mSet w lv kvs t s = (s, Ret (kvs', Some err')).
Proof.
  intros Hc Hk Hskip HS. unfold Wrapper.mSet. rewrite Hc.
  assert (Hsize : (size kvs =? 0)%nat = false).
  { apply Nat.eqb_neq. intros Hz. apply map_size_empty_iff in Hz. subst kvs.
    rewrite lookup_empty in Hk. discriminate. }
  rewrite Hsize.
  assert (Hin : (k, Some e) ∈ map_to_list kvs) by (apply elem_of_map_to_list; exact Hk).
  destruct (mSet_range_fails w _ k e e' err Hin Hskip HS kvs ∅) as (kvs' & err' & ER).
  rewrite ER. eexists _, _. reflexivity.
Qed.

Lemma mSet_unserializable_writes_nothing_witness :
  exists kvs' err', Wrapper.mSet wrapperBroken L1 mixedBatch 7 world0
                    = (world0, Ret (kvs', Some err')).
Proof.
  apply (mSet_unserializable_writes_nothing wrapperBroken L1 memStore mixedBatch "a"
           helloEntry helloEntry (ErrMarshal (UserErr "marshal refused")) 7 world0);
    reflexivity.
Defined.

(** ** Batch reads of the wrapper *)

Section WrapperMGet.
Context {V : Type}.
Implicit Types (w : Wrapper.wrapper V).

Lemma fresh_runs (r : option (entry V)) :
  runs (fresh r) (fun s _ s' => calls1 s' = calls1 s /\ calls2 s' = calls2 s).
Proof.
  intros s. destruct r as [e|]; simpl.
  - unfold IsExpired. destruct (ttl e <=? 0).
    + eexists _, _. split; [reflexivity|]. split; reflexivity.
    + eexists _, _. split; [reflexivity|]. split; reflexivity.
  - eexists _, _. split; [reflexivity|]. split; reflexivity.
Qed.

Lemma at_key_insert {A} (m : gmap string (option A)) (k k' : string) (x : option A) :
  at_key (<[k := x]> m) k' = if decide (k = k') then x else at_key m k'.
Proof.
  unfold at_key. rewrite lookup_insert. destruct (decide (k = k')); reflexivity.
Qed.

Lemma MGet_l1_runs (keys : list string) (fromL1 : gmap string (option (entry V))) :
  forall hit miss,
    runs (Wrapper.MGet_l1 keys fromL1 hit miss)
      (fun s r s' =>
         calls1 s' = calls1 s /\ calls2 s' = calls2 s /\
         (forall k, is_Some (r.1 !! k) <-> k ∈ keys \/ is_Some (hit !! k)) /\
         (forall k, at_key r.1 k
                    = if decide (k ∈ keys) then at_key fromL1 k else at_key hit k)).
Proof.
  induction keys as [|key rest IH]; intros hit miss.
  - apply runs_ret. intros s. split; [reflexivity|]. split; [reflexivity|]. split.
    + intros k. split; [intros H; right; exact H|].
      intros [H|H]; [inversion H | exact H].
    + intros k. destruct (decide (k ∈ [])) as [H|_]; [inversion H | reflexivity].
  - simpl. eapply runs_bind; [apply fresh_runs|].
    intros s ok s1 (Hc1 & Hc2).
    destruct (IH (<[key := at_key fromL1 key]> hit)
                 (if ok then miss else miss ++ [key]) s1)
      as (s' & r & E & Ec1 & Ec2 & Hdom & Hat).
    exists s', r. split; [exact E|].
    split; [congruence|]. split; [congruence|]. split.
    + intros k. rewrite Hdom, lookup_insert, elem_of_cons.
      destruct (decide (key = k)) as [->|Hne].
      * split; [intros _; left; left; reflexivity | intros _; right; eauto].
      * split; [intros [H|H]; [left; right; exact H | right; exact H]|].
        intros [[H|H]|H]; [congruence | left; exact H | right; exact H].
    + intros k. rewrite Hat, at_key_insert.
      destruct (decide (k ∈ rest)) as [Hin|Hnin].
      * rewrite decide_True by (right; exact Hin). reflexivity.
      * destruct (decide (key = k)) as [->|Hne].
        -- rewrite decide_True by (left). reflexivity.
        -- rewrite decide_False; [reflexivity|].
           intros H. apply elem_of_cons in H. destruct H; [congruence | contradiction].
Qed.

Lemma MGet_l2_runs (keys : list string) (fromL2 : gmap string (option (entry V))) :
  forall hit hitL2,
    runs (Wrapper.MGet_l2 keys fromL2 hit hitL2)
      (fun s r s' =>
         calls1 s' = calls1 s /\ calls2 s' = calls2 s /\
         (forall k, is_Some (r.1 !! k) <-> k ∈ keys \/ is_Some (hit !! k))).
Proof.
  induction keys as [|key rest IH]; intros hit hitL2.
  - apply runs_ret. intros s. split; [reflexivity|]. split; [reflexivity|].
    intros k. split; [intros H; right; exact H|].
    intros [H|H]; [inversion H | exact H].
  - simpl. eapply runs_bind; [apply fresh_runs|].
    intros s ok s1 (Hc1 & Hc2).
    match goal with
    | |- context [Wrapper.MGet_l2 rest fromL2 ?h ?h2] =>
        destruct (IH h h2 s1) as (s' & r & E & Ec1 & Ec2 & Hdom)
    end.
    exists s', r. split; [exact E|].
    split; [congruence|]. split; [congruence|].
    intros k. rewrite Hdom, lookup_insert, elem_of_cons.
    destruct (decide (key = k)) as [->|Hne].
    + split; [intros _; left; left; reflexivity | intros _; right; eauto].
    + split; [intros [H|H]; [left; right; exact H | right; exact H]|].
      intros [[H|H]|H]; [congruence | left; exact H | right; exact H].
Qed.

(** With nothing from L2, the second loop changes no answer and collects
    nothing to write back. *)
Lemma MGet_l2_nothing (keys : list string) :
  forall (hit : gmap string (option (entry V))) s,
    exists hit',
      Wrapper.MGet_l2 keys ∅ hit ∅ s = (s, Ret (hit', ∅)) /\
      forall k, at_key hit' k = at_key hit k.
Proof.
  induction keys as [|key rest IH]; intros hit s.
  - exists hit. split; reflexivity.
  - simpl. unfold at_key at 1. rewrite lookup_empty. simpl.
    unfold bind at 1. unfold ret at 1.
    destruct (IH (<[key := Wrapper.latest (at_key hit key) None]> hit) s)
      as (hit' & E & Hat).
    exists hit'. split; [exact E|].
    intros k. rewrite Hat, at_key_insert.
    destruct (decide (key = k)) as [->|]; [|reflexivity].
    destruct (at_key hit k); reflexivity.
Qed.

Lemma mGet_runs w lv keys :
  runs (Wrapper.mGet w lv keys) (fun _ _ _ => True).
Proof.
  intros s. unfold Wrapper.mGet.
  destruct (Wrapper.cacher w lv) as [c|]; [|eexists _, _; split; [reflexivity | exact I]].
  unfold bind, on_store.
  destruct (cMGet c (hist lv s) keys); eexists _, _; (split; [reflexivity | exact I]).
Qed.

Lemma mSet_runs w lv kvs t :
  runs (Wrapper.mSet w lv kvs t) (fun _ _ _ => True).
Proof.
  intros s. unfold Wrapper.mSet.
  destruct (Wrapper.cacher w lv) as [c|]; [|eexists _, _; split; [reflexivity | exact I]].
  destruct (size kvs =? 0)%nat; [eexists _, _; split; [reflexivity | exact I]|].
  destruct (Wrapper.mSet_range w (map_to_list kvs) kvs ∅) as [kvs' [data|err]];
    eexists _, _; (split; [reflexivity | exact I]).
Qed.

(** What [mGet] reads from a layer. *)
Lemma mGet_stored w lv c keys s :
  Wrapper.cacher w lv = Some c ->
  exists s' fromL,
    Wrapper.mGet w lv keys s = (s', Ret fromL) /\
    hist lv s' = hist lv s ++ [CMGet keys] /\
    calls1 s' = (match lv with L1 => calls1 s ++ [CMGet keys] | L2 => calls1 s end) /\
    calls2 s' = (match lv with L2 => calls2 s ++ [CMGet keys] | L1 => calls2 s end) /\
    forall k, at_key fromL k = stored_envelope (cMGet c (hist lv s) keys) k.
Proof.
  intros Hc. unfold Wrapper.mGet. rewrite Hc. unfold bind, on_store.
  destruct (cMGet c (hist lv s) keys) as [kvs|err] eqn:E.
  - eexists _, _. split; [reflexivity|].
    split; [destruct lv; reflexivity|]. split; [destruct lv; reflexivity|].
    split; [destruct lv; reflexivity|].
    intros k. unfold at_key, stored_envelope. rewrite lookup_omap.
    destruct (kvs !! k) as [[b|]|]; reflexivity.
  - eexists _, _. split; [reflexivity|].
    split; [destruct lv; reflexivity|]. split; [destruct lv; reflexivity|].
    split; [destruct lv; reflexivity|].
    intros k. reflexivity.
Qed.

End WrapperMGet.

(** X13: [MGet] of the wrapper never panics and answers every key it was
    asked and no other: the map it returns has an entry, possibly nil, for
    exactly the requested keys. *)
Theorem MGet_answers_every_key {V} (w : Wrapper.wrapper V) (keys : list string)
    (s : World) :
  exists s' hit,
    Wrapper.MGet w keys s = (s', Ret hit) /\
    forall k, is_Some (hit !! k) <-> k ∈ keys.
Proof.
  assert (H : runs (Wrapper.MGet w keys)
                (fun _ hit _ => forall k, is_Some (hit !! k) <-> k ∈ keys)).
  { unfold Wrapper.MGet.
    eapply runs_bind; [apply mGet_runs|]. intros s0 fromL1 s1 _.
    destruct (MGet_l1_runs keys fromL1 ∅ [] s1) as (s2 & [hit miss] & E1 & _ & _ & Hdom & _).
    rewrite (bind_Ret _ _ _ _ _ E1). cbv beta iota.
    assert (Hdom1 : forall k, is_Some (hit !! k) <-> k ∈ keys).
    { intros k. rewrite (Hdom k). simpl. rewrite lookup_empty.
      split; [intros [H|H]; [exact H | destruct H; discriminate] | intros H; left; exact H]. }
    destruct (length miss =? 0)%nat.
    { eexists _, _. split; [reflexivity | exact Hdom1]. }
    destruct (mGet_runs w L2 miss s2) as (s3 & fromL2 & E2 & _).
    rewrite (bind_Ret _ _ _ _ _ E2).
    destruct (MGet_l2_runs keys fromL2 hit ∅ s3) as (s4 & [hit' hitL2] & E3 & _ & _ & Hdom2).
    rewrite (bind_Ret _ _ _ _ _ E3). cbv beta iota.
    rewrite (bind_Ret _ _ _ _ _ (getDelTTL_1_run w s4)).
    destruct (mSet_runs w L1 hitL2 (ttl_L1 w s4) (drawn s4)) as (s5 & r & E4 & _).
    rewrite (bind_Ret _ _ _ _ _ E4).
    eexists _, _. split; [reflexivity|].
    intros k. rewrite (Hdom2 k). simpl. rewrite Hdom1. tauto. }
  exact (H s).
Qed.

(** X14: with L1 as the only store, [MGet] makes exactly one call, the
    batch read of L1, and answers each requested key with the envelope L1
    holds for it, expired or not; a key L1 has no frame for is answered
    nil. *)
Theorem MGet_single_layer {V} (w : Wrapper.wrapper V) (c1 : Cacher)
    (keys : list string) (s : World) :
  Wrapper.l1 w = Some c1 ->
  Wrapper.l2 w = None ->
  exists s' hit,
    Wrapper.MGet w keys s = (s', Ret hit) /\
    calls1 s' = calls1 s ++ [CMGet keys] /\
    calls2 s' = calls2 s /\
    forall k, at_key hit k
              = if decide (k ∈ keys)
                then stored_envelope (cMGet c1 (calls1 s) keys) k
                else None.
Proof.
  intros Hl1 Hl2. unfold Wrapper.MGet.
  destruct (mGet_stored w L1 c1 keys s Hl1) as (s1 & fromL1 & E0 & _ & Hc1 & Hc2 & Hat0).
  rewrite (bind_Ret _ _ _ _ _ E0).
  destruct (MGet_l1_runs keys fromL1 ∅ [] s1)
    as (s2 & [hit miss] & E1 & Hc1' & Hc2' & _ & Hat).
  rewrite (bind_Ret _ _ _ _ _ E1). cbv beta iota.
  assert (Hans : forall k, at_key hit k
                 = if decide (k ∈ keys)
                   then stored_envelope (cMGet c1 (calls1 s) keys) k else None).
  { intros k. pose proof (Hat k) as Hk. simpl in Hk. rewrite Hk.
    destruct (decide (k ∈ keys)); [apply Hat0|].
    unfold at_key. rewrite lookup_empty. reflexivity. }
  destruct (length miss =? 0)%nat.
  { eexists _, _. split; [reflexivity|]. split; [congruence|]. split; [congruence|].
    exact Hans. }
  assert (E2 : Wrapper.mGet w L2 miss s2 = (s2, Ret ∅)).
  { unfold Wrapper.mGet. simpl. rewrite Hl2. reflexivity. }
  rewrite (bind_Ret _ _ _ _ _ E2).
  destruct (MGet_l2_nothing keys hit s2) as (hit' & E3 & Hat').
  rewrite (bind_Ret _ _ _ _ _ E3). cbv beta iota.
  rewrite (bind_Ret _ _ _ _ _ (getDelTTL_1_run w s2)).
  assert (E4 : Wrapper.mSet w L1 (∅ : gmap string (option (entry V)))
                 (ttl_L1 w s2) (drawn s2)
               = (drawn s2, Ret (∅, None))).
  { unfold Wrapper.mSet. simpl. rewrite Hl1. rewrite map_size_empty. reflexivity. }
  rewrite (bind_Ret _ _ _ _ _ E4).
  eexists _, _. split; [reflexivity|].
  split; [simpl; congruence|]. split; [simpl; congruence|].
  intros k. rewrite Hat'. apply Hans.
Qed.

Lemma MGet_single_layer_witness :
  exists s' hit,
    Wrapper.MGet wrapperL1 ["k"; "x"; "z"] worldL1mixed = (s', Ret hit) /\
    calls1 s' = calls1 worldL1mixed ++ [CMGet ["k"; "x"; "z"]] /\
    at_key hit "k" = Some helloStored /\
    at_key hit "x" = None /\
    at_key hit "z" = None.
Proof.
  destruct (MGet_single_layer wrapperL1 memStore ["k"; "x"; "z"] worldL1mixed
              eq_refl eq_refl) as (s' & hit & E & Hc & _ & Hat).
  exists s', hit. split; [exact E|]. split; [exact Hc|].
  rewrite !Hat. vm_compute. repeat split.
Defined.


(** ** Keys of the facade *)

Section FacadeKeys.
Context {K V : Type}.
Implicit Types (c : Cachex.cachex K V).

Lemma append_inj_l (p a b : string) : String.append p a = String.append p b -> a = b.
Proof.
  induction p as [|ch p IH]; simpl; intros H; [exact H|].
  inversion H. apply IH. assumption.
Qed.

Lemma Uniq_elem (seen l : list string) (x : string) :
  x ∈ Uniq seen l <-> x ∈ l /\ x ∉ seen.
Proof.
  revert seen. induction l as [|y rest IH]; intros seen; simpl.
  - split; [intros H; inversion H | intros [H _]; inversion H].
  - destruct (bool_decide (y ∈ seen)) eqn:E.
    + apply bool_decide_eq_true in E. rewrite IH, elem_of_cons.
      split; [intros [H1 H2]; split; [right; exact H1 | exact H2]|].
      intros [[->|H1] H2]; [contradiction | split; assumption].
    + apply bool_decide_eq_false in E. rewrite elem_of_cons, IH.
      split.
      * intros [->|(H1 & H2)]; [split; [left | exact E]|].
        split; [right; exact H1|]. intros H3. apply H2. right. exact H3.
      * intros [H1 H2]. apply elem_of_cons in H1.
        destruct (decide (x = y)) as [->|Hne]; [left; reflexivity|].
        destruct H1 as [->|H1]; [congruence|].
        right. split; [exact H1|]. intros H3. apply elem_of_cons in H3.
        destruct H3; [congruence | contradiction].
Qed.

Lemma Uniq_NoDup (seen l : list string) : NoDup (Uniq seen l).
Proof.
  revert seen. induction l as [|y rest IH]; intros seen; simpl; [constructor|].
  destruct (bool_decide (y ∈ seen)); [apply IH|].
  constructor; [|apply IH].
  rewrite Uniq_elem. intros [_ H]. apply H. left.
Qed.

Lemma Uniq_length (seen l : list string) : (length (Uniq seen l) <= length l)%nat.
Proof.
  revert seen. induction l as [|y rest IH]; intros seen; simpl; [lia|].
  destruct (bool_decide (y ∈ seen)); simpl.
  - specialize (IH seen). lia.
  - specialize (IH (y :: seen)). lia.
Qed.

End FacadeKeys.

(** X15: two user keys get the same cache key exactly when the key function
    gives them the same string: the namespace prefix never merges two keys
    and never separates them. *)
Theorem key_collides_only_with_genKeyFn {K V} (c : Cachex.cachex K V) (k1 k2 : K) :
  Cachex.key c k1 = Cachex.key c k2 <-> Cachex.genKeyFn c k1 = Cachex.genKeyFn c k2.
Proof.
  unfold Cachex.key. split.
  - intros H. apply append_inj_l in H. apply append_inj_l in H. exact H.
  - intros H. rewrite H. reflexivity.
Qed.

(** X16: [keys] gives the cache keys of the user keys without repetition:
    a string is in the result exactly when it is the cache key of one of the
    user keys, no string is there twice, and the result is no longer than
    the input. *)
Theorem keys_are_the_distinct_cache_keys {K V} (c : Cachex.cachex K V) (ks : list K) :
  NoDup (Cachex.keys c ks) /\
  (forall x, x ∈ Cachex.keys c ks <-> exists k, k ∈ ks /\ x = Cachex.key c k) /\
  (length (Cachex.keys c ks) <= length ks)%nat.
Proof.
  unfold Cachex.keys. split; [apply Uniq_NoDup|]. split.
  - intros x. rewrite Uniq_elem, list_elem_of_fmap.
    split.
    + intros [(k & -> & Hk) _]. exists k. split; [exact Hk | reflexivity].
    + intros (k & Hk & ->). split; [exists k; split; [reflexivity | exact Hk]|].
      intros H. inversion H.
  - etransitivity; [apply Uniq_length|]. rewrite length_map. reflexivity.
Qed.

(** ** Batch results of the facade *)

Section FacadeBatch.
Context {K V : Type}.
Implicit Types (c : Cachex.cachex K V).

Lemma bind_inv {A B} (m : M A) (k : A -> M B) (s s' : World) (b : B) :
  bind m k s = (s', Ret b) ->
  exists s1 a, m s = (s1, Ret a) /\ k a s1 = (s', Ret b).
Proof.
  unfold bind. destruct (m s) as [s1 [a|p]]; [|discriminate].
  intros H. exists s1, a. split; [reflexivity | exact H].
Qed.

(** What [packBatchRes] puts at the position of a key. *)
Lemma packBatchRes_positions c (ks : list K) (kvs : gmap string (option (entry V))) :
  forall s s' res,
    Cachex.packBatchRes c ks kvs s = (s', Ret res) ->
    s' = s /\
    length res = length ks /\
    forall i k, ks !! i = Some k ->
      exists v, res !! i = Some v /\
        match at_key kvs (Cachex.key c k) with
        | None => v = None
        | Some e => Value (Some e) (Cachex.codec c) = Ret (v, None)
        end.
Proof.
  induction ks as [|k0 rest IH]; intros s s' res H.
  - inversion H; subst. split; [reflexivity|]. split; [reflexivity|].
    intros i k Hk. discriminate.
  - simpl in H. apply bind_inv in H. destruct H as (s1 & x & Hx & H).
    apply bind_inv in H. destruct H as (s2 & xs & Hxs & H).
    inversion H; subst. clear H.
    destruct (IH _ _ _ Hxs) as (-> & Hlen & Hpos).
    assert (Hhead : s1 = s /\
              match at_key kvs (Cachex.key c k0) with
              | None => x = None
              | Some e => Value (Some e) (Cachex.codec c) = Ret (x, None)
              end).
    { destruct (at_key kvs (Cachex.key c k0)) as [e|].
      - apply bind_inv in Hx. destruct Hx as (s3 & [v err] & Hv & Hx).
        unfold Cachex.lift in Hv.
        assert (s3 = s) as -> by (inversion Hv; reflexivity).
        assert (Hval : Value (Some e) (Cachex.codec c) = Ret (v, err))
          by (inversion Hv; reflexivity).
        pose proof Hval as Hnone. apply Value_no_error in Hnone. subst err.
        inversion Hx; subst. split; [reflexivity | exact Hval].
      - inversion Hx; subst. split; reflexivity. }
    destruct Hhead as (-> & Hhead).
    split; [reflexivity|]. split; [simpl; rewrite Hlen; reflexivity|].
    intros [|i] k Hk; simpl in Hk.
    + inversion Hk; subst. exists x. split; [reflexivity | exact Hhead].
    + apply (Hpos i k Hk).
Qed.

Lemma IsExpired_runs (e : entry V) :
  runs (IsExpired e)
    (fun s _ s' => calls1 s' = calls1 s /\ calls2 s' = calls2 s /\ loads s' = loads s).
Proof.
  intros s. unfold IsExpired. destruct (ttl e <=? 0).
  - eexists _, _. split; [reflexivity|]. repeat split.
  - eexists _, _. split; [reflexivity|]. repeat split.
Qed.

Lemma groupBatchRes_range_runs c (vals : gmap string (option (entry V))) (ks : list K) :
  forall hit expire miss,
    runs (Cachex.groupBatchRes_range c ks vals hit expire miss)
      (fun s r s' =>
         (calls1 s' = calls1 s /\ calls2 s' = calls2 s /\ loads s' = loads s) /\
         (forall k, k ∈ r.2 <->
                    k ∈ miss \/ (k ∈ ks /\ at_key vals (Cachex.key c k) = None)) /\
         (forall k, k ∈ expire -> k ∈ r.1.2) /\
         (forall k, k ∈ r.1.2 ->
                    k ∈ expire \/ (k ∈ ks /\ is_Some (at_key vals (Cachex.key c k)))) /\
         (forall x o, r.1.1 !! x = Some o ->
                      hit !! x = Some o \/
                      exists e, o = Some e /\ at_key vals x = Some e) /\
         (forall x, (exists e, hit !! x = Some (Some e)) ->
                    exists e, r.1.1 !! x = Some (Some e)) /\
         (forall k, k ∈ ks ->
                    k ∈ r.2 \/ k ∈ r.1.2 \/
                    exists e, r.1.1 !! Cachex.key c k = Some (Some e))).
Proof.
  induction ks as [|k0 rest IH]; intros hit expire miss.
  - apply runs_ret. intros s. simpl. split; [repeat split|]. split.
    { intros k. split; [intros H; left; exact H|].
      intros [H|[H _]]; [exact H | inversion H]. }
    split; [intros k H; exact H|].
    split; [intros k H; left; exact H|].
    split; [intros x o H; left; exact H|].
    split; [intros x H; exact H|].
    intros k H. inversion H.
  - simpl. destruct (at_key vals (Cachex.key c k0)) as [v|] eqn:Ev.
    + eapply runs_bind; [apply IsExpired_runs|].
      intros s x s1 (Hc1 & Hc2 & Hl).
      destruct x.
      * destruct (IH hit (expire ++ [k0]) miss s1)
          as (s' & r & E & (Ec1 & Ec2 & El) & Hmiss & Hup & Hexp & Hhit & Hmono & Hcov).
        exists s', r. split; [exact E|].
        split; [repeat split; congruence|]. split.
        { intros k. rewrite Hmiss, elem_of_cons.
          split; [intros [H|[H1 H2]]; [left; exact H | right; split; [right|]; assumption]|].
          intros [H|[[->|H1] H2]]; [left; exact H | congruence | right; split; assumption]. }
        split; [intros k H; apply Hup, elem_of_app; left; exact H|].
        split.
        { intros k Hk. destruct (Hexp k Hk) as [H|[H1 H2]].
          - apply elem_of_app in H. destruct H as [H|H]; [left; exact H|].
            apply list_elem_of_singleton in H. subst k.
            right. split; [left | rewrite Ev; eauto].
          - right. split; [right; exact H1 | exact H2]. }
        split; [exact Hhit|]. split; [exact Hmono|].
        intros k Hk. apply elem_of_cons in Hk.
        destruct Hk as [->|Hk]; [|apply Hcov; exact Hk].
        right; left. apply Hup, elem_of_app. right.
        apply list_elem_of_singleton. reflexivity.
      * destruct (IH (<[Cachex.key c k0 := Some v]> hit) expire miss s1)
          as (s' & r & E & (Ec1 & Ec2 & El) & Hmiss & Hup & Hexp & Hhit & Hmono & Hcov).
        exists s', r. split; [exact E|].
        split; [repeat split; congruence|]. split.
        { intros k. rewrite Hmiss, elem_of_cons.
          split; [intros [H|[H1 H2]]; [left; exact H | right; split; [right|]; assumption]|].
          intros [H|[[->|H1] H2]]; [left; exact H | congruence | right; split; assumption]. }
        split; [exact Hup|].
        split.
        { intros k Hk. destruct (Hexp k Hk) as [H|[H1 H2]]; [left; exact H|].
          right. split; [right; exact H1 | exact H2]. }
        split.
        { intros x o Ho. destruct (Hhit x o Ho) as [H|H]; [|right; exact H].
          destruct (decide (x = Cachex.key c k0)) as [->|Hne].
          - rewrite lookup_insert_eq in H. inversion H; subst.
            right. exists v. split; [reflexivity | exact Ev].
          - rewrite lookup_insert_ne in H by congruence. left; exact H. }
        split.
        { intros x [e He]. apply Hmono.
          destruct (decide (x = Cachex.key c k0)) as [->|Hne].
          - exists v. apply lookup_insert_eq.
          - exists e. rewrite lookup_insert_ne by congruence. exact He. }
        intros k Hk. apply elem_of_cons in Hk.
        destruct Hk as [->|Hk]; [|apply Hcov; exact Hk].
        right; right. apply Hmono. exists v. apply lookup_insert_eq.
    + intros s.
      destruct (IH hit expire (miss ++ [k0]) s)
        as (s' & r & E & Hfr & Hmiss & Hup & Hexp & Hhit & Hmono & Hcov).
      exists s', r. split; [exact E|].
      split; [exact Hfr|]. split.
      { intros k. rewrite Hmiss, elem_of_app, list_elem_of_singleton, elem_of_cons.
        split.
        - intros [[H| ->]|[H1 H2]];
            [left; exact H | right; split; [left; reflexivity | exact Ev]
            | right; split; [right|]; assumption].
        - intros [H|[[->|H1] H2]];
            [left; left; exact H | left; right; reflexivity | right; split; assumption]. }
      split; [exact Hup|].
      split.
      { intros k Hk. destruct (Hexp k Hk) as [H|[H1 H2]]; [left; exact H|].
        right. split; [right; exact H1 | exact H2]. }
      split; [exact Hhit|]. split; [exact Hmono|].
      intros k Hk. apply elem_of_cons in Hk.
      destruct Hk as [->|Hk]; [|apply Hcov; exact Hk].
      left. apply Hmiss. left. apply elem_of_app. right.
      apply list_elem_of_singleton. reflexivity.
Qed.

End FacadeBatch.

(** X17: the list [packBatchRes] returns has one position per requested
    key, in the order of the keys: where the map holds no envelope for the
    key the position is nil, and where it holds one the position is what
    [Value] gives for that envelope; the world is left as it was. *)
Theorem packBatchRes_is_positional {K V} (c : Cachex.cachex K V) (ks : list K)
    (kvs : gmap string (option (entry V))) (s s' : World) (res : list (option V)) :
  Cachex.packBatchRes c ks kvs s = (s', Ret res) ->
  s' = s /\
  length res = length ks /\
  forall i k, ks !! i = Some k ->
    exists v, res !! i = Some v /\
      match at_key kvs (Cachex.key c k) with
      | None => v = None
      | Some e => Value (Some e) (Cachex.codec c) = Ret (v, None)
      end.
Proof. apply packBatchRes_positions. Qed.

(** X18: [groupBatchRes] always returns, calls no store and no loader, and
    sorts every requested key: the misses are exactly the keys without an
    envelope in the cached map, an expired key has an envelope there, every
    hit is the cached envelope of its key, and each requested key is a miss,
    expired, or has a hit under its cache key. *)
Theorem groupBatchRes_sorts_every_key {K V} (c : Cachex.cachex K V) (ks : list K)
    (vals : gmap string (option (entry V))) (s : World) :
  exists s' hit expire miss,
    Cachex.groupBatchRes c ks vals s = (s', Ret (hit, expire, miss)) /\
    (calls1 s' = calls1 s /\ calls2 s' = calls2 s /\ loads s' = loads s) /\
    (forall k, k ∈ miss <-> k ∈ ks /\ at_key vals (Cachex.key c k) = None) /\
    (forall k, k ∈ expire -> k ∈ ks /\ is_Some (at_key vals (Cachex.key c k))) /\
    (forall x o, hit !! x = Some o -> exists e, o = Some e /\ at_key vals x = Some e) /\
    (forall k, k ∈ ks ->
       k ∈ miss \/ k ∈ expire \/ exists e, hit !! Cachex.key c k = Some (Some e)).
Proof.
  destruct (groupBatchRes_range_runs c vals ks ∅ [] [] s)
    as (s' & [[hit expire] miss] & E & Hfr & Hmiss & _ & Hexp & Hhit & _ & Hcov).
  exists s', hit, expire, miss. split; [exact E|]. split; [exact Hfr|].
  simpl in *. split.
  { intros k. rewrite Hmiss. split; [intros [H|H]; [inversion H | exact H]|].
    intros H; right; exact H. }
  split.
  { intros k Hk. destruct (Hexp k Hk) as [H|H]; [inversion H | exact H]. }
  split.
  { intros x o Ho. destruct (Hhit x o Ho) as [H|H]; [|exact H].
    rewrite lookup_empty in H. discriminate. }
  exact Hcov.
Qed.

Lemma packBatchRes_is_positional_witness :
  world0 = world0 /\
  length [Some hello; None] = length ["k"; "other"] /\
  forall i k, ["k"; "other"] !! i = Some k ->
    exists v, [Some hello; @None (list byte)] !! i = Some v /\
      match at_key {["default:k" := Some helloStored]}
                   (Cachex.key (facadeOf None 1 false) k) with
      | None => v = None
      | Some e => Value (Some e) (Cachex.codec (facadeOf None 1 false)) = Ret (v, None)
      end.
Proof.
  apply (packBatchRes_is_positional (facadeOf None 1 false) ["k"; "other"]
           {["default:k" := Some helloStored]} world0 world0 [Some hello; None]).
  vm_compute. reflexivity.
Defined.


(** ** Loading through the facade *)

Ltac bind_step H :=
  let s := fresh "s" in
  let a := fresh "a" in
  let E := fresh "E" in
  apply bind_inv in H; destruct H as (s & a & E & H); cbv beta in H.

Section FacadeLoad.
Context {K V : Type}.
Implicit Types (c : Cachex.cachex K V).

Lemma Value_newEntryAt (cd : Codec V) (now : Z) (v : option V) (t : Z) :
  Value (Some (newEntryAt now v t)) cd = Ret (v, None).
Proof. destruct v; reflexivity. Qed.

Lemma pack_ok_length c (ks : list K) m s s' (r : list (option V)) :
  bind (Cachex.packBatchRes c ks m) (fun res => ret (Ok res)) s
    = (s', Ret (Ok r)) ->
  length r = length ks.
Proof.
  intros H. bind_step H. inversion H; subst.
  apply packBatchRes_positions in E. tauto.
Qed.

Lemma load_single_run c (f : Cachex.LoaderFn K V) (k : K) (s : World) :
  exists s' o,
    Cachex.load_single c f k s = (s', o) /\
    loads s' = S (loads s) /\ calls1 s' = calls1 s /\ calls2 s' = calls2 s /\
    match f (loads s) k with
    | Ret (Ok v) => exists now, o = Ret (Ok (Some (newEntryAt now v (Cachex.expireTTL c))))
    | Ret (Err e) => o = Ret (Err (ErrLoaderFn e))
    | Panic p => o = Panic p
    end.
Proof.
  unfold Cachex.load_single, bind, on_source. simpl.
  destruct (f (loads s) k) as [[v|e]|p]; simpl.
  - eexists _, _. split; [reflexivity|]. simpl. repeat split. eexists. reflexivity.
  - eexists _, _. split; [reflexivity|]. simpl. repeat split.
  - eexists _, _. split; [reflexivity|]. simpl. repeat split.
Qed.



End FacadeLoad.

(** X19: whenever the facade's [MGet] returns without an error, under any
    strategy, the result has exactly one position per requested key. *)
Theorem MGet_one_result_per_key {K V} (c : Cachex.cachex K V) (ks : list K)
    (s s' : World) (res : list (option V)) :
  Cachex.MGet c ks s = (s', Ret (Ok res)) -> length res = length ks.
Proof.
  assert (Hso : forall s0, Cachex.ssSourceOnlyMGet c ks s0 = (s', Ret (Ok res)) ->
                           length res = length ks).
  { intros s0 H. unfold Cachex.ssSourceOnlyMGet in H. bind_step H.
    destruct a as [m|e]; [|discriminate]. eapply pack_ok_length; exact H. }
  assert (Hfirst : forall s0 (alt : gmap string (option (entry V)) ->
                                    gmap string (option (entry V)) ->
                                    error -> M (result (list (option V)))),
             (forall fc hit err s1, alt fc hit err s1 = (s', Ret (Ok res)) ->
                                    length res = length ks) ->
             bind (Cachex.on_cache c (fun w => Wrapper.MGet w (Cachex.keys c ks)))
               (fun fromCache =>
                  bind (Cachex.groupBatchRes c ks fromCache)
                    (fun '(hit, expire, miss) =>
                       if (length miss =? 0)%nat && (length expire =? 0)%nat then
                         bind (Cachex.packBatchRes c ks hit) (fun r => ret (Ok r))
                       else
                         bind (Cachex.mLoad c (expire ++ miss))
                           (fun r =>
                              match r with
                              | Err err => alt fromCache hit err
                              | Ok fromSource =>
                                  bind (Cachex.mSet c fromSource)
                                    (fun '(fromSource, _) =>
                                       bind (Cachex.packBatchRes c ks
                                               (Cachex.Merge hit fromSource))
                                         (fun r => ret (Ok r)))
                              end))) s0 = (s', Ret (Ok res)) ->
             length res = length ks).
  { intros s0 alt Halt H. bind_step H. bind_step H.
    destruct a0 as [[hit expire] miss].
    destruct ((length miss =? 0)%nat && (length expire =? 0)%nat).
    - eapply pack_ok_length; exact H.
    - bind_step H. destruct a0 as [m|e]; [|eapply Halt; exact H].
      bind_step H. destruct a0 as [m' o]. eapply pack_ok_length; exact H. }
  unfold Cachex.MGet.
  destruct (Cachex.ss c =? Cachex.SourceStrategyCacheFirst).
  { intros H. apply (Hfirst s (fun _ _ err => ret (Err err))); [|exact H].
    intros fc hit err s1 Hd. discriminate. }
  destruct (Cachex.ss c =? Cachex.SourceStrategySourceFirst); [apply Hso|].
  destruct (Cachex.ss c =? Cachex.SourceStrategyCacheOnly).
  { intros H. unfold Cachex.ssCacheOnlyMGet in H. bind_step H. bind_step H.
    destruct a0 as [[hit expire] miss]. eapply pack_ok_length; exact H. }
  destruct (Cachex.ss c =? Cachex.SourceStrategySourceOnly); [apply Hso|].
  destruct (Cachex.ss c =? Cachex.SourceStrategyExpiredBackup); [|discriminate].
  intros H.
  apply (Hfirst s (fun fc _ _ => bind (Cachex.packBatchRes c ks fc)
                                   (fun r => ret (Ok r)))); [|exact H].
  intros fc hit err s1 Hd. eapply pack_ok_length; exact Hd.
Qed.

Lemma MGet_one_result_per_key_witness :
  exists s' res,
    Cachex.MGet (facadeOf (Some sourceHello) 1 false) ["k"; "j"] world0
      = (s', Ret (Ok res)) /\
    length res = length ["k"; "j"].
Proof.
  eexists _, _. split; [vm_compute; reflexivity|].
  eapply (MGet_one_result_per_key (facadeOf (Some sourceHello) 1 false) ["k"; "j"] world0).
  vm_compute. reflexivity.
Defined.





Section FacadeBatchLoad.
Context {K V : Type}.
Implicit Types (c : Cachex.cachex K V).

Lemma mLoad_wrap_runs c (kvs : list (K * option V)) :
  forall res,
    runs (Cachex.mLoad_wrap c kvs res)
      (fun s r s' =>
         (loads s' = loads s /\ calls1 s' = calls1 s /\ calls2 s' = calls2 s) /\
         (forall x, (exists e, at_key res x = Some e) ->
                    exists e, at_key r x = Some e) /\
         (forall x e, at_key r x = Some e ->
                      at_key res x = Some e \/
                      exists i kv now, kvs !! i = Some kv /\ x = Cachex.key c kv.1 /\
                                       e = newEntryAt now kv.2 (Cachex.expireTTL c)) /\
         (forall kv, kv ∈ kvs -> exists e, at_key r (Cachex.key c kv.1) = Some e)).
Proof.
  induction kvs as [|[k v] rest IH]; intros res s.
  - exists s, res. split; [reflexivity|]. split; [repeat split|]. split.
    { intros x H; exact H. }
    split; [intros x e H; left; exact H|].
    intros kv H. inversion H.
  - simpl.
    assert (En : newEntry v (Cachex.expireTTL c) s
                 = (mkWorld (env s) (S (ticks s)) (draws s) (calls1 s) (calls2 s)
                      (loads s) (logs s),
                    Ret (newEntryAt (now_of s) v (Cachex.expireTTL c)))) by reflexivity.
    rewrite (bind_Ret _ _ _ _ _ En).
    match goal with |- context [Cachex.mLoad_wrap c rest ?m ?s1] =>
      destruct (IH m s1) as (s' & r & E & (Hl & Hc1 & Hc2) & Hkeep & Hsrc & Hcov)
    end.
    exists s', r. split; [exact E|]. split; [simpl in *; repeat split; assumption|].
    assert (Hhead : exists e, at_key r (Cachex.key c k) = Some e).
    { apply Hkeep. rewrite at_key_insert.
      destruct (decide (Cachex.key c k = Cachex.key c k)); [eauto | congruence]. }
    split.
    { intros x [e He]. apply Hkeep. rewrite at_key_insert.
      destruct (decide (Cachex.key c k = x)); eauto. }
    split.
    { intros x e He. destruct (Hsrc x e He) as [H|(i & kv & now & Hi & Hx & Hnew)].
      - rewrite at_key_insert in H. destruct (decide (Cachex.key c k = x)) as [<-|Hne].
        + inversion H; subst. right. exists 0%nat, (k, v), (now_of s). auto.
        + left. exact H.
      - right. exists (S i), kv, now. auto. }
    intros kv Hkv. apply elem_of_cons in Hkv. destruct Hkv as [->|Hkv]; [exact Hhead|].
    apply Hcov. exact Hkv.
Qed.

Lemma mLoad_batch_run c (g : Cachex.MultiLoaderFn K V) (ks : list K) (s : World) :
  Cachex.mLoaderFn c = Some g ->
  exists s' o,
    Cachex.mLoad c ks s = (s', o) /\
    loads s' = S (loads s) /\ calls1 s' = calls1 s /\ calls2 s' = calls2 s /\
    match g (loads s) ks with
    | Panic p => o = Panic p
    | Ret (Err e) => o = Ret (Err (ErrMLoaderFn e))
    | Ret (Ok values) =>
        if (length ks =? length values)%nat then
          exists res,
            o = Ret (Ok res) /\
            (forall k, k ∈ ks -> exists e, at_key res (Cachex.key c k) = Some e) /\
            (forall x e, at_key res x = Some e -> batch_loaded c ks values e x)
        else o = Ret (Err ErrMLoaderLen)
    end.
Proof.
  intros Hg.
  assert (E : Cachex.mLoad c ks =
              bind (on_source (fun n => g n ks))
                (fun r => match r with
                          | Err err => ret (Err (ErrMLoaderFn err))
                          | Ok values =>
                              if negb (length ks =? length values)%nat
                              then ret (Err ErrMLoaderLen)
                              else bind (Cachex.mLoad_wrap c (zip ks values) ∅)
                                     (fun res => ret (Ok res))
                          end)).
  { unfold Cachex.mLoad. rewrite Hg. destruct (Cachex.loaderFn c); reflexivity. }
  rewrite E. clear E. unfold bind at 1. unfold on_source at 1.
  destruct (g (loads s) ks) as [[values|e]|p].
  - destruct (length ks =? length values)%nat eqn:Hlen; simpl.
    + match goal with |- context [bind (Cachex.mLoad_wrap c ?l ?m) _ ?s1] =>
        destruct (mLoad_wrap_runs c l m s1)
          as (s' & r & Er & (Hl & Hc1 & Hc2) & _ & Hsrc & Hcov)
      end.
      exists s', (Ret (Ok r)). split; [rewrite (bind_Ret _ _ _ _ _ Er); reflexivity|].
      simpl in *. split; [exact Hl|]. split; [exact Hc1|]. split; [exact Hc2|].
      exists r. split; [reflexivity|]. apply Nat.eqb_eq in Hlen. split.
      * intros k Hk. apply list_elem_of_lookup in Hk. destruct Hk as [i Hi].
        destruct (lookup_lt_is_Some_2 values i) as [v Hv].
        { rewrite <- Hlen. eapply lookup_lt_Some. exact Hi. }
        apply (Hcov (k, v)). apply list_elem_of_lookup. exists i.
        rewrite lookup_zip_with. rewrite Hi. simpl. rewrite Hv. reflexivity.
      * intros x e He. destruct (Hsrc x e He) as [H|(i & [k v] & now & Hi & Hx & Hnew)].
        { unfold at_key in H. rewrite lookup_empty in H. discriminate. }
        rewrite lookup_zip_with in Hi.
        destruct (ks !! i) as [k'|] eqn:Hk'; [|discriminate]. simpl in Hi.
        destruct (values !! i) as [v'|] eqn:Hv'; [|discriminate]. simpl in Hi.
        inversion Hi; subst. exists i, k, v, now. auto.
    + eexists _, _. split; [reflexivity|]. simpl. repeat split.
  - eexists _, _. split; [reflexivity|]. simpl. repeat split.
  - eexists _, _. split; [reflexivity|]. simpl. repeat split.
Qed.

End FacadeBatchLoad.

(** X21: with a batch loader configured, [mLoad] makes exactly one source
    call for the whole list of keys and calls no store.  A panic of the batch
    loader is not recovered; an error is wrapped; an answer with a number of
    values other than the number of keys is the length error; otherwise the
    map holds an envelope for every requested key, and each envelope in it
    is made from the value at the position of a key with that cache key. *)
Theorem mLoad_batch_is_one_call {K V} (c : Cachex.cachex K V)
    (g : Cachex.MultiLoaderFn K V) (ks : list K) (s : World) :
  Cachex.mLoaderFn c = Some g ->
  exists s' o,
    Cachex.mLoad c ks s = (s', o) /\
    loads s' = S (loads s) /\ calls1 s' = calls1 s /\ calls2 s' = calls2 s /\
    match g (loads s) ks with
    | Panic p => o = Panic p
    | Ret (Err e) => o = Ret (Err (ErrMLoaderFn e))
    | Ret (Ok values) =>
        if (length ks =? length values)%nat then
          exists res,
            o = Ret (Ok res) /\
            (forall k, k ∈ ks -> exists e, at_key res (Cachex.key c k) = Some e) /\
            (forall x e, at_key res x = Some e -> batch_loaded c ks values e x)
        else o = Ret (Err ErrMLoaderLen)
    end.
Proof. apply mLoad_batch_run. Qed.

Lemma mLoad_batch_is_one_call_witness :
  exists s' o,
    Cachex.mLoad (facadeBatch 4) ["a"; "b"] world0 = (s', o) /\
    loads s' = S (loads world0) /\
    calls1 s' = calls1 world0 /\ calls2 s' = calls2 world0 /\
    match batchHello (loads world0) ["a"; "b"] with
    | Panic p => o = Panic p
    | Ret (Err e) => o = Ret (Err (ErrMLoaderFn e))
    | Ret (Ok values) =>
        if (length ["a"; "b"] =? length values)%nat then
          exists res,
            o = Ret (Ok res) /\
            (forall k, k ∈ ["a"; "b"] ->
                       exists e, at_key res (Cachex.key (facadeBatch 4) k) = Some e) /\
            (forall x e, at_key res x = Some e ->
                         batch_loaded (facadeBatch 4) ["a"; "b"] values e x)
        else o = Ret (Err ErrMLoaderLen)
    end.
Proof.
  apply (mLoad_batch_is_one_call (facadeBatch 4) batchHello ["a"; "b"] world0).
  reflexivity.
Defined.

(** X22: a successful [load] never gives a nil envelope: it made exactly
    one source call and no store call, and the envelope is the one
    [newEntry] makes, with the facade's ttl, from the value the point loader
    returned for the key, or, when only a batch loader is configured, from
    the single value the batch loader returned for the one-key list. *)
Theorem load_ok_gives_envelope {K V} (c : Cachex.cachex K V) (k : K)
    (s s' : World) (o : option (entry V)) :
  Cachex.load c k s = (s', Ret (Ok o)) ->
  loads s' = S (loads s) /\ calls1 s' = calls1 s /\ calls2 s' = calls2 s /\
  exists now v,
    o = Some (newEntryAt now v (Cachex.expireTTL c)) /\
    source_gave c (loads s) k v.
Proof.
  unfold Cachex.load, source_gave.
  destruct (Cachex.loaderFn c) as [f|] eqn:Hf.
  - intros H.
    destruct (load_single_run c f k s) as (s1 & o1 & E & Hl & Hc1 & Hc2 & Ho).
    rewrite E in H. inversion H; subst.
    split; [exact Hl|]. split; [exact Hc1|]. split; [exact Hc2|].
    destruct (f (loads s) k) as [[v|e]|p]; [|discriminate|discriminate].
    destruct Ho as [now Ho]. inversion Ho. exists now, v. auto.
  - destruct (Cachex.mLoaderFn c) as [g|] eqn:Hg; [|discriminate].
    intros H.
    destruct (mLoad_batch_run c g [k] s Hg) as (s1 & o1 & E & Hl & Hc1 & Hc2 & Ho).
    unfold bind in H. rewrite E in H.
    destruct (g (loads s) [k]) as [[values|e]|p].
    + destruct (length [k] =? length values)%nat eqn:Hlen.
      * destruct Ho as (res & -> & Hcov & Hsrc). inversion H; subst.
        split; [exact Hl|]. split; [exact Hc1|]. split; [exact Hc2|].
        destruct (Hcov k ltac:(left)) as [e He].
        destruct (Hsrc _ _ He) as (i & k' & v & now & Hi & Hv & _ & Hnew).
        rewrite He. exists now, v. split; [congruence|].
        destruct values as [|v0 [|v1 rest]]; [discriminate| |discriminate].
        destruct i as [|i]; [|discriminate]. inversion Hv. reflexivity.
      * subst o1. discriminate.
    + subst o1. discriminate.
    + subst o1. discriminate.
Qed.

Lemma load_ok_gives_envelope_witness :
  loads (mkWorld env0 1 0 [] [] 1 []) = S (loads world0) /\
  calls1 (mkWorld env0 1 0 [] [] 1 []) = calls1 world0 /\
  calls2 (mkWorld env0 1 0 [] [] 1 []) = calls2 world0 /\
  exists now v,
    Some (newEntryAt 1700000001000 (Some hello) 5000000000)
      = Some (newEntryAt now v (Cachex.expireTTL (facadeBatch 1))) /\
    source_gave (facadeBatch 1) (loads world0) "k" v.
Proof.
  apply (load_ok_gives_envelope (facadeBatch 1) "k" world0
           (mkWorld env0 1 0 [] [] 1 [])
           (Some (newEntryAt 1700000001000 (Some hello) 5000000000))).
  vm_compute. reflexivity.
Defined.

(** X23: under SourceOnly with a point loader, [Get] is one call of the
    loader and nothing else: it returns the loader's value with a nil
    error, the loader's error wrapped, or panics as the loader does; it
    calls no store, and does not even need the facade's cache to be set. *)
Theorem Get_SourceOnly_is_the_loader {K V} (c : Cachex.cachex K V)
    (f : Cachex.LoaderFn K V) (k : K) (s : World) :
  Cachex.ss c = Cachex.SourceStrategySourceOnly ->
  Cachex.loaderFn c = Some f ->
  exists s',
    Cachex.Get c k s
      = (s', match f (loads s) k with
             | Ret (Ok v) => Ret (v, None)
             | Ret (Err e) => Ret (None, Some (ErrLoaderFn e))
             | Panic p => Panic p
             end) /\
    loads s' = S (loads s) /\ calls1 s' = calls1 s /\ calls2 s' = calls2 s.
Proof.
  intros Hss Hf. unfold Cachex.Get. rewrite Hss. simpl.
  unfold Cachex.ssSourceOnlyGet. rewrite (load_with_loader c f k Hf).
  destruct (load_single_run c f k s) as (s1 & o1 & E & Hl & Hc1 & Hc2 & Ho).
  exists s1. split; [|auto].
  destruct (f (loads s) k) as [[v|e]|p].
  - destruct Ho as [now ->]. rewrite (bind_Ret _ _ _ _ _ E).
    unfold Cachex.lift. rewrite Value_newEntryAt. reflexivity.
  - subst o1. rewrite (bind_Ret _ _ _ _ _ E). reflexivity.
  - subst o1. rewrite (bind_Panic _ _ _ _ _ E). reflexivity.
Qed.

Lemma Get_SourceOnly_is_the_loader_witness :
  exists s',
    Cachex.Get (facadeOf (Some sourceHello) 4 false) "k" world0
      = (s', match sourceHello (loads world0) "k" with
             | Ret (Ok v) => Ret (v, None)
             | Ret (Err e) => Ret (None, Some (ErrLoaderFn e))
             | Panic p => Panic p
             end) /\
    loads s' = S (loads world0) /\
    calls1 s' = calls1 world0 /\ calls2 s' = calls2 world0.
Proof.
  apply (Get_SourceOnly_is_the_loader (facadeOf (Some sourceHello) 4 false)
           sourceHello "k" world0); reflexivity.
Defined.

(** ** Reading through the facade *)



Section FacadeReads.
Context {K V : Type}.
Implicit Types (c : Cachex.cachex K V) (w : Wrapper.wrapper V).











End FacadeReads.

Section FacadeGet.
Context {K V : Type}.
Implicit Types (c : Cachex.cachex K V) (w : Wrapper.wrapper V).


End FacadeGet.










(** ** Strategies that only read the cache *)

Section CacheStrategies.
Context {K V : Type}.
Implicit Types (c : Cachex.cachex K V) (w : Wrapper.wrapper V).

Lemma mGet_keeps_loads w lv keys : keeps loads (Wrapper.mGet w lv keys).
Proof. unfold Wrapper.mGet. keeps_tac. Qed.

Lemma mSet_keeps_loads w lv kvs t : keeps loads (Wrapper.mSet w lv kvs t).
Proof. unfold Wrapper.mSet. keeps_tac. Qed.

Lemma MGet_l1_keeps_loads (keys : list string) (fromL1 : gmap string (option (entry V))) :
  forall hit miss, keeps loads (Wrapper.MGet_l1 keys fromL1 hit miss).
Proof.
  induction keys as [|key rest IH]; intros hit miss; simpl; [apply keeps_ret|].
  apply keeps_bind; [apply keeps_fresh, clock_keeps_loads | intros; apply IH].
Qed.

Lemma MGet_l2_keeps_loads (keys : list string) (fromL2 : gmap string (option (entry V))) :
  forall hit hitL2, keeps loads (Wrapper.MGet_l2 keys fromL2 hit hitL2).
Proof.
  induction keys as [|key rest IH]; intros hit hitL2; simpl; [apply keeps_ret|].
  apply keeps_bind; [apply keeps_fresh, clock_keeps_loads | intros; apply IH].
Qed.

Lemma Wrapper_MGet_keeps_loads w keys : keeps loads (Wrapper.MGet w keys).
Proof.
  unfold Wrapper.MGet.
  apply keeps_bind; [apply mGet_keeps_loads|]. intros fromL1.
  apply keeps_bind; [apply MGet_l1_keeps_loads|]. intros [hit miss].
  destruct (length miss =? 0)%nat; [apply keeps_ret|].
  apply keeps_bind; [apply mGet_keeps_loads|]. intros fromL2.
  apply keeps_bind; [apply MGet_l2_keeps_loads|]. intros [hit' hitL2].
  apply keeps_bind; [apply getDelTTL_keeps_loads|]. intros t.
  apply keeps_bind; [apply mSet_keeps_loads | intros; apply keeps_ret].
Qed.

Lemma groupBatchRes_range_keeps_loads c (ks : list K) vals :
  forall hit expire miss,
    keeps loads (Cachex.groupBatchRes_range c ks vals hit expire miss).
Proof.
  induction ks as [|k0 rest IH]; intros hit expire miss; simpl; [apply keeps_ret|].
  destruct (at_key vals (Cachex.key c k0)); [|apply IH].
  apply keeps_bind; [apply keeps_IsExpired, clock_keeps_loads|].
  intros [|]; apply IH.
Qed.

Lemma ssCacheOnlyMGet_keeps_loads c (ks : list K) :
  keeps loads (Cachex.ssCacheOnlyMGet c ks).
Proof.
  unfold Cachex.ssCacheOnlyMGet.
  apply keeps_bind.
  { unfold Cachex.on_cache. destruct (Cachex.cache c);
      [apply Wrapper_MGet_keeps_loads | apply keeps_panic]. }
  intros fromCache.
  apply keeps_bind; [apply groupBatchRes_range_keeps_loads|]. intros [[hit expire] miss].
  apply keeps_bind; [apply packBatchRes_keeps | intros; apply keeps_ret].
Qed.

End CacheStrategies.

(** X28: under CacheOnly and under ExpiredBackup a batch read never returns
    an error: whenever [MGet] returns, it returns one position per key, also
    when the source failed or no loader is configured; and under CacheOnly it
    makes no source call. *)
Theorem MGet_cache_strategies_never_err {K V} (c : Cachex.cachex K V) (ks : list K)
    (s s' : World) (r : result (list (option V))) :
  Cachex.ss c = Cachex.SourceStrategyCacheOnly \/
  Cachex.ss c = Cachex.SourceStrategyExpiredBackup ->
  Cachex.MGet c ks s = (s', Ret r) ->
  (exists res, r = Ok res /\ length res = length ks) /\
  (Cachex.ss c = Cachex.SourceStrategyCacheOnly -> loads s' = loads s).
Proof.
  assert (Hpack : forall m s0, bind (Cachex.packBatchRes c ks m)
                                 (fun res => ret (Ok res)) s0 = (s', Ret r) ->
                               exists res, r = Ok res /\ length res = length ks).
  { intros m s0 H. bind_step H. inversion H; subst.
    exists a. split; [reflexivity|]. apply packBatchRes_positions in E. tauto. }
  intros [Hss|Hss] H.
  - assert (E : Cachex.MGet c ks s = Cachex.ssCacheOnlyMGet c ks s).
    { unfold Cachex.MGet. rewrite Hss. reflexivity. }
    rewrite E in H. split.
    + unfold Cachex.ssCacheOnlyMGet in H. bind_step H. bind_step H.
      destruct a0 as [[hit expire] miss]. eapply Hpack. exact H.
    + intros _. exact (ssCacheOnlyMGet_keeps_loads c ks _ _ _ H).
  - assert (E : Cachex.MGet c ks s = Cachex.ssExpiredBackupMGet c ks s).
    { unfold Cachex.MGet. rewrite Hss. reflexivity. }
    rewrite E in H. split.
    + unfold Cachex.ssExpiredBackupMGet in H. bind_step H. bind_step H.
      destruct a0 as [[hit expire] miss].
      destruct ((length miss =? 0)%nat && (length expire =? 0)%nat);
        [eapply Hpack; exact H|].
      bind_step H. destruct a0 as [m|e]; [|eapply Hpack; exact H].
      bind_step H. destruct a0 as [m' o]. eapply Hpack. exact H.
    + rewrite Hss. discriminate.
Qed.

Lemma MGet_cache_strategies_never_err_witness :
  exists s' r,
    Cachex.MGet (facadeOf (Some sourceDown) 5 false) ["k"; "j"] worldStale = (s', Ret r) /\
    (exists res, r = Ok res /\ length res = length ["k"; "j"]) /\
    (Cachex.ss (facadeOf (Some sourceDown) 5 false) = Cachex.SourceStrategyCacheOnly ->
     loads s' = loads worldStale).
Proof.
  eexists _, _. split; [vm_compute; reflexivity|].
  eapply (MGet_cache_strategies_never_err (facadeOf (Some sourceDown) 5 false)
            ["k"; "j"] worldStale).
  - right. reflexivity.
  - vm_compute. reflexivity.
Defined.

(** ** What [Build] checks *)

Lemma invalid_strategy {K V} (c : Cachex.cachex K V) (k : K) (ks : list K) (s : World) :
  ~ (1 <= Cachex.ss c <= 5) ->
  Cachex.Get c k s = (s, Ret (None, Some (ErrInvalidStrategy (Cachex.ss c)))) /\
  Cachex.MGet c ks s = (s, Ret (Err (ErrInvalidStrategy (Cachex.ss c)))).
Proof.
  intros Hss. unfold Cachex.Get, Cachex.MGet.
  unfold Cachex.SourceStrategyCacheFirst, Cachex.SourceStrategySourceFirst,
    Cachex.SourceStrategyCacheOnly, Cachex.SourceStrategySourceOnly,
    Cachex.SourceStrategyExpiredBackup.
  destruct (Z.eqb_spec (Cachex.ss c) 1); [lia|].
  destruct (Z.eqb_spec (Cachex.ss c) 2); [lia|].
  destruct (Z.eqb_spec (Cachex.ss c) 3); [lia|].
  destruct (Z.eqb_spec (Cachex.ss c) 4); [lia|].
  destruct (Z.eqb_spec (Cachex.ss c) 5); [lia|].
  split; reflexivity.
Qed.

(** X29: [Build] succeeds exactly when the namespace is not empty, a key
    function is set, L2 does not come without L1, and a store or a loader is
    set; it checks nothing else.  The facade it builds always has its cache
    set, over the builder's two stores and codec, with the wrapper's own
    negative-caching switch off.  The strategy is not checked: with a value
    outside the five strategies the facade is built all the same, and each
    [Get] and [MGet] on it returns the invalid-strategy error and does
    nothing. *)
Theorem Build_checks {K V} (b : Builder.builder K V) :
  ((exists cx, Builder.Build b = Ok cx) <->
   Builder.namespace b <> "" /\
   Builder.genKeyFn b <> None /\
   (Builder.l2 b = None \/ Builder.l1 b <> None) /\
   (Builder.loaderFn b <> None \/ Builder.mLoaderFn b <> None \/
    Builder.l1 b <> None \/ Builder.l2 b <> None)) /\
  (forall cx, Builder.Build b = Ok cx ->
     Cachex.cache cx
       = Some (Wrapper.mkWrapper (Builder.l1 b) (Builder.l2 b) false
                 (Builder.delTTL b) (Builder.codec b)) /\
     Cachex.codec cx = Builder.codec b /\
     Cachex.cacheNil cx = Builder.cacheNil b /\
     Cachex.ss cx = Builder.ss b /\
     (~ (1 <= Builder.ss b <= 5) ->
      forall (k : K) (ks : list K) (s : World),
        Cachex.Get cx k s = (s, Ret (None, Some (ErrInvalidStrategy (Builder.ss b)))) /\
        Cachex.MGet cx ks s = (s, Ret (Err (ErrInvalidStrategy (Builder.ss b)))))).
Proof.
  unfold Builder.Build. simpl. split.
  - split.
    + intros [cx H].
      destruct (bool_decide (Builder.namespace b = "")) eqn:Hns; [discriminate|].
      apply bool_decide_eq_false in Hns.
      destruct (Builder.genKeyFn b) as [fn|]; [|discriminate].
      destruct (bool_decide (Builder.l2 b ≠ None) && bool_decide (Builder.l1 b = None))
        eqn:H12; [discriminate|].
      destruct (bool_decide (Builder.loaderFn b = None)
                && bool_decide (Builder.mLoaderFn b = None)
                && bool_decide (Builder.l1 b = None)
                && bool_decide (Builder.l2 b = None)) eqn:Hany; [discriminate|].
      split; [exact Hns|]. split; [discriminate|]. split.
      * destruct (Builder.l2 b); [|left; reflexivity].
        destruct (Builder.l1 b); [right; discriminate|].
        rewrite !bool_decide_eq_true_2 in H12 by (reflexivity || discriminate).
        discriminate.
      * destruct (Builder.loaderFn b); [left; discriminate|].
        destruct (Builder.mLoaderFn b); [right; left; discriminate|].
        destruct (Builder.l1 b); [right; right; left; discriminate|].
        destruct (Builder.l2 b); [right; right; right; discriminate|].
        rewrite !bool_decide_eq_true_2 in Hany by reflexivity. discriminate.
    + intros (Hns & Hfn & H12 & Hany).
      rewrite bool_decide_eq_false_2 by exact Hns.
      destruct (Builder.genKeyFn b) as [fn|]; [|congruence].
      assert (E12 : bool_decide (Builder.l2 b ≠ None) && bool_decide (Builder.l1 b = None)
                    = false).
      { destruct H12 as [-> | H1].
        - rewrite bool_decide_eq_false_2 by (intros H; apply H; reflexivity). reflexivity.
        - rewrite (bool_decide_eq_false_2 (Builder.l1 b = None)) by exact H1.
          apply andb_false_r. }
      rewrite E12.
      assert (Eany : bool_decide (Builder.loaderFn b = None)
                     && bool_decide (Builder.mLoaderFn b = None)
                     && bool_decide (Builder.l1 b = None)
                     && bool_decide (Builder.l2 b = None) = false).
      { destruct Hany as [H|[H|[H|H]]];
          rewrite (bool_decide_eq_false_2 _ H);
          rewrite ?andb_false_r, ?andb_false_l; reflexivity. }
      rewrite Eany. eexists. reflexivity.
  - intros cx H.
    destruct (bool_decide (Builder.namespace b = "")); [discriminate|].
    destruct (Builder.genKeyFn b) as [fn|]; [|discriminate].
    destruct (bool_decide (Builder.l2 b ≠ None) && bool_decide (Builder.l1 b = None));
      [discriminate|].
    destruct (bool_decide (Builder.loaderFn b = None)
              && bool_decide (Builder.mLoaderFn b = None)
              && bool_decide (Builder.l1 b = None)
              && bool_decide (Builder.l2 b = None)); [discriminate|].
    inversion H; subst cx. clear H.
    split; [reflexivity|]. split; [reflexivity|]. split; [reflexivity|].
    split; [reflexivity|].
    intros Hss k ks s.
    match goal with |- Cachex.Get ?cx _ _ = _ /\ _ =>
      exact (invalid_strategy cx k ks s Hss)
    end.
Qed.

(** ** Reading back what was written *)

Lemma replay_last (h : list call) (k : string) (b : list byte) (t : Z) :
  forall m, replay (h ++ [CSet k b t]) m !! k = Some b.
Proof.
  induction h as [|cl rest IH]; intros m.
  - simpl. apply lookup_insert_eq.
  - destruct cl; simpl; apply IH.
Qed.

Lemma memStore_keeps_writes : keeps_writes memStore.
Proof.
  intros h k b t. split; [reflexivity|]. simpl. rewrite replay_last. reflexivity.
Qed.

Section ReadBack.
Context {K V : Type}.
Implicit Types (c : Cachex.cachex K V) (w : Wrapper.wrapper V).

(** [Set_] of the wrapper with an envelope that serializes: the frame is
    the last call L1 receives. *)
Lemma Wrapper_Set_L1_written w (c1 : Cacher) (key : string) (e e' : entry V) frame (s : World) :
  Wrapper.l1 w = Some c1 ->
  Serialize (Wrapper.codec w) e = (e', Ok frame) ->
  exists s1 t err,
    Wrapper.Set_ w key (Some e) s = (s1, Ret (Some e', err)) /\
    calls1 s1 = calls1 s ++ [CSet key frame t] /\
    env s1 = env s /\ loads s1 = loads s /\
    (Wrapper.l2 w = None -> cSet c1 (calls1 s) key frame t = None -> err = None).
Proof.
  intros Hl1 HS. unfold Wrapper.Set_.
  rewrite (bind_Ret _ _ _ _ _ (getDelTTL_2_run w s)).
  destruct (Wrapper.l2 w) as [c2|] eqn:Hl2.
  - rewrite (bind_Ret _ _ _ _ _
               (set_serialized w L2 c2 key e e' frame _ _ Hl2 HS)).
    cbv beta iota.
    match goal with |- context [bind (Wrapper.getDelTTL w 1) _ ?s0] =>
      rewrite (bind_Ret _ _ _ _ _ (getDelTTL_1_run w s0));
      rewrite (bind_Ret _ _ _ _ _
                 (set_serialized w L1 c1 key e' e' frame (ttl_L1 w s0) (drawn s0) Hl1
                    (Serialize_again _ _ _ _ HS)))
    end.
    cbv beta iota. rewrite both_errors_ret.
    eexists _, _, _. split; [reflexivity|]. simpl.
    split; [reflexivity|]. split; [reflexivity|]. split; [reflexivity|].
    intros H. discriminate.
  - assert (E2 : forall t0 s0, Wrapper.set w L2 key (Some e) t0 s0 = (s0, Ret (Some e, None))).
    { intros t0 s0. unfold Wrapper.set. simpl. rewrite Hl2. reflexivity. }
    rewrite (bind_Ret _ _ _ _ _ (E2 _ _)). cbv beta iota.
    match goal with |- context [bind (Wrapper.getDelTTL w 1) _ ?s0] =>
      rewrite (bind_Ret _ _ _ _ _ (getDelTTL_1_run w s0));
      rewrite (bind_Ret _ _ _ _ _
                 (set_serialized w L1 c1 key e e' frame (ttl_L1 w s0) (drawn s0) Hl1 HS))
    end.
    cbv beta iota. rewrite both_errors_ret.
    eexists _, _, _. split; [reflexivity|]. simpl.
    split; [reflexivity|]. split; [reflexivity|]. split; [reflexivity|].
    intros _ Hset. rewrite Hset. reflexivity.
Qed.

(** The strategies that read the cache first return the value of a fresh
    cached envelope. *)
Lemma Get_cached_fresh c w (k : K) (e : entry V) (s s1 s2 : World) :
  Cachex.ss c = Cachex.SourceStrategyCacheFirst \/
  Cachex.ss c = Cachex.SourceStrategyCacheOnly \/
  Cachex.ss c = Cachex.SourceStrategyExpiredBackup ->
  Cachex.cache c = Some w ->
  Wrapper.Get w (Cachex.key c k) s = (s1, Ret (Some e)) ->
  fresh (Some e) s1 = (s2, Ret true) ->
  Cachex.Get c k s = (s2, Value (Some e) (Cachex.codec c)).
Proof.
  intros Hss Hw HG Hf. unfold Cachex.Get.
  destruct Hss as [-> | [-> | ->]]; simpl;
    unfold Cachex.ssCacheFirstGet, Cachex.ssCacheOnlyGet, Cachex.ssExpiredBackupGet,
      Cachex.on_cache; rewrite Hw;
    rewrite (bind_Ret _ _ _ _ _ HG), (bind_Ret _ _ _ _ _ Hf); reflexivity.
Qed.

End ReadBack.

(** X30: read your writes.  On a facade whose L1 accepts every write and
    returns the last value written under a key, with a codec that reads the
    value back, [Set] followed by [Get] of the same key under a strategy
    that reads the cache first returns the value that was set, with a nil
    error and without a source call, whatever L1 held before and whatever
    L2 is, as long as the envelope is expired at no reading of the clock.
    With no L2, [Set] itself returns nil. *)
Theorem Get_after_Set_reads_the_value {K V} (c : Cachex.cachex K V)
    (w : Wrapper.wrapper V) (c1 : Cacher) (k : K) (v : V) (b : list byte) (s : World) :
  Cachex.ss c = Cachex.SourceStrategyCacheFirst \/
  Cachex.ss c = Cachex.SourceStrategyCacheOnly \/
  Cachex.ss c = Cachex.SourceStrategyExpiredBackup ->
  Cachex.cache c = Some w ->
  Wrapper.l1 w = Some c1 ->
  Wrapper.codec w = Cachex.codec c ->
  keeps_writes c1 ->
  Marshal (Cachex.codec c) (Some v) = Ok b ->
  Unmarshal (Cachex.codec c) b = Ok (Some v) ->
  Bin.int64_range (Cachex.expireTTL c) ->
  (forall n, expiredAt (Bin.to_int64 (clock (env s) n))
               (newEntryAt (now_of s) (Some v) (Cachex.expireTTL c)) = false) ->
  exists s1 err s2,
    Cachex.Set_ c k (Some v) s = (s1, Ret err) /\
    (Wrapper.l2 w = None -> err = None) /\
    Cachex.Get c k s1 = (s2, Ret (Some v, None)) /\
    loads s2 = loads s.
Proof.
  intros Hss Hw Hl1 Hcd Hstore Hm Hu Ht Hfresh.
  assert (Hnow : Bin.int64_range (now_of s)) by apply BinFacts.to_int64_range.
  destruct (value_envelope_reads_back (Cachex.codec c) (now_of s) (Cachex.expireTTL c)
              v b Hnow Ht Hm Hu) as (HS & d & Hde & Hcreate & Httl & Hnil & Hvb & Hval).
  set (e0 := newEntryAt (now_of s) (Some v) (Cachex.expireTTL c)) in *.
  cbv zeta in HS. fold e0 in HS. rewrite <- Hcd in HS.
  (* the write *)
  unfold Cachex.Set_. rewrite (bind_Ret _ _ _ _ _ (newEntry_run (Some v) _ s)).
  fold e0. unfold Cachex.set.
  change (IsNil e0) with false. cbv beta iota. simpl andb. cbv iota.
  unfold Cachex.on_cache. rewrite Hw.
  match goal with |- context [bind (Wrapper.Set_ w ?key (Some e0)) _ ?s0] =>
    destruct (Wrapper_Set_L1_written w c1 key e0 _ _ s0 Hl1 HS)
      as (s1 & t & err & ES & Hc1 & He1 & Hld1 & Herr)
  end.
  rewrite (bind_Ret _ _ _ _ _ ES). cbv beta iota.
  exists s1, err. simpl in Hc1, He1, Hld1.
  (* the read *)
  destruct (Hstore (calls1 s) (Cachex.key c k) (frame_of (with_valBytes e0 b)) t)
    as [Hset Hget].
  assert (Hfresh_d : forall st, env st = env s ->
            forall n, expiredAt (Bin.to_int64 (clock (env st) n)) d = false).
  { intros st Hst n. rewrite Hst. specialize (Hfresh n).
    unfold expiredAt in *. rewrite Hcreate, Httl. exact Hfresh. }
  rewrite <- Hc1 in Hget.
  destruct (Wrapper_Get_L1_hit w c1 _ _ d s1 Hl1 Hget Hde (Hfresh_d s1 He1))
    as (s2 & HG & He2 & _).
  destruct (fresh_at d s2 (Hfresh_d s2 (eq_trans He2 He1))) as (s3 & Hf & _ & _).
  exists s3. split; [reflexivity|]. split.
  { intros Hl2. apply Herr; [exact Hl2|]. simpl. exact Hset. }
  split.
  - rewrite (Get_cached_fresh c w k d s1 s2 s3 Hss Hw HG Hf). rewrite Hval. reflexivity.
  - rewrite (keeps_fresh loads (Some d) clock_keeps_loads _ _ _ Hf).
    rewrite (Wrapper_Get_keeps_loads w _ _ _ _ HG). exact Hld1.
Qed.

Lemma Get_after_Set_reads_the_value_witness :
  exists s1 err s2,
    Cachex.Set_ (facadeOf None 3 false) "k" (Some hello) world0 = (s1, Ret err) /\
    (Wrapper.l2 wrapperL1 = None -> err = None) /\
    Cachex.Get (facadeOf None 3 false) "k" s1 = (s2, Ret (Some hello, None)) /\
    loads s2 = loads world0.
Proof.
  apply (Get_after_Set_reads_the_value (facadeOf None 3 false) wrapperL1 memStore
           "k" hello hello world0).
  - right. left. reflexivity.
  - reflexivity.
  - reflexivity.
  - reflexivity.
  - exact memStore_keeps_writes.
  - reflexivity.
  - reflexivity.
  - unfold Bin.int64_range. simpl. lia.
  - intros n. vm_compute. reflexivity.
Defined.
